(** * Request-processing core of the deployd fork: router, request context,
      session registry and script sandbox.

    The development embeds the JavaScript sources
    [lib/router.js], [lib/context.js], [lib/doh.js], [lib/session.js] and
    [lib/script.js] as Rocq functions over explicit state and proves (or
    refutes) the properties the specification states about them. *)

From Stdlib Require Import ZArith Ascii String List Bool Lia Permutation Sorted.
From stdpp Require Import base option gmap strings list sorting pretty.

Local Open Scope string_scope.
Local Open Scope Z_scope.

(** ** JavaScript values shared by all the components *)

Module Js.

(** A JavaScript exception either propagates ([Throw]) or the call
    returns normally ([Ok]). *)
Inductive Result (E A : Type) : Type :=
| Ok (a : A)
| Throw (e : E).
Arguments Ok {E A} a.
Arguments Throw {E A} e.

(** The values that the code under study throws, stores as an error or
    hands to a responder.  [VError] is an instance of [Error] (its [name]
    is the constructor's name: TypeError, ReferenceError, ...); [VObject]
    is a plain object literal with the three properties the code reads.
    The two last ones are an [Error] and a plain object that hold, beside
    these properties, a value [JSON.stringify] throws on, a cycle or a
    BigInt (for the [Error] in its [code] or [errors], the two
    properties a responder copies). *)
Inductive Value : Type :=
| VUndefined
| VNull
| VString (s : string)
| VNumber (n : Z)
| VError (name message : string) (statusCode : option Z)
| VObject (message : option string) (status statusCode : option Z)
| VErrorCyclic (name message : string) (statusCode : option Z)
| VObjectCyclic (message : option string) (status statusCode : option Z).

Definition instanceofError (v : Value) : bool :=
  match v with VError _ _ _ | VErrorCyclic _ _ _ => true | _ => false end.

(** ToBoolean. *)
Definition truthy (v : Value) : bool :=
  match v with
  | VUndefined | VNull => false
  | VString s => negb (String.eqb s "")
  | VNumber n => negb (n =? 0)
  | VError _ _ _ | VObject _ _ _
  | VErrorCyclic _ _ _ | VObjectCyclic _ _ _ => true
  end.

(** Whether [JSON.stringify] returns on the value (and on the payload a
    responder makes of it) or throws. *)
Definition serialisable (v : Value) : bool :=
  match v with
  | VErrorCyclic _ _ _ | VObjectCyclic _ _ _ => false
  | _ => true
  end.

(** Truthiness of an optional numeric property ([undefined] when absent). *)
Definition truthyNum (o : option Z) : bool :=
  match o with Some n => negb (n =? 0) | None => false end.

(** [o || d] on an optional numeric property. *)
Definition orNum (o : option Z) (d : Z) : Z :=
  match o with Some n => if n =? 0 then d else n | None => d end.

(** [v.statusCode]. *)
Definition statusCodeOf (v : Value) : option Z :=
  match v with
  | VError _ _ sc | VErrorCyclic _ _ sc => sc
  | VObject _ _ sc | VObjectCyclic _ _ sc => sc
  | _ => None
  end.

(** [v.status]. *)
Definition statusOf (v : Value) : option Z :=
  match v with
  | VObject _ st _ | VObjectCyclic _ st _ => st
  | _ => None
  end.

(** A number as the sandbox counters hold it: a property that was never
    initialised reads [undefined], arithmetic on it yields [NaN]. *)
Inductive Num : Type :=
| NUndefined
| NNaN
| NInt (n : Z).

(** [x++] and [x--] store ToNumber(x) ± 1. *)
Definition incr (x : Num) : Num :=
  match x with NInt n => NInt (n + 1) | _ => NNaN end.
Definition decr (x : Num) : Num :=
  match x with NInt n => NInt (n - 1) | _ => NNaN end.

(** [x <= 0]: every comparison with [NaN] (or [undefined]) is false. *)
Definition le0 (x : Num) : bool :=
  match x with NInt n => n <=? 0 | _ => false end.

(** [x < y] where [x] may be [undefined]. *)
Definition lt (x : Num) (y : Z) : bool :=
  match x with NInt n => n <? y | _ => false end.

(** [Array.prototype.sort]: a stable sort; [cmp a b <= 0] keeps [a]
    before [b]. *)

Section ArraySort.
Context {A : Type} (cmp : A → A → Z).

Fixpoint sortInsert (x : A) (l : list A) : list A :=
  match l with
  | [] => [x]
  | y :: l' => if cmp x y <=? 0 then x :: l else y :: sortInsert x l'
  end.

Fixpoint arraySort (l : list A) : list A :=
  match l with
  | [] => []
  | x :: l' => sortInsert x (arraySort l')
  end.
End ArraySort.

(** Decreasing keys, the order [(a, b) => key(b) - key(a)] sorts into. *)
Definition descending {A : Type} (key : A → Z) (a b : A) : Prop :=
  key b ≤ key a.

End Js.

(** ** Router: candidate matching ([lib/router.js]) *)

Module Router.
Import Js.

(** *** The regular expression built by [generateRegex] *)

(** Characters of the class [\s] that fit a one-byte code unit. *)
Definition is_space (c : ascii) : bool :=
  let n := nat_of_ascii c in
  ((9 <=? n) && (n <=? 13))%nat || (n =? 32)%nat || (n =? 160)%nat.

(** Membership in the class [[-[\]{}()+?.,\\^$|#\s]] of the [replace]. *)
Definition in_escape_class (c : ascii) : bool :=
  existsb (Ascii.eqb c)
    (list_ascii_of_string "-[]{}()+?.,\^$|#") || is_space c.

(** [key.replace(/[-[\]{}()+?.,\\^$|#\s]/g, '\\$&')]. *)
Fixpoint escapePath (key : string) : string :=
  match key with
  | EmptyString => EmptyString
  | String c rest =>
      if in_escape_class c
      then String "\" (String c (escapePath rest))
      else String c (escapePath rest)
  end.

(** One term of the compiled pattern: a literal code unit, possibly
    under the quantifier [*]. *)
Record Term : Type := mkTerm { term_char : ascii; term_star : bool }.

(** A compiled [RegExp] of the family built by [generateRegex]: the
    anchor, the terms of the escaped path, then the constant tail (an
    optional group made of one of [/] and [?] followed by any run of
    [.]) and the end anchor. *)
Definition RegExp : Type := list Term.

Definition flush (prev : option ascii) : list Term :=
  match prev with Some a => [mkTerm a false] | None => [] end.

(** The pattern parser on the interpolated part of the source.  The
    escaped path only holds identity escapes ([\c] stands for [c]), plain
    code units and [*]; a [*] with nothing to repeat is a SyntaxError. *)
Fixpoint parseTerms (prev : option ascii) (src : string)
  : option (list Term) :=
  match src with
  | EmptyString => Some (flush prev)
  | String c rest =>
      if Ascii.eqb c "*" then
        match prev with
        | None => None
        | Some a => cons (mkTerm a true) <$> parseTerms None rest
        end
      else if Ascii.eqb c "\" then
        match rest with
        | EmptyString => None
        | String d rest' => app (flush prev) <$> parseTerms (Some d) rest'
        end
      else app (flush prev) <$> parseTerms (Some c) rest
  end.

(** [new RegExp] on the template literal around [escapedPath]. *)
Definition newRegExp (escapedPath : string) : Result Value RegExp :=
  match parseTerms None escapedPath with
  | Some ts => Ok ts
  | None => Throw (VError "SyntaxError" "Nothing to repeat" None)
  end.

(** [.] matches every code unit but the line terminators. *)
Definition is_line_terminator (c : ascii) : bool :=
  Ascii.eqb c "010" || Ascii.eqb c "013".

Fixpoint no_line_terminator (s : string) : bool :=
  match s with
  | EmptyString => true
  | String c rest => negb (is_line_terminator c) && no_line_terminator rest
  end.

(** The constant tail of the pattern on the rest of the input: nothing
    left, or one of [/] and [?] and then no line terminator up to the
    end. *)
Definition matchTail (s : string) : bool :=
  match s with
  | EmptyString => true
  | String c rest =>
      (Ascii.eqb c "/" || Ascii.eqb c "?") && no_line_terminator rest
  end.

(** Backtracking match of the terms, then of the tail. *)
Fixpoint matchTerms (ts : list Term) (s : string) : bool :=
  match ts with
  | [] => matchTail s
  | mkTerm c false :: ts' =>
      match s with
      | EmptyString => false
      | String d s' => Ascii.eqb c d && matchTerms ts' s'
      end
  | mkTerm c true :: ts' =>
      (fix star (s : string) : bool :=
         matchTerms ts' s
         || match s with
            | EmptyString => false
            | String d s' => Ascii.eqb c d && star s'
            end) s
  end.

(** [regex.test(url)] (the pattern is anchored and has no flag). *)
Definition test (re : RegExp) (url : string) : bool := matchTerms re url.

(** *** Resources *)

Record Resource : Type := mkResource {
  name : string;
  path : string
}.

(** [resourcePath && resourcePath !== '/' ? resourcePath : ''] *)
Definition pathKey (resourcePath : string) : string :=
  if String.eqb resourcePath "" || String.eqb resourcePath "/"
  then "" else resourcePath.

(** [str.split('/')]. *)
Fixpoint splitSlash (cur : string) (s : string) : list string :=
  match s with
  | EmptyString => [cur]
  | String c rest =>
      if Ascii.eqb c "/"
      then cur :: splitSlash "" rest
      else splitSlash (cur +:+ String c "") rest
  end.

Definition specificness (r : Resource) : Z :=
  let pathSegments :=
    if String.eqb (path r) "" || String.eqb (path r) "/"
    then [] else splitSlash "" (path r) in
  Z.of_nat (length pathSegments).

(** *** Router state and [matchResources] *)

Record State : Type := mkState {
  resources : list Resource;
  routeCache : gmap string (list Resource);
  lastResourceUpdate : nat;
  pathRegexCache : gmap string RegExp
}.

(** [new Router(resources, server)]. *)
Definition newRouter (rs : list Resource) : State :=
  mkState rs ∅ 0 ∅.

(** [generateRegex(resourcePath)] on the regex cache. *)
Definition generateRegex (resourcePath : string)
    (cache : gmap string RegExp)
  : Result Value RegExp * gmap string RegExp :=
  let key := pathKey resourcePath in
  match cache !! key with
  | Some cached => (Ok cached, cache)
  | None =>
      match newRegExp (escapePath key) with
      | Throw e => (Throw e, cache)
      | Ok regex =>
          if (size cache <? 2000)%nat
          then (Ok regex, <[key := regex]> cache)
          else (Ok regex, cache)
      end
  end.

(** [this.resources.filter(resource => generateRegex(resource.path).test(url))] *)
Fixpoint filterMatching (url : string) (rs : list Resource)
    (cache : gmap string RegExp)
  : Result Value (list Resource) * gmap string RegExp :=
  match rs with
  | [] => (Ok [], cache)
  | r :: rs' =>
      match generateRegex (path r) cache with
      | (Throw e, cache') => (Throw e, cache')
      | (Ok regex, cache') =>
          match filterMatching url rs' cache' with
          | (Throw e, cache'') => (Throw e, cache'')
          | (Ok matched, cache'') =>
              (Ok (if test regex url then r :: matched else matched), cache'')
          end
      end
  end.

Definition bySpecificness (a b : Resource) : Z :=
  specificness b - specificness a.

Definition matchResources (url : string) (st : State)
  : Result Value (list Resource) * State :=
  if (length (resources st) =? 0)%nat then (Ok [], st)
  else
    let st1 :=
      if (lastResourceUpdate st =? length (resources st))%nat then st
      else mkState (resources st) ∅ (length (resources st))
                   (pathRegexCache st) in
    match routeCache st1 !! url with
    | Some cached => (Ok cached, st1)
    | None =>
        match filterMatching url (resources st1) (pathRegexCache st1) with
        | (Throw e, rc) =>
            (Throw e, mkState (resources st1) (routeCache st1)
                              (lastResourceUpdate st1) rc)
        | (Ok matched, rc) =>
            let result := arraySort bySpecificness matched in
            let cache' :=
              if (size (routeCache st1) <? 1000)%nat
              then <[url := result]> (routeCache st1)
              else routeCache st1 in
            (Ok result, mkState (resources st1) cache'
                                (lastResourceUpdate st1) rc)
        end
    end.

(** *** Reference definitions for the matching claims *)

(** The words of the specification: the request path equals the base
    path, or continues it with [/] or [?] (and then anything [.]
    accepts). *)
Definition continuation (rest : string) : Prop :=
  ∃ c tail, rest = String c tail ∧ (c = "/"%char ∨ c = "?"%char)
            ∧ no_line_terminator tail = true.

Definition SpecMatches (base url : string) : Prop :=
  url = base ∨ ∃ rest, url = base +:+ rest ∧ continuation rest.

(** A decision procedure for [SpecMatches]. *)
Fixpoint specMatchb (base url : string) : bool :=
  match base with
  | EmptyString => matchTail url
  | String c base' =>
      match url with
      | EmptyString => false
      | String d url' => Ascii.eqb c d && specMatchb base' url'
      end
  end.

Fixpoint star_free (s : string) : bool :=
  match s with
  | EmptyString => true
  | String c rest => negb (Ascii.eqb c "*") && star_free rest
  end.

(** Compilation without the regex cache. *)
Definition compileKey (key : string) : Result Value RegExp :=
  newRegExp (escapePath key).

(** Filtering and sorting afresh, without any cache. *)
Fixpoint freshFilter (url : string) (rs : list Resource)
  : Result Value (list Resource) :=
  match rs with
  | [] => Ok []
  | r :: rs' =>
      match compileKey (pathKey (path r)) with
      | Throw e => Throw e
      | Ok regex =>
          match freshFilter url rs' with
          | Throw e => Throw e
          | Ok matched => Ok (if test regex url then r :: matched else matched)
          end
      end
  end.

Definition freshMatch (url : string) (rs : list Resource)
  : Result Value (list Resource) :=
  if (length rs =? 0)%nat then Ok []
  else match freshFilter url rs with
       | Throw e => Throw e
       | Ok matched => Ok (arraySort bySpecificness matched)
       end.

(** A sequence of [matchResources] calls on one router. *)
Fixpoint matchAll (urls : list string) (st : State)
  : list (Result Value (list Resource)) * State :=
  match urls with
  | [] => ([], st)
  | url :: urls' =>
      let '(r, st1) := matchResources url st in
      let '(rs, st2) := matchAll urls' st1 in
      (r :: rs, st2)
  end.

(** *** Predicates of the proofs *)

Definition literal (c : ascii) : Term := mkTerm c false.

Definition regexCacheOk (cache : gmap string RegExp) : Prop :=
  ∀ k re, cache !! k = Some re → compileKey k = Ok re.

(** The invariant of a router whose resources are not modified. *)
Record Inv (rs : list Resource) (st : State) : Prop := mkInv {
  inv_resources : resources st = rs;
  inv_regex : regexCacheOk (pathRegexCache st);
  inv_size : (size (routeCache st) ≤ 1000)%nat;
  inv_cached :
    lastResourceUpdate st = length rs →
    ∀ url l, routeCache st !! url = Some l → freshMatch url rs = Ok l
}.

End Router.

(** ** The raw response, the error responder ([lib/doh.js]) and the request
       context ([lib/context.js]) *)

Module Http.
Import Js.

(** What [res.end] was given: a string, or the JSON text of an error
    payload (kept as the payload it serialises). *)
Inductive Chunk : Type :=
| ChunkText (s : string)
| ChunkJson (payload : Value).

(** A header value as [setHeader] stores it and [getHeader] returns it:
    the string or the number that was given. *)
Inductive HeaderValue : Type :=
| HString (s : string)
| HNumber (n : Z).

(** ToBoolean of what [getHeader] returns. *)
Definition headerTruthy (v : option HeaderValue) : bool :=
  match v with
  | Some (HString s) => negb (String.eqb s "")
  | Some (HNumber n) => negb (n =? 0)
  | None => false
  end.

(** The response object that the router, the context and the responder
    read and write.  It is either Node's [http.ServerResponse], whose
    [finished] is also what the getter [writableEnded] returns, or the
    placeholder that the constructor of [Context] puts in its place when it
    is given no response: an object with [statusCode], [headersSent] and
    three methods that do nothing. *)
Record Response : Type := mkResponse {
  placeholder : bool;
  finished : bool;
  headersSent : bool;
  statusCode : Z;
  headers : gmap string HeaderValue;
  written : list Chunk
}.

Definition writableEnded (res : Response) : bool := finished res.

(** A response that Node has just created. *)
Definition newResponse : Response := mkResponse false false false 200 ∅ [].

(** [{ setHeader() {}, getHeader() { return undefined; }, end() {},
       headersSent: false, statusCode: 200 }] *)
Definition placeholderResponse : Response :=
  mkResponse true false false 200 ∅ [].

Definition setStatusCode (code : Z) (res : Response) : Response :=
  mkResponse (placeholder res) (finished res) (headersSent res) code
             (headers res) (written res).

(** Header names are stored in lower case. *)
Definition lowerAscii (c : ascii) : ascii :=
  let n := nat_of_ascii c in
  if ((65 <=? n) && (n <=? 90))%nat then ascii_of_nat (n + 32) else c.

Fixpoint toLowerCase (s : string) : string :=
  match s with
  | EmptyString => EmptyString
  | String c rest => String (lowerAscii c) (toLowerCase rest)
  end.

Definition getHeader (name : string) (res : Response)
  : option HeaderValue :=
  if placeholder res then None else headers res !! toLowerCase name.

(** [res.setHeader(name, value)]; the callers test [headersSent] first. *)
Definition setHeader (name : string) (value : HeaderValue) (res : Response)
  : Response :=
  if placeholder res then res
  else mkResponse false (finished res) (headersSent res) (statusCode res)
                  (<[toLowerCase name := value]> (headers res))
                  (written res).

(** The status codes [writeHead] accepts. *)
Definition validStatus (code : Z) : bool := (100 <=? code) && (code <=? 999).

(** What [writeHead] throws on any other status code. *)
Definition invalidStatusCode (code : Z) : Value :=
  VError "RangeError" ("Invalid status code: " +:+ pretty code) None.

(** [res.end(chunk)]: on a response that already ended nothing is
    written.  Otherwise, when the head has not gone out yet, it is
    written first, and [writeHead] throws on a status code outside
    100..999, which leaves the response as it was; then the chunk goes
    out and the response is finished.  The [end] of the placeholder does
    nothing. *)
Definition endResponse (chunk : option Chunk) (res : Response)
  : Result Value Response :=
  if placeholder res then Ok res
  else if finished res then Ok res
  else if negb (headersSent res) && negb (validStatus (statusCode res))
  then Throw (invalidStatusCode (statusCode res))
  else Ok (mkResponse false true true (statusCode res) (headers res)
                      (written res ++ match chunk with
                                      | Some c => [c]
                                      | None => []
                                      end)%list).

(** *** [doh.createResponder()] *)

Definition inErrorRange (status : Z) : bool :=
  (400 <=? status) && (status <? 600).

(** [normalizeStatus(err)] *)
Definition normalizeStatus (err : Value) : Z :=
  let status :=
    if truthyNum (statusCodeOf err) then statusCodeOf err
    else statusOf err in
  match status with
  | Some s => if inErrorRange s then s else 500
  | None => 500
  end.

(** [normalizePayload(err)] for a truthy [err]. *)
Definition normalizePayload (err : Value) : Value :=
  match err with
  | VString s => VObject (Some s) None None
  | VError _ message _ => VObject (Some message) None None
  | VObject None st sc => VObject (Some "Request failed") st sc
  | VObject (Some m) st sc => VObject (Some m) st sc
  | VErrorCyclic _ message _ => VObjectCyclic (Some message) None None
  | VObjectCyclic None st sc => VObjectCyclic (Some "Request failed") st sc
  | VObjectCyclic (Some m) st sc => VObjectCyclic (Some m) st sc
  | VNumber n => VObject (Some (pretty n)) None None
  | VUndefined | VNull => VObject (Some "Unknown error") None None
  end.

(** What [JSON.stringify] throws on a cycle. *)
Definition notSerialisable : Value :=
  VError "TypeError" "Converting circular structure to JSON" None.

(** [safeEnd(res)] *)
Definition safeEnd (res : Response) : Response :=
  if writableEnded res then res
  else match endResponse None res with
       | Ok res1 => res1
       | Throw _ => res
       end.

(** [respond(err, req, res)]: the status and the header are set and the
    body is built and written inside a [try]; whatever is thrown there
    (by [JSON.stringify], or by [end]) is answered by [safeEnd]. *)
Definition respond (err : Value) (res : Response) : Response :=
  if negb (truthy err) || writableEnded res then res
  else
    let status := normalizeStatus err in
    let status :=
      if (status =? 500) && inErrorRange (statusCode res)
      then statusCode res else status in
    let payload := normalizePayload err in
    let res1 :=
      if negb (headersSent res)
      then setHeader "Content-Type"
             (HString "application/json; charset=utf-8")
             (setStatusCode status res)
      else res in
    match
      if serialisable payload
      then endResponse (Some (ChunkJson payload)) res1
      else Throw notSerialisable
    with
    | Ok res2 => res2
    | Throw _ => safeEnd res1
    end.

End Http.

Module Context.
Import Js Http.

(** The payload of a successful completion: an object or array (with the
    text [JSON.stringify] gives for it, or [None] when serialising
    throws), a string, or nothing. *)
Inductive Payload : Type :=
| PObject (json : option string)
| PText (s : string)
| PNumber (n : Z)
| PBool (b : bool)
| PAbsent.

(** [responseBody] once the payload has been looked at: a string, or the
    truthy number or boolean that [response || ''] leaves as it is. *)
Inductive Body : Type :=
| BText (s : string)
| BOther.

Definition bodyTruthy (body : Body) : bool :=
  match body with
  | BText s => negb (String.eqb s "")
  | BOther => true
  end.

(** What [Buffer.byteLength] and [res.end] throw on a chunk that is
    neither a string nor a buffer. *)
Definition notAString : Value :=
  VError "TypeError"
    "The argument must be of type string or an instance of Buffer" None.

(** [Buffer.byteLength(body)] *)
Definition byteLength (body : Body) : Result Value Z :=
  match body with
  | BText s => Ok (Z.of_nat (String.length s))
  | BOther => Throw notAString
  end.

Record Context : Type := mkContext {
  res : Response;
  url : string
}.

(** [fullUrl.slice(basePath.length)] *)
Fixpoint slice (n : nat) (s : string) : string :=
  match n, s with
  | O, _ => s
  | S n', String _ rest => slice n' rest
  | S _, EmptyString => EmptyString
  end.

(** [_extractUrl(basePath, fullUrl)] *)
Definition extractUrl (basePath fullUrl : string) : string :=
  let relativeUrl := slice (String.length basePath) fullUrl in
  match relativeUrl with
  | String "/" _ => relativeUrl
  | _ => String "/" relativeUrl
  end.

(** [new Context(resource, req, res, server)]: [this.res] is [res], or
    the placeholder when [res] is missing. *)
Definition newContext (basePath : string) (reqUrl : string)
    (res : option Response) : Context :=
  mkContext (default placeholderResponse res) (extractUrl basePath reqUrl).

Definition bodyless (statusCode : Z) : bool :=
  (statusCode =? 204) || (statusCode =? 304).

Definition quote : string := String (ascii_of_nat 34) EmptyString.

(** [JSON.stringify({ message: 'Internal Server Error' })] *)
Definition internalErrorBody : string :=
  "{" +:+ quote +:+ "message" +:+ quote +:+ ":" +:+ quote
      +:+ "Internal Server Error" +:+ quote +:+ "}".

(** One iteration of the [forEach] of [_setHeaders]. *)
Definition setHeaderIfFree (res : Response)
    (entry : string * HeaderValue) : Response :=
  let '(header, value) := entry in
  if negb (headersSent res) && negb (headerTruthy (getHeader header res))
  then setHeader header value res else res.

(** [_setHeaders(statusCode, body, contentType)]: the object of headers
    is built first, and taking the length of the body throws when the
    body is not a string; only then are the headers set. *)
Definition setHeaders (statusCode : Z) (body : Body)
    (contentType : string) (res : Response) : Result Value Response :=
  let headers :=
    [("Cache-Control", HString "no-cache, no-store, must-revalidate");
     ("Pragma", HString "no-cache");
     ("Expires", HString "0");
     ("Content-Type", HString contentType)] in
  if negb (bodyless statusCode) && bodyTruthy body
  then match byteLength body with
       | Throw e => Throw e
       | Ok n =>
           Ok (foldl setHeaderIfFree res
                     (headers ++ [("Content-Length", HNumber n)])%list)
       end
  else Ok (foldl setHeaderIfFree res headers).

(** [res.end(responseBody)] *)
Definition endWith (body : Body) (res : Response)
  : Result Value Response :=
  match body with
  | BText s => endResponse (Some (ChunkText s)) res
  | BOther => if placeholder res then Ok res else Throw notAString
  end.

(** [done(err, response)] on the raw response of the context: the
    response afterwards, and what the call throws (the promise of the
    [async] method is then rejected with it), if anything. *)
Definition doneOnResponse (err : Value) (response : Payload)
    (res : Response) : Response * option Value :=
  if finished res then (res, None)
  else
    let statusCode :=
      if Http.statusCode res =? 0 then 200 else Http.statusCode res in
    if truthy err then
      let statusCode := orNum (statusCodeOf err) 400 in
      (respond err (setStatusCode statusCode res), None)
    else
      let '(responseBody, contentType, res1) :=
        match response with
        | PObject (Some json) => (BText json, "application/json", res)
        | PObject None =>
            (BText internalErrorBody, "application/json",
             setStatusCode 500 res)
        | PText s => (BText s, "text/html; charset=utf-8", res)
        | PNumber n =>
            (if n =? 0 then BText "" else BOther,
             "text/html; charset=utf-8", res)
        | PBool b =>
            (if b then BOther else BText "",
             "text/html; charset=utf-8", res)
        | PAbsent => (BText "", "text/html; charset=utf-8", res)
        end in
      match setHeaders statusCode responseBody contentType res1 with
      | Throw e => (res1, Some e)
      | Ok res2 =>
          match
            if negb (bodyless statusCode) then endWith responseBody res2
            else endResponse None res2
          with
          | Ok res3 => (res3, None)
          | Throw e => (res2, Some e)
          end
      end.

Definition done (err : Value) (response : Payload) (ctx : Context)
  : Context * option Value :=
  let '(res1, thrown) := doneOnResponse err response (res ctx) in
  (mkContext res1 (url ctx), thrown).

(** *** Sample contexts *)

(** A context over a response of Node, and the one [handleSessions] builds
    with no request and no response. *)
Definition liveContext : Context := newContext "/a" "/a/1" (Some newResponse).

Definition sessionContext : Context := newContext "/a" "" None.

Definition notFoundError : Value := VObject (Some "no such item") None (Some 404).

Definition forbiddenError : Value := VObject (Some "not yours") None (Some 403).

End Context.
(** ** Router: dispatch ([Router.route]) *)

Module Route.
Import Js Http Router.

(** What a resource handler does, as the router can observe it, in the
    order it happens.  The first five are calls into the closures that
    the promise executor of [route] creates; [ResponseDone] is the
    [finish] or [close] event of the response. *)
Inductive Event : Type :=
| CallDone (err : Value) (payload : Context.Payload)
    (** the handler calls [ctx.done(err, payload)] *)
| DoneResumes
    (** the [await originalDone(...)] of one earlier call resumes *)
| CallNext (err : Value)
    (** the handler calls [next(err)] *)
| HandlerThrows (e : Value)
    (** [fn()] throws synchronously *)
| HandlerResolves
    (** the promise that [fn()] returned is fulfilled *)
| HandlerRejects (e : Value)
    (** the promise that [fn()] returned is rejected *)
| ResponseDone.

(** The promise of one candidate. *)
Inductive Settlement : Type :=
| Unsettled
| Resolved
| Rejected (e : Value).

(** The variables one candidate's closures share: [settled] and the
    promise are per candidate, [nextRequested] per iteration, [handled]
    and the response per request.  [awaiting] holds, for each call of
    the [ctx.done] wrapper that has not resumed from its [await] yet,
    what the original [done] threw, if anything. *)
Record Attempt : Type := mkAttempt {
  settled : bool;
  handled : bool;
  nextRequested : bool;
  promise : Settlement;
  awaiting : list (option Value);
  res : Response
}.

(** [resolve()] and [reject(err)] settle the promise once. *)
Definition resolve (a : Attempt) : Attempt :=
  match promise a with
  | Unsettled => mkAttempt (settled a) (handled a) (nextRequested a)
                           Resolved (awaiting a) (res a)
  | _ => a
  end.

Definition reject (e : Value) (a : Attempt) : Attempt :=
  match promise a with
  | Unsettled => mkAttempt (settled a) (handled a) (nextRequested a)
                           (Rejected e) (awaiting a) (res a)
  | _ => a
  end.

Definition setSettled (a : Attempt) : Attempt :=
  mkAttempt true (handled a) (nextRequested a) (promise a) (awaiting a)
            (res a).

Definition setHandled (a : Attempt) : Attempt :=
  mkAttempt (settled a) true (nextRequested a) (promise a) (awaiting a)
            (res a).

(** [onResponseDone] *)
Definition onResponseDone (a : Attempt) : Attempt :=
  if settled a then a else resolve (setHandled (setSettled a)).

(** The wrapper installed as [ctx.done], up to its [await]: the original
    [done] runs at once on the response, and returns or throws. *)
Definition ctxDoneCall (err : Value) (payload : Context.Payload)
    (a : Attempt) : Attempt :=
  if settled a then a
  else
    let '(res1, thrown) := Context.doneOnResponse err payload (res a) in
    mkAttempt (settled a) (handled a) (nextRequested a) (promise a)
              (awaiting a ++ [thrown])%list res1.

(** The wrapper after its [await]: the [try] goes on when [done]
    returned, the [catch] runs when it threw. *)
Definition ctxDoneResume (a : Attempt) : Attempt :=
  match awaiting a with
  | [] => a
  | thrown :: rest =>
      let a1 := mkAttempt (settled a) (handled a) (nextRequested a)
                          (promise a) rest (res a) in
      match thrown with
      | None => resolve (setSettled (setHandled a1))
      | Some e => reject e (setSettled a1)
      end
  end.

(** [next(err)] *)
Definition next (err : Value) (a : Attempt) : Attempt :=
  if settled a then a
  else
    let a1 := setSettled
                (mkAttempt (settled a) (handled a) true (promise a)
                           (awaiting a) (res a)) in
    if truthy err then reject err a1 else resolve a1.

(** The three continuations of [invokeHandler]. *)
Definition handlerResolved (a : Attempt) : Attempt :=
  if settled a then a else resolve (setSettled a).

Definition handlerFailed (e : Value) (a : Attempt) : Attempt :=
  if settled a then a else reject e (setSettled a).

Definition step (ev : Event) (a : Attempt) : Attempt :=
  match ev with
  | CallDone err payload => ctxDoneCall err payload a
  | DoneResumes => ctxDoneResume a
  | CallNext err => next err a
  | HandlerThrows e => handlerFailed e a
  | HandlerResolves => handlerResolved a
  | HandlerRejects e => handlerFailed e a
  | ResponseDone => onResponseDone a
  end.

(** The events of a candidate up to the moment its promise settles, when
    the awaiting loop goes on. *)
Fixpoint runEvents (evs : list Event) (a : Attempt) : Attempt :=
  match promise a with
  | Unsettled =>
      match evs with
      | [] => a
      | ev :: evs' => runEvents evs' (step ev a)
      end
  | _ => a
  end.

(** The start of an iteration: a new promise, [nextRequested = false]. *)
Definition newAttempt (handled : bool) (res : Response) : Attempt :=
  mkAttempt false handled false Unsettled [] res.

(** The log of a call of [route]. *)
Record Log : Type := mkLog {
  tried : list (Resource * Settlement);
    (** the candidates whose handler was invoked, in order, each with
        the way its promise settled *)
  responded : list (Value * Z)
    (** each call of an error responder: the error handed over and
        [res.statusCode] at that moment *)
}.

Inductive LoopEnd : Type :=
| LoopDone (handled : bool) (res : Response)
| LoopThrew (e : Value) (res : Response)
| LoopPending (res : Response).
    (** a candidate's promise never settles: [route] stays suspended *)

(** The [for ... of matchingResources] loop. *)
Fixpoint routeLoop (handle : Resource → list Event)
    (candidates : list Resource) (handled : bool) (res : Response)
  : list (Resource * Settlement) * LoopEnd :=
  match candidates with
  | [] => ([], LoopDone handled res)
  | resource :: rest =>
      if handled || writableEnded res then ([], LoopDone handled res)
      else
        let a := runEvents (handle resource) (newAttempt handled res) in
        match promise a with
        | Unsettled => ([(resource, Unsettled)], LoopPending (Route.res a))
        | Rejected e =>
            ([(resource, Rejected e)], LoopThrew e (Route.res a))
        | Resolved =>
            if nextRequested a then
              let '(t, e) :=
                routeLoop handle rest (Route.handled a) (Route.res a) in
              ((resource, Resolved) :: t, e)
            else if Route.handled a || writableEnded (Route.res a)
                    || headersSent (Route.res a)
            then ([(resource, Resolved)],
                  LoopDone (Route.handled a) (Route.res a))
            else
              let '(t, e) :=
                routeLoop handle rest (Route.handled a) (Route.res a) in
              ((resource, Resolved) :: t, e)
        end
  end.

(** [String(err || 'Internal Server Error')] for a value that is not an
    [Error]. *)
Definition stringOf (err : Value) : string :=
  match err with
  | VString s => if String.eqb s "" then "Internal Server Error" else s
  | VNumber n => if n =? 0 then "Internal Server Error" else pretty n
  | VUndefined | VNull => "Internal Server Error"
  | VObject _ _ _ | VObjectCyclic _ _ _ => "[object Object]"
  | VError name message _ | VErrorCyclic name message _ =>
      name +:+ ": " +:+ message
  end.

(** The value the [catch] clause hands to the responder. *)
Definition wrapThrown (err : Value) : Value :=
  if instanceofError err then err
  else VObject (Some (stringOf err)) None (Some 500).

(** The [catch] clause of [route]. *)
Definition routeCatch (err : Value) (res : Response)
  : (Value * Z) * Response :=
  let wrapped := wrapThrown err in
  let res1 := setStatusCode (orNum (statusCodeOf wrapped) 500) res in
  ((wrapped, statusCode res1), respond wrapped res1).

Definition notFound : Value := VObject (Some "Resource not found") None None.

(** [handle404(req, res)] *)
Definition handle404 (res : Response) : (Value * Z) * Response :=
  let res1 := setStatusCode 404 res in
  ((notFound, statusCode res1), respond notFound res1).

Record Request : Type := mkRequest {
  reqUrl : string;
  routed : bool
}.

Record Routed : Type := mkRouted {
  request : Request;
  response : Response;
  router : State;
  log : Log;
  suspended : bool
}.

(** [route(req, res)].  [sessionError] is what [handleSessions] rejects
    with ([VUndefined] when it resolves). *)
Definition route (handle : Resource → list Event) (sessionError : Value)
    (req : Request) (res : Response) (st : State) : Routed :=
  if routed req then mkRouted req res st (mkLog [] []) false
  else
    let req1 := mkRequest (reqUrl req) true in
    if truthy sessionError then
      let '(call, res1) := routeCatch sessionError res in
      mkRouted req1 res1 st (mkLog [] [call]) false
    else
      match matchResources (reqUrl req1) st with
      | (Throw e, st1) =>
          let '(call, res1) := routeCatch e res in
          mkRouted req1 res1 st1 (mkLog [] [call]) false
      | (Ok matchingResources, st1) =>
          match routeLoop handle matchingResources false res with
          | (t, LoopPending res1) =>
              mkRouted req1 res1 st1 (mkLog t []) true
          | (t, LoopThrew e res1) =>
              let '(call, res2) := routeCatch e res1 in
              mkRouted req1 res2 st1 (mkLog t [call]) false
          | (t, LoopDone handled res1) =>
              if negb handled && negb (writableEnded res1)
                 && negb (headersSent res1)
              then
                let '(call, res2) := handle404 res1 in
                mkRouted req1 res2 st1 (mkLog t [call]) false
              else mkRouted req1 res1 st1 (mkLog t []) false
          end
      end.

(** *** The status at the hand-off, and sample requests *)

(** The status the [catch] clause of [route] puts on the response before
    it calls the responder: the [statusCode] of an [Error] instance, and
    500 for every other thrown value. *)
Definition handOffStatus (e : Value) : Z :=
  if instanceofError e then orNum (statusCodeOf e) 500 else 500.

Definition resourceA : Resource := mkResource "a" "/a".
Definition resourceAB : Resource := mkResource "ab" "/a/b".

(** A handler that defers at [/a/b], and one at [/a] that throws an
    [Error] with status 403. *)
Definition forbidden : Value := VError "Error" "forbidden" (Some 403).

Definition handlers (r : Resource) : list Event :=
  if String.eqb (name r) "ab" then [CallNext VUndefined]
  else [HandlerThrows forbidden].

(** A plain object that carries a status code, thrown by a handler. *)
Definition plain403 : Value := VObject (Some "nope") None (Some 403).

End Route.
(** ** Session registry ([lib/session.js]) *)

(** A JavaScript object used as a map from strings: the keys keep their
    insertion order (none of the keys used here is an array index). *)
Module Obj.

Definition t (V : Type) : Type := list (string * V).

Section Ops.
Context {V : Type}.

Fixpoint get (k : string) (o : t V) : option V :=
  match o with
  | [] => None
  | (k', v) :: o' => if String.eqb k' k then Some v else get k o'
  end.

(** [o[k] = v] *)
Fixpoint set (k : string) (v : V) (o : t V) : t V :=
  match o with
  | [] => [(k, v)]
  | (k', v') :: o' =>
      if String.eqb k' k then (k, v) :: o' else (k', v') :: set k v o'
  end.

(** [delete o[k]] *)
Fixpoint delete (k : string) (o : t V) : t V :=
  match o with
  | [] => []
  | (k', v') :: o' =>
      if String.eqb k' k then o' else (k', v') :: delete k o'
  end.

(** [Object.keys(o)] *)
Definition keys (o : t V) : list string := map fst o.
End Ops.

End Obj.

Module Session.
Import Js.

(** The [id] property of session data, as [typeof] sees it. *)
Inductive IdVal : Type :=
| IdUndefined
| IdNull
| IdNumber (n : Z)
| IdString (s : string).

Definition typeofString (v : IdVal) : bool :=
  match v with IdString _ => true | _ => false end.

Definition idTruthy (v : IdVal) : bool :=
  match v with
  | IdString s => negb (String.eqb s "")
  | IdNumber n => negb (n =? 0)
  | _ => false
  end.

(** The property key a value turns into. *)
Definition keyOf (v : IdVal) : string :=
  match v with
  | IdUndefined => "undefined"
  | IdNull => "null"
  | IdNumber n => pretty n
  | IdString s => s
  end.

(** [session.data] *)
Record Data : Type := mkData {
  id : IdVal;
  anonymous : bool;
  lastActive : option Z;
  createdOn : option Z;
  uid : option string;
  rooms : list string
}.

Definition withLastActive (t : option Z) (d : Data) : Data :=
  mkData (id d) (anonymous d) t (createdOn d) (uid d) (rooms d).

Definition withId (i : IdVal) (d : Data) : Data :=
  mkData i (anonymous d) (lastActive d) (createdOn d) (uid d) (rooms d).

(** [delete data.anonymous] *)
Definition withoutAnonymous (d : Data) : Data :=
  mkData (id d) false (lastActive d) (createdOn d) (uid d) (rooms d).

(** A [Session] object: its data and its [sid] property. *)
Record Session : Type := mkSession {
  data : Data;
  sid : IdVal
}.

(** Calls made on the persistent store. *)
Inductive DbOp : Type :=
| DbFind (sid : string)
| DbInsert (d : Data)
| DbUpdate (sid : string) (d : Data)
| DbRemoveStale (before : Z).

Definition isWrite (op : DbOp) : bool :=
  match op with DbInsert _ | DbUpdate _ _ => true | _ => false end.

(** What the store calls back with.  [find] of [lib/db.js] answers with
    [callback(err)] from its [catch] or with an array of documents,
    [callback(null, docs)]; a store that overrides it may answer with one
    document or with nothing, which is what the callback in
    [createSession] tests for. *)
Inductive FindAnswer : Type :=
| FindError (e : Value)
| FindNothing
| FindDoc (s : Data)
| FindDocs (docs : list Data).

(** [insert] and [update] answer with [callback(err)], or with
    [callback(null, result)]; for [insert] of [lib/db.js] the result is
    an object that holds the id only. *)
Inductive WriteAnswer : Type :=
| WriteError (e : Value)
| WriteOk (stored : Data).

Record Options : Type := mkOptions {
  maxAge : Z;
  maxSessions : Z;
  cleanupInterval : Z;
  sessionTimeout : Z
}.

(** The module-level indices, the store instance and the objects they
    refer to.  Sessions are heap objects: both indices and the callers
    hold references to them. *)
Record Store : Type := mkStore {
  heap : gmap nat Session;
  nextAddr : nat;
  sessionIndex : Obj.t nat;
  userSessionIndex : Obj.t (Obj.t nat);
  socketIndex : gmap string (list string);
  sessionCount : Z;
  lastRun : Num;
  options : Options;
  dbLog : list DbOp;
  sweeps : nat
}.

(** The defaults of the constructor. *)
Definition defaultOptions (maxAge maxSessions cleanupInterval
    sessionTimeout : option Z) : Options :=
  mkOptions (orNum maxAge (30 * 24 * 60 * 60 * 1000))
            (orNum maxSessions 10000)
            (orNum cleanupInterval 30000)
            (orNum sessionTimeout (5 * 60 * 1000)).

(** A store in a process that has just loaded the module: empty indices,
    and [cleanupInactiveSessions.lastRun] was never assigned. *)
Definition newStore (o : Options) : Store :=
  mkStore ∅ 0 [] [] ∅ 0 NUndefined o [] 0.

Definition setHeap (h : gmap nat Session) (st : Store) : Store :=
  mkStore h (nextAddr st) (sessionIndex st) (userSessionIndex st)
          (socketIndex st) (sessionCount st) (lastRun st) (options st)
          (dbLog st) (sweeps st).

Definition setSessionIndex (i : Obj.t nat) (st : Store) : Store :=
  mkStore (heap st) (nextAddr st) i (userSessionIndex st)
          (socketIndex st) (sessionCount st) (lastRun st) (options st)
          (dbLog st) (sweeps st).

Definition setUserSessionIndex (u : Obj.t (Obj.t nat)) (st : Store)
  : Store :=
  mkStore (heap st) (nextAddr st) (sessionIndex st) u
          (socketIndex st) (sessionCount st) (lastRun st) (options st)
          (dbLog st) (sweeps st).

Definition setSocketIndex (s : gmap string (list string)) (st : Store)
  : Store :=
  mkStore (heap st) (nextAddr st) (sessionIndex st) (userSessionIndex st)
          s (sessionCount st) (lastRun st) (options st)
          (dbLog st) (sweeps st).

Definition setSessionCount (n : Z) (st : Store) : Store :=
  mkStore (heap st) (nextAddr st) (sessionIndex st) (userSessionIndex st)
          (socketIndex st) n (lastRun st) (options st)
          (dbLog st) (sweeps st).

Definition logDb (op : DbOp) (st : Store) : Store :=
  mkStore (heap st) (nextAddr st) (sessionIndex st) (userSessionIndex st)
          (socketIndex st) (sessionCount st) (lastRun st) (options st)
          (dbLog st ++ [op])%list (sweeps st).

(** [userSessionIndex[uid] = userSessionIndex[uid] || {};
     userSessionIndex[uid][key] = session] *)
Definition indexUser (uid key : string) (addr : nat) (st : Store) : Store :=
  let sessions := default [] (Obj.get uid (userSessionIndex st)) in
  setUserSessionIndex
    (Obj.set uid (Obj.set key addr sessions) (userSessionIndex st)) st.

(** [new Session(data, store, socketIndex, sockets)] at time [now]. *)
Definition newSession (now : Z) (d : Data) (st : Store) : nat * Store :=
  let truthyTime (t : option Z) := truthyNum t in
  let d1 := mkData (id d) (anonymous d)
              (if truthyTime (lastActive d) then lastActive d else Some now)
              (if truthyTime (createdOn d) then createdOn d else Some now)
              (uid d) (rooms d) in
  let s := mkSession d1 (if idTruthy (id d) then id d else IdUndefined) in
  let addr := nextAddr st in
  (addr,
   mkStore (<[addr := s]> (heap st)) (S addr) (sessionIndex st)
           (userSessionIndex st) (socketIndex st) (sessionCount st)
           (lastRun st) (options st) (dbLog st) (sweeps st)).

Definition anonymousData : Data :=
  mkData IdUndefined true None None None [].

(** The properties the code reads on an array of documents: none of
    them is there. *)
Definition arrayData : Data :=
  mkData IdUndefined false None None None [].

(** *** [Session.prototype.save] *)

(** The success branch shared by the two store callbacks: [this.data],
    both indices and [this.sid]. *)
Definition stored (addr : nat) (sid : string) (d : Data) (st : Store)
  : Store :=
  let st1 := setHeap (<[addr := mkSession d (id d)]> (heap st)) st in
  let st2 := setSessionIndex (Obj.set sid addr (sessionIndex st1)) st1 in
  match uid d with
  | Some u => if String.eqb u "" then st2
              else indexUser u (keyOf (id d)) addr st2
  | None => st2
  end.

(** The callback of [insert] when it is called with a falsy error and
    no result: [this.data = res] leaves the session without data,
    [sessionIndex[sid] = this] indexes it, and reading [res.uid] then
    throws, so [fn] is not called.  A session without data is one the
    heap does not hold: whatever reads its data later finds nothing. *)
Definition storedNothing (addr : nat) (sid : string) (st : Store) : Store :=
  let st1 := setHeap (delete addr (heap st)) st in
  setSessionIndex (Obj.set sid addr (sessionIndex st1)) st1.

(** [save(fn)] on the session at [addr].  [freshId] is what
    [createUniqueIdentifier()] returns and [answer] what the store calls
    back with; both callbacks test [if (!err)].  The result is the error
    argument [fn] is called with ([VNull] for none), or [None] when [fn]
    is not called. *)
Definition save (addr : nat) (freshId : string) (answer : WriteAnswer)
    (st : Store) : option Value * Store :=
  match heap st !! addr with
  | None => (None, st)
  | Some this =>
      let data := data this in
      let '(data, sid, anonymous) :=
        if anonymous data
        then (withId (IdString freshId) (withoutAnonymous data),
              IdString freshId, true)
        else (data, id data, false) in
      if negb (typeofString (id data))
      then (Some (VString "Invalid session ID"), st)
      else if anonymous then
        let st1 := logDb (DbInsert data) st in
        match answer with
        | WriteError e =>
            if truthy e then (Some e, st1)
            else (None, storedNothing addr (keyOf sid) st1)
        | WriteOk res => (Some VNull, stored addr (keyOf sid) res st1)
        end
      else if idTruthy sid then
        let data1 := withId IdUndefined data in
        let st1 := logDb (DbUpdate (keyOf sid) data1) st in
        match answer with
        | WriteError e =>
            if truthy e then (Some e, st1)
            else (Some e, stored addr (keyOf sid) (withId sid data1) st1)
        | WriteOk _ =>
            (Some VNull, stored addr (keyOf sid) (withId sid data1) st1)
        end
      else (None, st)
  end.

(** *** Removal from memory and the sweep *)

(** [removeSessionFromMemory(sid)] *)
Definition removeSessionFromMemory (sid : string) (st : Store) : Store :=
  let st1 :=
    match Obj.get sid (sessionIndex st) with
    | Some _ =>
        setSessionCount (sessionCount st - 1)
          (setSessionIndex (Obj.delete sid (sessionIndex st)) st)
    | None => st
    end in
  let st2 :=
    setUserSessionIndex
      (map (λ '(u, sessions), (u, Obj.delete sid sessions))
           (userSessionIndex st1)) st1 in
  setSocketIndex (delete sid (socketIndex st2)) st2.

(** [_.isEmpty(this.socketIndex[sid])] *)
Definition noLiveSocket (sid : string) (st : Store) : bool :=
  match socketIndex st !! sid with
  | None => true
  | Some [] => true
  | Some (_ :: _) => false
  end.

(** [session.data.lastActive] of the session indexed at [addr]. *)
Definition lastActiveAt (addr : nat) (st : Store) : option Z :=
  match heap st !! addr with
  | Some s => lastActive (data s)
  | None => None
  end.

(** [a < b] where [a] may be [undefined]. *)
Definition ltTime (a : option Z) (b : Z) : bool :=
  match a with Some x => x <? b | None => false end.

(** The first loop of the sweep: the sessions that are idle and have no
    live socket. *)
Definition idleSessions (now : Z) (st : Store) : list string :=
  let timeoutThreshold := now - sessionTimeout (options st) in
  map fst
    (filter (λ '(sid, addr),
               ltTime (lastActiveAt addr st) timeoutThreshold
               && noLiveSocket sid st = true)
            (sessionIndex st)).

(** [(a, b) => a.lastActive - b.lastActive]; a [NaN] counts as 0. *)
Definition byLastActive (a b : string * option Z) : Z :=
  match a.2, b.2 with
  | Some x, Some y => x - y
  | _, _ => 0
  end.

(** The sessions evicted because the count exceeds [maxSessions]. *)
Definition oldestSessions (st : Store) : list string :=
  if maxSessions (options st) <? sessionCount st then
    let sessionsToRemove := sessionCount st - maxSessions (options st) in
    map fst
      (take (Z.to_nat sessionsToRemove)
         (arraySort byLastActive
            (map (λ '(sid, addr), (sid, lastActiveAt addr st))
                 (sessionIndex st))))
  else [].

(** [cleanupInactiveSessions()] at time [now]. *)
Definition cleanupInactiveSessions (now : Z) (st : Store) : Store :=
  let inactiveSessions := (idleSessions now st ++ oldestSessions st)%list in
  let st1 := foldl (λ s sid, removeSessionFromMemory sid s) st
                   inactiveSessions in
  let st2 := setSessionCount (Z.of_nat (length (Obj.keys (sessionIndex st1))))
                             st1 in
  let st3 := logDb (DbRemoveStale (now - maxAge (options st2))) st2 in
  mkStore (heap st3) (nextAddr st3) (sessionIndex st3)
          (userSessionIndex st3) (socketIndex st3) (sessionCount st3)
          (NInt now) (options st3) (dbLog st3) (S (sweeps st3)).

(** *** [SessionStore.prototype.createSession] *)

(** One call: the argument, the clock, and what the store answers if it
    is asked. *)
Record Call : Type := mkCall {
  sidArg : option string;
  clock : Z;
  found : FindAnswer;
  foundAt : Z;
  written : WriteAnswer;
  freshId : string
}.

(** What [fn] is called with. *)
Record Callback : Type := mkCallback {
  cbError : Value;
  cbSession : option nat
}.

Definition needsTouch (now : Z) (d : Data) : bool :=
  negb (anonymous d)
  && (negb (truthyNum (lastActive d))
      || ltTime (lastActive d) (now - 10 * 1000)).

Definition touchData (now : Z) (addr : nat) (st : Store) : Store :=
  match heap st !! addr with
  | Some s =>
      setHeap (<[addr := mkSession (withLastActive (Some now) (data s))
                                   (sid s)]> (heap st)) st
  | None => st
  end.

(** The fast path; [None] when the cache does not answer. *)
Definition fastPath (c : Call) (sid : string) (st : Store)
  : option (option Callback * Store) :=
  match Obj.get sid (sessionIndex st) with
  | None => None
  | Some addr =>
      match heap st !! addr with
      | None => None
      | Some cached =>
          match lastActive (data cached) with
          | None => None
          | Some la =>
              if clock c - maxAge (options st) <=? la then
                if needsTouch (clock c) (data cached) then
                  let st1 := touchData (clock c) addr st in
                  let '(called, st2) :=
                    save addr (freshId c) (written c) st1 in
                  Some (match called with
                        | Some _ => Some (mkCallback VNull (Some addr))
                        | None => None
                        end, st2)
                else Some (Some (mkCallback VNull (Some addr)), st)
              else None
          end
      end
  end.

(** The callback of [this.find({ id: sid }, ...)], in its steps.  First
    what was found is kept, or replaced by an anonymous document (and
    [sid] by [null]) when nothing was found or what was found is too
    old.  An array is truthy and has no [lastActive], so it is kept
    whatever it holds. *)
Definition chooseFound (now : Z) (answer : FindAnswer) (sid : string)
    (st : Store) : Data * option string :=
  match answer with
  | FindDoc s =>
      if ltTime (lastActive s) (now - maxAge (options st))
      then (anonymousData, None) else (s, Some sid)
  | FindDocs _ => (arrayData, Some sid)
  | _ => (anonymousData, None)
  end.

(** The property key [sid] stands for ([null] reads the key "null"). *)
Definition keyOfSid (sid : option string) : string :=
  match sid with Some k => k | None => "null" end.

(** [sessionIndex[sid] || new Session(s, ...)] *)
Definition sessionFor (now : Z) (s : Data) (sid : option string)
    (st : Store) : nat * Store :=
  match Obj.get (keyOfSid sid) (sessionIndex st) with
  | Some addr => (addr, st)
  | None => newSession now s st
  end.

(** [if (sid && !sessionIndex[sid]) { ... }] *)
Definition indexFound (sid : option string) (addr : nat) (st : Store)
  : Store :=
  match sid, Obj.get (keyOfSid sid) (sessionIndex st) with
  | Some k, None =>
      setSessionCount (sessionCount st + 1)
        (setSessionIndex (Obj.set k addr (sessionIndex st)) st)
  | _, _ => st
  end.

(** [if (s && s.uid) { ... }] *)
Definition indexFoundUser (s : Data) (addr : nat) (st : Store) : Store :=
  match uid s, heap st !! addr with
  | Some u, Some sess =>
      if String.eqb u "" then st
      else indexUser u (keyOf (id (data sess))) addr st
  | _, _ => st
  end.

(** The last step: refresh [lastActive] and save, or call back at once. *)
Definition touchFound (now : Z) (c : Call) (addr : nat) (st : Store)
  : option Callback * Store :=
  match heap st !! addr with
  | None => (None, st)
  | Some sess =>
      if needsTouch now (data sess) then
        let st1 := touchData now addr st in
        let '(called, st2) := save addr (freshId c) (written c) st1 in
        (match called with
         | Some err => Some (mkCallback err (Some addr))
         | None => None
         end, st2)
      else (Some (mkCallback VNull (Some addr)), st)
  end.

(** The steps after [if (err) return fn(err)]. *)
Definition foundSteps (c : Call) (answer : FindAnswer) (sid : string)
    (st : Store) : option Callback * Store :=
  let now := foundAt c in
  let '(s, sid) := chooseFound now answer sid st in
  let '(addr, st1) := sessionFor now s sid st in
  let st2 := indexFound sid addr st1 in
  let st3 := indexFoundUser s addr st2 in
  touchFound now c addr st3.

Definition onFound (c : Call) (sid : string) (st : Store)
  : option Callback * Store :=
  match found c with
  | FindError e =>
      if truthy e then (Some (mkCallback e None), st)
      else foundSteps c (FindError e) sid st
  | answer => foundSteps c answer sid st
  end.

(** The test that guards the sweep at the end of [createSession]. *)
Definition sweepDue (now : Z) (st : Store) : bool :=
  lt (lastRun st) (now - 60 * 1000).

(** The sweep on the next tick, when the test scheduled it. *)
Definition nextTick (due : bool) (now : Z) (st : Store) : Store :=
  if due then cleanupInactiveSessions now st else st.

Definition createSession (c : Call) (st : Store)
  : option Callback * Store :=
  match sidArg c with
  | Some sid =>
      if String.eqb sid "" then
        let '(addr, st1) := newSession (clock c) anonymousData st in
        (Some (mkCallback VNull (Some addr)),
         nextTick (sweepDue (clock c) st1) (clock c) st1)
      else
        match fastPath c sid st with
        | Some r => r
        | None =>
            let st1 := logDb (DbFind sid) st in
            let st2 := nextTick (sweepDue (clock c) st1) (clock c) st1 in
            onFound c sid st2
        end
  | None =>
      let '(addr, st1) := newSession (clock c) anonymousData st in
      (Some (mkCallback VNull (Some addr)),
       nextTick (sweepDue (clock c) st1) (clock c) st1)
  end.

(** A sequence of calls. *)
Fixpoint createSessions (cs : list Call) (st : Store) : Store :=
  match cs with
  | [] => st
  | c :: cs' => createSessions cs' (createSession c st).2
  end.

(** The store writes a call issues. *)
Definition writesBetween (before after : Store) : list DbOp :=
  filter (λ op, isWrite op = true)
         (drop (length (dbLog before)) (dbLog after)).

(** *** Predicates of the proofs, and sample stores *)

(** A session that [find] returned as an array-like value without [id]:
    not anonymous, [id] undefined. *)
Definition noId : Data := mkData IdUndefined false (Some 5) (Some 5) None [].

Definition storeWithNoId : Store :=
  mkStore {[ 0%nat := mkSession noId IdUndefined ]} 1 [("s1", 0%nat)] []
          ∅ 1 NUndefined (defaultOptions None None None None) [] 0.

(** The session cached under [sid] is the object at [addr]; it is not
    anonymous, its id is the string [sid] and it was last active at
    [la]. *)
Definition Cached (sid : string) (addr : nat) (la : Z) (st : Store)
  : Prop :=
  Obj.get sid (sessionIndex st) = Some addr
  ∧ ∃ sess, heap st !! addr = Some sess
            ∧ anonymous (data sess) = false
            ∧ id (data sess) = IdString sid
            ∧ lastActive (data sess) = Some la.

(** A session last active at time 1000, resolved at 20000 and 25000. *)
Definition touchStore : Store :=
  mkStore {[ 0%nat := mkSession
               (mkData (IdString "s1") false (Some 1000) (Some 1000)
                       None []) (IdString "s1") ]}
          1 [("s1", 0%nat)] [] ∅ 1 NUndefined
          (defaultOptions None None None None) [] 0.

Definition resolveAt (t : Z) : Call :=
  mkCall (Some "s1") t
         (FindDocs [mkData (IdString "s1") false (Some 1000) (Some 1000)
                           None []])
         t (WriteOk anonymousData) "fresh".

(** The answers [find] of [lib/db.js] gives: an error from its [catch],
    or an array of documents. *)
Definition storeAnswer (answer : FindAnswer) : bool :=
  match answer with
  | FindError e => truthy e
  | FindDocs _ => true
  | _ => false
  end.

(** What every step of [createSession] other than the sweep preserves:
    the time of the last sweep, the number of sweeps run, and the keys of
    the session index. *)
Definition Kept (st st' : Store) : Prop :=
  lastRun st' = lastRun st
  ∧ sweeps st' = sweeps st
  ∧ ∀ sid, is_Some (Obj.get sid (sessionIndex st))
           → is_Some (Obj.get sid (sessionIndex st')).

Definition failingStore : Store :=
  mkStore {[ 0%nat := mkSession
               (mkData (IdString "s1") false (Some 1000) (Some 1000)
                       None []) (IdString "s1") ]}
          1 [("s1", 0%nat)] [] ∅ 1 NUndefined
          (defaultOptions None None None (Some 1000)) [] 0.

Definition laterCalls : list Call :=
  [mkCall None 1000000 FindNothing 1000000 (WriteError VNull) "a";
   mkCall (Some "other") 2000000 FindNothing 2000005 (WriteError VNull) "b";
   mkCall None 3000000 FindNothing 3000000 (WriteError VNull) "c"].

End Session.
(** ** Script sandbox ([lib/script.js]) *)

Module Script.
Import Js.

(** *** Hook programs *)

(** The source text of a hook, as the statements it parses to.  Only the
    statements that reach the sandbox are told apart; every other
    statement is a [Mark] that leaves its label in a trace when it
    executes. *)
Local Unset Elimination Schemes.
Inductive Stmt : Type :=
| Mark (label : string)
| Cancel (msg : Value) (status : option Z)
| CancelIf (condition : bool) (msg : Value) (status : option Z)
| CancelUnless (condition : bool) (msg : Value) (status : option Z)
| ThrowStmt (e : Value)
| CallDomain (fname : string) (callback : list Stmt).
    (** [fname(function () { callback })] *)
Local Set Elimination Schemes.

(** *** The class and its compilation cache *)

(** What [new Function(...functionArgs, source)] returns; [fnId] tells
    one function object from another. *)
Record Callable : Type := mkCallable {
  fnId : nat;
  params : list string;
  body : list Stmt
}.

(** A [Script] instance.  [getFunction] is [_.memoize(_createFunction)]:
    lodash keys its cache by the first argument, here the array
    [functionArgs], and an object key is looked up by identity.  Arrays
    are therefore named by the address they were allocated at. *)
Record Script : Type := mkScript {
  scriptSourceCode : list Stmt;
  error : Value;
  cache : gmap nat Callable;
  nextRef : nat;
  compiled : nat
}.

(** [new Script(src, filePath)] *)
Definition newScript (src : list Stmt) : Script :=
  mkScript src VUndefined ∅ 0 0.

(** The properties a [Script] instance has, own or inherited from the
    class. *)
Definition members : list string :=
  ["scriptSourceCode"; "filePath"; "getFunction"; "_createFunction";
   "runWithContext"; "run"; "_setupDomainHandlers"; "_cancel";
   "_cancelIf"; "_cancelUnless"; "_isMe"; "_emit"; "_wrapError";
   "_isPromise"; "_wrapPromise"; "_wrapAsyncFunction";
   "_wrapAsyncFunctions"].

Definition hasMember (name : string) : bool :=
  existsb (String.eqb name) members.

(** [_createFunction(functionArgs)] *)
Definition createFunction (functionArgs : list string) (s : Script)
  : Callable * Script :=
  (mkCallable (compiled s) functionArgs (scriptSourceCode s),
   mkScript (scriptSourceCode s) (error s) (cache s) (nextRef s)
            (S (compiled s))).

(** [this.getFunction(functionArgs)], the memoized function, on the
    array at address [ref]. *)
Definition getFunction (ref : nat) (functionArgs : list string)
    (s : Script) : Callable * Script :=
  match cache s !! ref with
  | Some f => (f, s)
  | None =>
      let '(f, s1) := createFunction functionArgs s in
      (f, mkScript (scriptSourceCode s1) (error s1)
                   (<[ref := f]> (cache s1)) (nextRef s1) (compiled s1))
  end.

(** The first two lines of [runWithContext(context)]:
    [Object.keys(context).filter(...)] allocates a new array, which is
    then the argument of [getFunction]. *)
Definition compileFor (contextKeys : list string) (s : Script)
  : Callable * Script :=
  let functionArgs :=
    filter (λ key, String.eqb key "this" = false) contextKeys in
  let ref := nextRef s in
  getFunction ref functionArgs
    (mkScript (scriptSourceCode s) (error s) (cache s) (S ref)
              (compiled s)).

(** The callables that a sequence of runs obtains. *)
Fixpoint compileAll (contexts : list (list string)) (s : Script)
  : list Callable * Script :=
  match contexts with
  | [] => ([], s)
  | keys :: rest =>
      let '(f, s1) := compileFor keys s in
      let '(fs, s2) := compileAll rest s1 in
      (f :: fs, s2)
  end.

(** *** One run *)

(** How a domain function behaves when it is called with a callback. *)
Inductive DomainFn : Type :=
| AsyncFn
    (** it starts an operation that calls the callback back later *)
| FailingFn (e : Value).
    (** it throws *)

Definition Domain : Type := list (string * DomainFn).

(** The global scope a module function resolves a free identifier in:
    only the binding of [fn] matters, and Node defines none. *)
Record Globals : Type := mkGlobals { globalFn : option Value }.

Definition nodeGlobals : Globals := mkGlobals None.

(** An operation that was dispatched and has not called back yet. *)
Record Operation : Type := mkOperation {
  opId : nat;
  opWrapped : bool;
  opCallback : list Stmt
}.

(** The variables of one call of [run]: its three locals, the
    properties of [scriptContext] that the handlers use, the listeners of
    the emitter, what the sandbox exposes, and what can be observed from
    outside (the calls of [fn], the statements executed). *)
Record Run : Type := mkRun {
  waitingForCallback : bool;
  callbackCount : Z;
  isDone : bool;
  ctxWaitingForCallback : bool;
  ctxCallbackCount : Num;
  ctxError : Value;
  addListener : bool;
  finishListener : bool;
  exposed : list (string * (bool * DomainFn));
  outstanding : list Operation;
  nextOp : nat;
  onDone : list Value;
  trace : list string
}.

Definition newRun : Run :=
  mkRun false 0 false false NUndefined VUndefined false false [] [] 0 [] [].

Definition setCtxError (e : Value) (r : Run) : Run :=
  mkRun (waitingForCallback r) (callbackCount r) (isDone r)
        (ctxWaitingForCallback r) (ctxCallbackCount r) e
        (addListener r) (finishListener r) (exposed r) (outstanding r)
        (nextOp r) (onDone r) (trace r).

(** [doneCallback(err)] *)
Definition doneCallback (err : Value) (r : Run) : Run :=
  if isDone r then r
  else mkRun (waitingForCallback r) (callbackCount r) true
             (ctxWaitingForCallback r) (ctxCallbackCount r) (ctxError r)
             (addListener r) false (exposed r) (outstanding r)
             (nextOp r) (onDone r ++ [err])%list (trace r).

(** [events.emit('addCallback')] *)
Definition emitAddCallback (r : Run) : Run :=
  if addListener r then
    mkRun (waitingForCallback r) (callbackCount r) (isDone r)
          true (incr (ctxCallbackCount r)) (ctxError r)
          (addListener r) (finishListener r) (exposed r) (outstanding r)
          (nextOp r) (onDone r) (trace r)
  else r.

(** [events.emit('finishCallback')] *)
Definition emitFinishCallback (r : Run) : Run :=
  if finishListener r then
    let r1 :=
      mkRun (waitingForCallback r) (callbackCount r) (isDone r)
            (ctxWaitingForCallback r) (decr (ctxCallbackCount r))
            (ctxError r) (addListener r) (finishListener r) (exposed r)
            (outstanding r) (nextOp r) (onDone r) (trace r) in
    if le0 (ctxCallbackCount r1) then doneCallback (ctxError r1) r1
    else r1
  else r.

(** The error [_cancel(msg, status)] builds: [msg] itself when it is an
    [Error], otherwise a plain object with a [statusCode] (the message is
    kept when it is a string). *)
Definition cancelError (msg : Value) (status : option Z) : Value :=
  match msg with
  | VError _ _ _ | VErrorCyclic _ _ _ => msg
  | VObject (Some m) st sc =>
      if negb (String.eqb m "") && (truthyNum st || truthyNum sc)
      then VObject (Some m) None (if truthyNum st then st else sc)
      else VObject None None status
  | VObjectCyclic (Some m) st sc =>
      if negb (String.eqb m "") && (truthyNum st || truthyNum sc)
      then VObject (Some m) None (if truthyNum st then st else sc)
      else VObjectCyclic None None status
  | VObjectCyclic None _ _ => VObjectCyclic None None status
  | VString s => VObject (Some s) None status
  | _ => VObject None None status
  end.

(** [_cancel(msg, status)]: it calls [this.done(err)] before it throws
    [err]; [this] is the [Script] instance, and calling a property that
    is not there is a TypeError. *)
Definition cancel (msg : Value) (status : option Z) : Value :=
  let err := cancelError msg status in
  if hasMember "done" then err
  else VError "TypeError" "this.done is not a function" None.

Definition addOperation (wrapped : bool) (callback : list Stmt) (r : Run)
  : Run :=
  mkRun (waitingForCallback r) (callbackCount r) (isDone r)
        (ctxWaitingForCallback r) (ctxCallbackCount r) (ctxError r)
        (addListener r) (finishListener r) (exposed r)
        (outstanding r ++ [mkOperation (nextOp r) wrapped callback])%list
        (S (nextOp r)) (onDone r) (trace r).

Definition addMark (label : string) (r : Run) : Run :=
  mkRun (waitingForCallback r) (callbackCount r) (isDone r)
        (ctxWaitingForCallback r) (ctxCallbackCount r) (ctxError r)
        (addListener r) (finishListener r) (exposed r) (outstanding r)
        (nextOp r) (onDone r) (trace r ++ [label])%list.

(** A call of the function that [_wrapAsyncFunction] returns, with one
    callback argument. *)
Definition callWrapped (f : DomainFn) (callback : list Stmt) (r : Run)
  : Run :=
  if truthy (ctxError r) then r
  else
    let r1 := emitAddCallback r in
    match f with
    | AsyncFn => addOperation true callback r1
    | FailingFn e => doneCallback e (setCtxError e r1)
    end.

(** A call of a domain function that was copied into the sandbox as it
    is. *)
Definition callUnwrapped (f : DomainFn) (callback : list Stmt) (r : Run)
  : option Value * Run :=
  match f with
  | AsyncFn => (None, addOperation false callback r)
  | FailingFn e => (Some e, r)
  end.

Definition lookupExposed (fname : string) (r : Run)
  : option (bool * DomainFn) :=
  snd <$> find (λ entry, String.eqb (fst entry) fname) (exposed r).

(** The statements of a function body in order, up to the first one
    that throws.  [CallDomain] names a function that the domain brought;
    a name the sandbox does not bind is a ReferenceError. *)
Fixpoint exec (stmts : list Stmt) (r : Run) : option Value * Run :=
  match stmts with
  | [] => (None, r)
  | stmt :: rest =>
      match stmt with
      | Mark label => exec rest (addMark label r)
      | Cancel msg status => (Some (cancel msg status), r)
      | CancelIf condition msg status =>
          if condition then (Some (cancel msg status), r)
          else exec rest r
      | CancelUnless condition msg status =>
          if negb condition then (Some (cancel msg status), r)
          else exec rest r
      | ThrowStmt e => (Some e, r)
      | CallDomain fname callback =>
          match lookupExposed fname r with
          | None =>
              (Some (VError "ReferenceError"
                            (fname +:+ " is not defined") None), r)
          | Some (true, f) => exec rest (callWrapped f callback r)
          | Some (false, f) =>
              match callUnwrapped f callback r with
              | (Some e, r1) => (Some e, r1)
              | (None, r1) => exec rest r1
              end
          end
      end
  end.

(** [_setupDomainHandlers(domain, scriptContext, events, doneCallback)].
    Its test [if (fn)] reads an identifier that the method does not
    bind. *)
Definition setupDomainHandlers (g : Globals) (domain : Domain) (r : Run)
  : Result Value Run :=
  let r1 :=
    mkRun (waitingForCallback r) (callbackCount r) (isDone r)
          (ctxWaitingForCallback r) (ctxCallbackCount r) (ctxError r)
          true true (exposed r) (outstanding r) (nextOp r) (onDone r)
          (trace r) in
  match globalFn g with
  | None => Throw (VError "ReferenceError" "fn is not defined" None)
  | Some fn =>
      let wrapped := truthy fn in
      Ok (mkRun (waitingForCallback r1) (callbackCount r1) (isDone r1)
                (ctxWaitingForCallback r1) (ctxCallbackCount r1)
                (ctxError r1) (addListener r1) (finishListener r1)
                (map (λ '(k, f), (k, (wrapped, f))) domain)
                (outstanding r1) (nextOp r1) (onDone r1) (trace r1))
  end.

(** The keys of [scriptContext] when [run] builds it. *)
Definition contextKeys : list string :=
  ["cancel"; "cancelIf"; "cancelUnless"; "me"; "isMe"; "console";
   "require"; "query"; "internal"; "isRoot"; "emit"; "session"; "ctx";
   "_this"; "_error"].

(** The properties of [scriptContext] when the hook is compiled: with a
    domain, its keys (the three that [_setupDomainHandlers] adds to it
    included) and [this] have been assigned as well. *)
Definition scriptContext (domain : option Domain) : Obj.t unit :=
  let base := map (λ k, (k, tt)) contextKeys in
  match domain with
  | None => base
  | Some d =>
      foldl (λ o k, Obj.set k tt o) base
            (map fst d ++ ["$addCallback"; "$finishCallback"; "dpd";
                           "this"])%list
  end.

(** How a call of [run] leaves: the promise of the [async] function, the
    state, and the error that the callback given to [process.nextTick]
    closed over, when one was scheduled. *)
Record Ran : Type := mkRan {
  rejected : option Value;
  state : Run;
  scheduled : option Value;
  script : Script
}.

(** [run(ctx, domain, fn)] up to its return. *)
Definition run (g : Globals) (s : Script) (domain : option Domain)
  : Ran :=
  if truthy (error s) then
    mkRan None (doneCallback (error s) newRun) None s
  else
    match
      match domain with
      | Some d => setupDomainHandlers g d newRun
      | None => Ok newRun
      end
    with
    | Throw e => mkRan (Some e) newRun None s
    | Ok r1 =>
        let keys := Obj.keys (scriptContext domain) in
        let '(f, s1) := compileFor keys s in
        let '(thrown, r2) := exec (body f) r1 in
        let r3 :=
          match thrown with
          | Some e => setCtxError e r2
          | None => r2
          end in
        mkRan None r3 (Some (ctxError r3)) s1
    end.

(** The callback given to [process.nextTick], closed over [finalError]. *)
Definition nextTick (finalError : Value) (r : Run) : Run :=
  if negb (waitingForCallback r) && (callbackCount r <=? 0)
  then doneCallback finalError r else r.

(** The callback that [_wrapAsyncFunction] put in place of the hook's
    own. *)
Definition wrappedCallback (callback : list Stmt) (r : Run) : Run :=
  if truthy (ctxError r) then r
  else
    match exec callback r with
    | (None, r1) => emitFinishCallback r1
    | (Some err, r1) => doneCallback err (setCtxError err r1)
    end.

(** The operation [id] calls back. *)
Definition settle (id : nat) (r : Run) : Run :=
  match find (λ op, Nat.eqb (opId op) id) (outstanding r) with
  | None => r
  | Some op =>
      let r1 :=
        mkRun (waitingForCallback r) (callbackCount r) (isDone r)
              (ctxWaitingForCallback r) (ctxCallbackCount r) (ctxError r)
              (addListener r) (finishListener r) (exposed r)
              (filter (λ op', Nat.eqb (opId op') id = false)
                      (outstanding r))
              (nextOp r) (onDone r) (trace r) in
      if opWrapped op then wrappedCallback (opCallback op) r1
      else (exec (opCallback op) r1).2
  end.

(** A whole run: the synchronous part, the next tick, then the
    operations calling back in the given order. *)
Definition runToEnd (g : Globals) (s : Script) (domain : option Domain)
    (settlements : list nat) : Ran :=
  let ran := run g s domain in
  match scheduled ran with
  | None => ran
  | Some finalError =>
      mkRan (rejected ran)
            (foldl (λ r id, settle id r)
                   (nextTick finalError (state ran)) settlements)
            None (script ran)
  end.

(** *** Predicates of the proofs, and sample hooks *)

(** Every key of the cache is the address of an array allocated
    earlier. *)
Definition CacheBelow (s : Script) : Prop :=
  ∀ ref f, cache s !! ref = Some f → (ref < nextRef s)%nat.

Definition missingDone : Value :=
  VError "TypeError" "this.done is not a function" None.

(** What holds of the variables of a run at every moment: the two
    locals that the next-tick test reads are never assigned, and the
    completion callback was called once exactly when [isDone] is set. *)
Definition Good (r : Run) : Prop :=
  waitingForCallback r = false
  ∧ callbackCount r = 0
  ∧ length (onDone r) = (if isDone r then 1 else 0)%nat.

(** A step keeps [Good], and once the run is done it neither calls the
    completion callback again nor clears [isDone]. *)
Definition Steady (r r' : Run) : Prop :=
  Good r →
  Good r' ∧ (isDone r = true → isDone r' = true ∧ onDone r' = onDone r).

(** Two asynchronous domain functions, each called by the hook with a
    callback; the second callback throws. *)
Definition twoCalls : list Stmt :=
  [CallDomain "a" [Mark "a called back"];
   CallDomain "b" [ThrowStmt (VError "Error" "b failed" None)]].

Definition twoAsync : Domain := [("a", AsyncFn); ("b", AsyncFn)].

Definition withGlobalFn : Globals := mkGlobals (Some (VString "defined")).

End Script.
(** ** Further definitions used by the additional properties *)

Module RouterMore.
Import Js Router.

(** The number of [/] in a path. *)
Fixpoint countSlash (s : string) : nat :=
  match s with
  | EmptyString => 0
  | String c rest =>
      if Ascii.eqb c "/" then S (countSlash rest) else countSlash rest
  end.

Definition isThrow {E A : Type} (r : Result E A) : Prop :=
  match r with Throw _ => True | Ok _ => False end.

End RouterMore.

(** *** [doh.createHandler(options)] *)

Module Doh.
Import Js Http.

(** The closure state of one handler: its [finished] flag, whether
    [server] is an [EventEmitter], the [request:error] events emitted,
    how often a function given to [run] was called, the promises those
    calls returned that are still pending, and the response. *)
Record Handler : Type := mkHandler {
  hFinished : bool;
  hasEmitter : bool;
  emitted : list Value;
  invoked : nat;
  pending : nat;
  hRes : Response
}.

Definition createHandler (emitter : bool) (res : Response) : Handler :=
  mkHandler false emitter [] 0 0 res.

(** [handleError(err)] *)
Definition handleError (err : Value) (h : Handler) : Handler :=
  if negb (truthy err) || hFinished h then h
  else mkHandler true (hasEmitter h)
                 (if hasEmitter h then (emitted h ++ [err])%list
                  else emitted h)
                 (invoked h) (pending h) (respond err (hRes h)).

(** What [fn()] does. *)
Inductive FnResult : Type :=
| FnReturns
| FnThrows (e : Value)
| FnPromise.

(** [run(fn)]; [isFunction] is [typeof fn === 'function']. *)
Definition run (isFunction : bool) (result : FnResult) (h : Handler)
  : Handler :=
  if hFinished h || negb isFunction then h
  else
    let h1 := mkHandler (hFinished h) (hasEmitter h) (emitted h)
                        (S (invoked h)) (pending h) (hRes h) in
    match result with
    | FnReturns => h1
    | FnThrows e => handleError e h1
    | FnPromise =>
        mkHandler (hFinished h1) (hasEmitter h1) (emitted h1) (invoked h1)
                  (S (pending h1)) (hRes h1)
    end.

(** One of the pending promises settles. *)
Definition promiseSettles (rejection : option Value) (h : Handler)
  : Handler :=
  match pending h with
  | O => h
  | S n =>
      let h1 := mkHandler (hFinished h) (hasEmitter h) (emitted h)
                          (invoked h) n (hRes h) in
      match rejection with
      | Some e => handleError e h1
      | None => h1
      end
  end.

Inductive HandlerEvent : Type :=
| Run (isFunction : bool) (result : FnResult)
| PromiseSettles (rejection : option Value).

Definition handlerStep (h : Handler) (ev : HandlerEvent) : Handler :=
  match ev with
  | Run isFunction result => run isFunction result h
  | PromiseSettles rejection => promiseSettles rejection h
  end.

(** What holds of a handler made for [res] at every moment: before the
    first error nothing was emitted and the response is untouched; after
    it, that one error was emitted (when there is an emitter) and handed
    to the responder. *)
Definition Reported (emitter : bool) (res : Response) (h : Handler)
  : Prop :=
  hasEmitter h = emitter
  ∧ if hFinished h
    then ∃ err, truthy err = true ∧ hRes h = respond err res
                ∧ emitted h = if emitter then [err] else []
    else emitted h = [] ∧ hRes h = res.

(** The parts of a handler that can be observed from outside. *)
Definition sameOutcome (h h' : Handler) : Prop :=
  hFinished h' = hFinished h ∧ emitted h' = emitted h
  ∧ hRes h' = hRes h ∧ invoked h' = invoked h.

End Doh.

Module ContextMore.
Import Js Http Context.

(** What [done] hands to [res.end] for a payload. *)
Definition bodyOf (response : Payload) : Body :=
  match response with
  | PObject (Some json) => BText json
  | PObject None => BText internalErrorBody
  | PText s => BText s
  | PNumber n => if n =? 0 then BText "" else BOther
  | PBool b => if b then BOther else BText ""
  | PAbsent => BText ""
  end.

Definition isText (body : Body) : bool :=
  match body with BText _ => true | BOther => false end.

(** The chunk a body is written as. *)
Definition chunkOf (body : Body) : list Chunk :=
  match body with BText s => [ChunkText s] | BOther => [] end.

(** The status code [done] leaves on the response when it is given no
    error: the one it found, or 500 when the payload cannot be
    serialised. *)
Definition statusAfter (response : Payload) (res : Response) : Z :=
  match response with PObject None => 500 | _ => statusCode res end.

(** The status [done] reads before it looks at the error:
    [this.res.statusCode || 200]. *)
Definition statusBefore (res : Response) : Z :=
  if statusCode res =? 0 then 200 else statusCode res.

Definition sameBody (r r' : Response) : Prop :=
  placeholder r' = placeholder r ∧ finished r' = finished r
  ∧ headersSent r' = headersSent r ∧ statusCode r' = statusCode r
  ∧ written r' = written r.

End ContextMore.

Module SessionMore.
Import Js Session.

(** [SessionStore.prototype.getSession(uid, sid)]: the session object, or
    [null]. *)
Definition getSession (u sid : string) (st : Store) : option nat :=
  match Obj.get u (userSessionIndex st) with
  | Some sessions => Obj.get sid sessions
  | None => None
  end.

(** The [disconnect] handler of the client [clientId]:
    [_.each(self.socketIndex, (val) => { delete val[client.id]; })]. *)
Definition disconnect (clientId : string) (st : Store) : Store :=
  setSocketIndex (filter (λ c, c ≠ clientId) <$> socketIndex st) st.

(** *** Rooms *)

Definition withRooms (rs : list string) (d : Data) : Data :=
  mkData (id d) (anonymous d) (lastActive d) (createdOn d) (uid d) rs.

(** [if (!currentRooms.includes(room)) currentRooms.push(room)] *)
Definition joinRoom (currentRooms : list string) (room : string)
  : list string :=
  if bool_decide (room ∈ currentRooms) then currentRooms
  else (currentRooms ++ [room])%list.

(** [index = currentRooms.indexOf(room);
     if (index !== -1) currentRooms.splice(index, 1)] *)
Fixpoint leaveRoom (currentRooms : list string) (room : string)
  : list string :=
  match currentRooms with
  | [] => []
  | r :: rest =>
      if String.eqb r room then rest else r :: leaveRoom rest room
  end.

(** The [_.each] loop of [joinRooms] and of [leaveRooms] on the list in
    [data._rooms] of the session at [addr] (a single room is a list of
    one; the calls on the sockets are left out). *)
Definition updateRooms (each : list string → string → list string)
    (rooms : list string) (addr : nat) (st : Store) : Store :=
  match heap st !! addr with
  | Some s =>
      setHeap (<[addr := mkSession
                   (withRooms (foldl each (Session.rooms (data s)) rooms)
                              (data s)) (sid s)]> (heap st)) st
  | None => st
  end.

(** [joinRooms(rooms)] and [leaveRooms(rooms)]: the loop, then
    [saveRooms()], which saves the session. *)
Definition joinRooms (addr : nat) (rooms : list string) (freshId : string)
    (answer : WriteAnswer) (st : Store) : option Value * Store :=
  save addr freshId answer (updateRooms joinRoom rooms addr st).

Definition leaveRooms (addr : nat) (rooms : list string) (freshId : string)
    (answer : WriteAnswer) (st : Store) : option Value * Store :=
  save addr freshId answer (updateRooms leaveRoom rooms addr st).

(** The log of [st'] is the log of [st] followed by calls of which at
    most [n] are writes. *)
Definition Logged (n : nat) (st st' : Store) : Prop :=
  ∃ ops, dbLog st' = (dbLog st ++ ops)%list
         ∧ (length (filter (λ op, isWrite op = true) ops) ≤ n)%nat.

(** What the sweep and the steps before the store answers leave as it
    is: the session objects and the next address. *)
Definition sameObjects (st st' : Store) : Prop :=
  heap st' = heap st ∧ nextAddr st' = nextAddr st
  ∧ options st' = options st.


(** A store with two sessions of one user, the first bound to a
    socket. *)
Definition twoSessions : Store :=
  mkStore {[ 0%nat := mkSession
               (mkData (IdString "s1") false (Some 1000) (Some 1000)
                       (Some "u") []) (IdString "s1");
             1%nat := mkSession
               (mkData (IdString "s2") false (Some 2000) (Some 2000)
                       (Some "u") []) (IdString "s2") ]}
          2 [("s1", 0%nat); ("s2", 1%nat)]
          [("u", [("s1", 0%nat); ("s2", 1%nat)])]
          {[ "s1" := ["c1"] ]} 2 (NInt 0)
          (defaultOptions None None None None) [] 0.

End SessionMore.

Module ScriptMore.
Import Js Script.

(** What a statement throws when it is the first of a hook to throw and
    no domain function is involved. *)
Definition thrownBy (stmt : Stmt) : option Value :=
  match stmt with
  | ThrowStmt e => Some e
  | Cancel msg status => Some (cancel msg status)
  | CancelIf true msg status => Some (cancel msg status)
  | CancelUnless false msg status => Some (cancel msg status)
  | _ => None
  end.

Definition addMarks (labels : list string) (r : Run) : Run :=
  mkRun (waitingForCallback r) (callbackCount r) (isDone r)
        (ctxWaitingForCallback r) (ctxCallbackCount r) (ctxError r)
        (addListener r) (finishListener r) (exposed r) (outstanding r)
        (nextOp r) (onDone r) (trace r ++ labels)%list.

End ScriptMore.
(** * Properties *)

(** ** Router: matching, ordering and the URL cache *)

Module RouterFacts.
Import Js Router.

(** *** The stable sort *)

Section ArraySortFacts.
Context {A : Type} (key : A → Z).

Local Abbreviation cmp := (λ a b : A, key b - key a).

Lemma sortInsert_perm (x : A) (l : list A) :
  sortInsert cmp x l ≡ₚ x :: l.
Proof.
  induction l as [|y l IH]; simpl; [done|].
  destruct (key y - key x <=? 0); [done|].
  rewrite IH. apply Permutation_swap.
Qed.

Lemma arraySort_perm (l : list A) : arraySort cmp l ≡ₚ l.
Proof.
  induction l as [|x l IH]; simpl; [done|].
  by rewrite sortInsert_perm, IH.
Qed.

Lemma sortInsert_sorted (x : A) (l : list A) :
  StronglySorted (descending key) l →
  StronglySorted (descending key) (sortInsert cmp x l).
Proof.
  induction l as [|y l IH]; simpl; intros Hs.
  - repeat constructor.
  - apply StronglySorted_cons in Hs as [Hy Hl].
    destruct (Z.leb_spec (key y - key x) 0) as [Hle|Hgt].
    + apply StronglySorted_cons. split.
      * constructor; [unfold descending; lia|].
        eapply Forall_impl; [exact Hy|]. unfold descending. intros; lia.
      * by apply StronglySorted_cons.
    + apply StronglySorted_cons. split; [|by apply IH].
      rewrite sortInsert_perm. constructor; [unfold descending; lia|done].
Qed.

Lemma arraySort_sorted (l : list A) :
  StronglySorted (descending key) (arraySort cmp l).
Proof.
  induction l as [|x l IH]; simpl; [constructor|].
  by apply sortInsert_sorted.
Qed.

(** Elements of equal key keep their relative order. *)
Lemma sortInsert_stable (k : Z) (x : A) (l : list A) :
  filter (λ a, key a = k) (sortInsert cmp x l)
  = filter (λ a, key a = k) (x :: l).
Proof.
  induction l as [|y l IH]; simpl; [done|].
  destruct (Z.leb_spec (key y - key x) 0) as [Hle|Hgt]; [done|].
  rewrite (filter_cons _ y), IH, !filter_cons.
  repeat case_decide; try done; lia.
Qed.

Lemma arraySort_stable (k : Z) (l : list A) :
  filter (λ a, key a = k) (arraySort cmp l) = filter (λ a, key a = k) l.
Proof.
  induction l as [|x l IH]; simpl; [done|].
  rewrite sortInsert_stable, !filter_cons, IH. done.
Qed.
End ArraySortFacts.

(** *** The compiled pattern on paths without [*] *)

Lemma escape_class_not_star (c : ascii) :
  in_escape_class c = true → Ascii.eqb c "*" = false.
Proof.
  destruct (Ascii.eqb_spec c "*") as [->|]; [|done].
  vm_compute. discriminate.
Qed.

Lemma not_escape_class_not_backslash (c : ascii) :
  in_escape_class c = false → Ascii.eqb c "\" = false.
Proof.
  destruct (Ascii.eqb_spec c "\") as [->|]; [|done].
  vm_compute. discriminate.
Qed.

Lemma parseTerms_star_free (key : string) (prev : option ascii) :
  star_free key = true →
  parseTerms prev (escapePath key)
  = Some (flush prev ++ map literal (list_ascii_of_string key))%list.
Proof.
  revert prev. induction key as [|c key IH]; intros prev Hsf; simpl in *.
  - by rewrite app_nil_r.
  - apply andb_prop in Hsf as [Hc Hsf]. apply negb_true_iff in Hc.
    destruct (in_escape_class c) eqn:Hesc; simpl.
    + rewrite IH by done. simpl. done.
    + rewrite Hc, (not_escape_class_not_backslash c Hesc), IH by done.
      simpl. done.
Qed.

Lemma matchTerms_literal (base url : string) :
  matchTerms (map literal (list_ascii_of_string base)) url
  = specMatchb base url.
Proof.
  revert url. induction base as [|c base IH]; intros url; simpl; [done|].
  destruct url as [|d url]; [done|]. by rewrite IH.
Qed.

Lemma matchTail_continuation (rest : string) :
  matchTail rest = true ↔ rest = "" ∨ continuation rest.
Proof.
  destruct rest as [|c tail]; simpl.
  - split; [by left|done].
  - rewrite andb_true_iff, orb_true_iff. split.
    + intros [[Hc|Hc] Ht]; right; exists c, tail;
        apply Ascii.eqb_eq in Hc; subst; auto.
    + intros [?|(c' & tail' & Heq & Hc & Ht)]; [done|].
      injection Heq as -> ->.
      split; [|done]. destruct Hc as [->| ->]; auto.
Qed.

Lemma specMatchb_spec (base url : string) :
  specMatchb base url = true ↔ SpecMatches base url.
Proof.
  revert url. induction base as [|c base IH]; intros url; simpl.
  - rewrite matchTail_continuation. unfold SpecMatches. split.
    + intros [->|Hc]; [by left|]. right. by exists url.
    + intros [->|(rest & -> & Hc)]; [by left|by right].
  - destruct url as [|d url].
    + split; [done|]. intros [?|(rest & ? & _)]; done.
    + rewrite andb_true_iff, IH. unfold SpecMatches. split.
      * intros [Hcd [->|(rest & -> & Hc)]];
          apply Ascii.eqb_eq in Hcd; subst; [by left|].
        right. by exists rest.
      * intros [Heq|(rest & Heq & Hc)]; simpl in Heq;
          injection Heq as -> ->; (split; [apply Ascii.eqb_refl|]);
          [by left|]. right. by exists rest.
Qed.

(** On a path without [*] the compiled pattern decides [SpecMatches]. *)
Lemma compileKey_star_free (key : string) :
  star_free key = true →
  ∃ re, compileKey key = Ok re ∧ ∀ url, test re url = specMatchb key url.
Proof.
  intros Hsf. unfold compileKey, newRegExp.
  rewrite parseTerms_star_free by done. simpl.
  eexists; split; [done|]. intros url. apply matchTerms_literal.
Qed.

(** *** The two caches *)

Lemma generateRegex_fresh (p : string) (cache : gmap string RegExp) :
  regexCacheOk cache →
  (generateRegex p cache).1 = compileKey (pathKey p)
  ∧ regexCacheOk (generateRegex p cache).2.
Proof.
  intros Hc. unfold generateRegex.
  destruct (cache !! pathKey p) as [re|] eqn:Hk; simpl.
  - split; [symmetry; eauto|done].
  - fold (compileKey (pathKey p)).
    destruct (compileKey (pathKey p)) as [re|e] eqn:Hre; simpl; [|done].
    destruct (size cache <? 2000)%nat; simpl; split; try done.
    intros k re' Hl. destruct (decide (pathKey p = k)) as [<-|Hne].
    + rewrite lookup_insert_eq in Hl. congruence.
    + rewrite lookup_insert_ne in Hl by done. eauto.
Qed.

Lemma filterMatching_fresh (url : string) (rs : list Resource)
    (cache : gmap string RegExp) :
  regexCacheOk cache →
  (filterMatching url rs cache).1 = freshFilter url rs
  ∧ regexCacheOk (filterMatching url rs cache).2.
Proof.
  revert cache. induction rs as [|r rs IH]; intros cache Hc; simpl; [done|].
  destruct (generateRegex_fresh (path r) cache Hc) as [Hre Hc1].
  destruct (generateRegex (path r) cache) as [[re|e] cache1]; simpl in *;
    rewrite <- Hre; [|done].
  destruct (IH cache1 Hc1) as [Hrs Hc2].
  destruct (filterMatching url rs cache1) as [[m|e] cache2]; simpl in *;
    rewrite <- Hrs; done.
Qed.

Lemma newRouter_inv (rs : list Resource) : Inv rs (newRouter rs).
Proof.
  split; simpl; try done.
  - rewrite map_size_empty. lia.
Qed.

Lemma matchResources_inv (rs : list Resource) (url : string) (st : State) :
  Inv rs st →
  (matchResources url st).1 = freshMatch url rs
  ∧ Inv rs (matchResources url st).2.
Proof.
  intros [Hrs Hre Hsz Hca]. unfold matchResources, freshMatch.
  rewrite Hrs.
  destruct (length rs =? 0)%nat eqn:Hlen; simpl; [by split|].
  set (st1 := if (lastResourceUpdate st =? length rs)%nat then st
              else mkState rs ∅ (length rs) (pathRegexCache st)).
  assert (Inv rs st1 ∧ lastResourceUpdate st1 = length rs) as [[H1 H2 H3 H4] H5].
  { subst st1. destruct (Nat.eqb_spec (lastResourceUpdate st) (length rs)).
    - split; [by split|done].
    - split; [split; simpl; try done; rewrite map_size_empty; lia|done]. }
  specialize (H4 H5). unfold freshMatch in H4. rewrite Hlen in H4.
  destruct (routeCache st1 !! url) as [cached|] eqn:Hl; simpl.
  - split; [symmetry; eauto|]. split; try done.
    intros _. unfold freshMatch. by rewrite Hlen.
  - rewrite H1.
    destruct (filterMatching_fresh url rs (pathRegexCache st1) H2) as [Hf Hc].
    destruct (filterMatching url rs (pathRegexCache st1)) as [[m|e] rc];
      simpl in *; rewrite <- Hf; simpl.
    + split; [done|]. split; simpl; try done.
      * destruct (Nat.ltb_spec (size (routeCache st1)) 1000); [|done].
        rewrite map_size_insert_None by done. lia.
      * intros _ url' l. unfold freshMatch. rewrite Hlen.
        destruct (size (routeCache st1) <? 1000)%nat; [|by apply H4].
        destruct (decide (url = url')) as [<-|Hne].
        -- rewrite lookup_insert_eq. rewrite <- Hf. congruence.
        -- rewrite lookup_insert_ne by done. apply H4.
    + split; [done|]. split; simpl; try done.
      intros _. unfold freshMatch. by rewrite Hlen.
Qed.

Lemma matchAll_inv (rs : list Resource) (urls : list string) (st : State) :
  Inv rs st →
  (matchAll urls st).1 = map (λ url, freshMatch url rs) urls
  ∧ Inv rs (matchAll urls st).2.
Proof.
  revert st. induction urls as [|url urls IH]; intros st Hinv; simpl; [done|].
  destruct (matchResources_inv rs url st Hinv) as [Hr Hinv1].
  destruct (matchResources url st) as [r st1]; simpl in *.
  destruct (IH st1 Hinv1) as [Hrs Hinv2].
  destruct (matchAll urls st1) as [results st2]; simpl in *.
  by rewrite Hr, Hrs.
Qed.

(** C10.  On a router whose resources array is not modified, every call of
    a sequence of [matchResources] calls (the cache hits among them
    included) returns the list that filtering and sorting afresh computes,
    and the URL-result cache never holds more than 1000 entries. *)
Theorem matchResources_cache_sound_and_bounded
    (rs : list Resource) (urls : list string) :
  (matchAll urls (newRouter rs)).1 = map (λ url, freshMatch url rs) urls
  ∧ (size (routeCache (matchAll urls (newRouter rs)).2) ≤ 1000)%nat.
Proof.
  destruct (matchAll_inv rs urls (newRouter rs) (newRouter_inv rs))
    as [Hres Hinv].
  split; [done|]. apply Hinv.
Qed.

(** A lookup that is answered from the cache returns the stored list, and
    that list is the freshly computed one. *)
Lemma matchResources_hit (rs : list Resource) (url : string) (st : State)
    (cached : list Resource) :
  Inv rs st → rs ≠ [] →
  lastResourceUpdate st = length rs →
  routeCache st !! url = Some cached →
  (matchResources url st).1 = Ok cached ∧ freshMatch url rs = Ok cached.
Proof.
  intros Hinv Hne Hlast Hhit.
  destruct (matchResources_inv rs url st Hinv) as [Hr _].
  destruct Hinv as [Hrs _ _ Hca].
  split; [|by eapply Hca].
  unfold matchResources. rewrite Hrs, Hlast, Nat.eqb_refl.
  destruct rs; [done|]. simpl. by rewrite Hhit.
Qed.

(** *** The candidate list *)

Lemma star_free_pathKey (p : string) :
  star_free p = true → star_free (pathKey p) = true.
Proof. unfold pathKey. by destruct (_ || _). Qed.

Lemma freshFilter_star_free (url : string) (rs : list Resource) :
  Forall (λ r, star_free (path r) = true) rs →
  freshFilter url rs
  = Ok (filter (λ r, specMatchb (pathKey (path r)) url = true) rs).
Proof.
  induction 1 as [|r rs Hr _ IH]; simpl; [done|].
  destruct (compileKey_star_free _ (star_free_pathKey _ Hr))
    as (re & -> & Htest).
  rewrite IH, Htest, filter_cons.
  by destruct (specMatchb (pathKey (path r)) url) eqn:E; case_decide.
Qed.

(** When no registered path holds a [*], the candidate list is made of
    exactly the resources that match in the sense of the specification,
    by specificity descending, ties in registration order. *)
Lemma matchResources_star_free (rs : list Resource) (url : string) :
  Forall (λ r, star_free (path r) = true) rs →
  let matched :=
    filter (λ r, specMatchb (pathKey (path r)) url = true) rs in
  ∃ l, (matchResources url (newRouter rs)).1 = Ok l
       ∧ (∀ r, r ∈ matched ↔ r ∈ rs ∧ SpecMatches (pathKey (path r)) url)
       ∧ l ≡ₚ matched
       ∧ StronglySorted (descending specificness) l
       ∧ ∀ k, filter (λ r, specificness r = k) l
              = filter (λ r, specificness r = k) matched.
Proof.
  intros Hsf matched.
  assert (∀ r, r ∈ matched ↔ r ∈ rs ∧ SpecMatches (pathKey (path r)) url)
    as Hexact.
  { intros r. subst matched. rewrite list_elem_of_filter, specMatchb_spec.
    tauto. }
  destruct (matchResources_inv rs url _ (newRouter_inv rs)) as [-> _].
  unfold freshMatch. destruct rs as [|r rs]; simpl length.
  - exists []. split; [done|]. split; [done|].
    split; [done|]. split; [constructor|done].
  - change (S (length rs) =? 0)%nat with false. cbv iota.
    rewrite freshFilter_star_free by done. fold matched.
    exists (arraySort bySpecificness matched). split; [done|].
    split; [done|].
    split; [apply (arraySort_perm specificness)|].
    split; [apply (arraySort_sorted specificness)|].
    intros k. apply (arraySort_stable specificness).
Qed.

(** Resources at [/a] and [/a/b]: a request to [/a/b/c] tries [/a/b]
    before [/a]. *)
Example matchResources_a_ab :
  (matchResources "/a/b/c"
     (newRouter [mkResource "a" "/a"; mkResource "ab" "/a/b"])).1
  = Ok [mkResource "ab" "/a/b"; mkResource "a" "/a"].
Proof. vm_compute. reflexivity. Qed.

(** C7.  The escaping in [generateRegex] leaves [*] alone, so a resource
    registered at [/a*] is a candidate for the request [/] although [/]
    neither equals that base path nor continues it: the candidate list is
    not exactly the set of resources that match. *)
Theorem matchResources_unescaped_star :
  (matchResources "/" (newRouter [mkResource "s" "/a*"])).1
  = Ok [mkResource "s" "/a*"]
  ∧ ¬ SpecMatches (pathKey "/a*") "/".
Proof.
  split; [vm_compute; reflexivity|].
  intros H. apply specMatchb_spec in H. vm_compute in H. discriminate.
Qed.

End RouterFacts.
(** ** Request context: completion is effective once *)

Module ContextFacts.
Import Js Http Context.

Lemma inErrorRange_valid (status : Z) :
  inErrorRange status = true → validStatus status = true.
Proof. unfold inErrorRange, validStatus. lia. Qed.

Lemma normalizeStatus_range (err : Value) :
  inErrorRange (normalizeStatus err) = true.
Proof.
  unfold normalizeStatus.
  destruct (if truthyNum (statusCodeOf err) then statusCodeOf err
            else statusOf err) as [s|]; [|done].
  by destruct (inErrorRange s) eqn:E.
Qed.

(** [end] on an open response of the server whose head is out, or whose
    status code is one [writeHead] accepts. *)
Lemma endResponse_ok (chunk : option Chunk) (res : Response) :
  placeholder res = false → finished res = false →
  headersSent res = true ∨ validStatus (statusCode res) = true →
  endResponse chunk res
  = Ok (mkResponse false true true (statusCode res) (headers res)
                   (written res ++ match chunk with
                                   | Some c => [c]
                                   | None => []
                                   end)%list).
Proof.
  intros Hp Hf Hv. unfold endResponse. rewrite Hp, Hf.
  destruct Hv as [-> | ->]; [done|]. by rewrite andb_false_r.
Qed.

(** When [end] returns on a response of the server, the response is
    finished; when it throws, nothing has happened. *)
Lemma endResponse_finished (chunk : option Chunk) (res res' : Response) :
  placeholder res = false → endResponse chunk res = Ok res' →
  placeholder res' = false ∧ finished res' = true.
Proof.
  intros Hlive. unfold endResponse. rewrite Hlive.
  destruct (finished res) eqn:E; [by intros [= <-]|].
  destruct (negb (headersSent res) && _); [done|]. by intros [= <-].
Qed.

Lemma setHeaderIfFree_same_kind (res : Response)
    (entry : string * HeaderValue) :
  placeholder (setHeaderIfFree res entry) = placeholder res
  ∧ finished (setHeaderIfFree res entry) = finished res.
Proof.
  destruct entry as [h v]. unfold setHeaderIfFree, setHeader.
  destruct (negb (headersSent res) && _); [|done].
  by destruct (placeholder res) eqn:E.
Qed.

Lemma foldl_setHeaderIfFree_same_kind (hs : list (string * HeaderValue))
    (res : Response) :
  placeholder (foldl setHeaderIfFree res hs) = placeholder res
  ∧ finished (foldl setHeaderIfFree res hs) = finished res.
Proof.
  revert res. induction hs as [|h hs IH]; intros res; simpl; [done|].
  destruct (IH (setHeaderIfFree res h)) as [-> ->].
  apply setHeaderIfFree_same_kind.
Qed.

(** When [_setHeaders] returns it has run its loop over some headers. *)
Lemma setHeaders_foldl (code : Z) (body : Body) (ct : string)
    (res res' : Response) :
  setHeaders code body ct res = Ok res' →
  ∃ hs, res' = foldl setHeaderIfFree res hs.
Proof.
  unfold setHeaders. destruct (negb (bodyless code) && bodyTruthy body).
  - destruct (byteLength body) as [n|]; [|done]. intros H.
    exists ([("Cache-Control", HString "no-cache, no-store, must-revalidate");
             ("Pragma", HString "no-cache"); ("Expires", HString "0");
             ("Content-Type", HString ct)]
            ++ [("Content-Length", HNumber n)])%list.
    by injection H as <-.
  - intros H.
    exists [("Cache-Control", HString "no-cache, no-store, must-revalidate");
            ("Pragma", HString "no-cache"); ("Expires", HString "0");
            ("Content-Type", HString ct)].
    by injection H as <-.
Qed.

Lemma setHeaders_same_kind (code : Z) (body : Body) (ct : string)
    (res res' : Response) :
  setHeaders code body ct res = Ok res' →
  placeholder res' = placeholder res ∧ finished res' = finished res.
Proof.
  intros H. destruct (setHeaders_foldl _ _ _ _ _ H) as [hs ->].
  apply foldl_setHeaderIfFree_same_kind.
Qed.

(** The responder always ends an open response of the server: with the
    body, or through [safeEnd] when the body cannot be built. *)
Lemma respond_finished (err : Value) (res : Response) :
  placeholder res = false → truthy err = true →
  finished (respond err res) = true.
Proof.
  intros Hlive Ht. unfold respond, writableEnded. rewrite Ht. simpl.
  destruct (finished res) eqn:E; [done|].
  set (status := if _ && _ then _ else _).
  assert (validStatus status = true) as Hvalid.
  { apply inErrorRange_valid. subst status. destruct (_ && _) eqn:E'.
    - by apply andb_prop in E' as [_ ?].
    - apply normalizeStatus_range. }
  set (res1 := if negb (headersSent res) then _ else res).
  assert (placeholder res1 = false ∧ finished res1 = false
          ∧ (headersSent res1 = true ∨ validStatus (statusCode res1) = true))
    as (Hp1 & Hf1 & Hv1).
  { subst res1. destruct (headersSent res) eqn:Hs; simpl; [by auto|].
    unfold setHeader. simpl. rewrite Hlive. simpl. by auto. }
  destruct (serialisable (normalizePayload err)).
  - by rewrite (endResponse_ok _ _ Hp1 Hf1 Hv1).
  - unfold safeEnd, writableEnded. rewrite Hf1.
    by rewrite (endResponse_ok _ _ Hp1 Hf1 Hv1).
Qed.

(** On a response of the server, a call of [done] that returns leaves
    the response finished. *)
Lemma doneOnResponse_finished (err : Value) (response : Payload)
    (res : Response) :
  placeholder res = false →
  (doneOnResponse err response res).2 = None →
  finished (doneOnResponse err response res).1 = true.
Proof.
  intros Hlive. unfold doneOnResponse. destruct (finished res) eqn:E; [done|].
  destruct (truthy err) eqn:Ht; [intros _; by apply respond_finished|].
  set (code := if statusCode res =? 0 then 200 else statusCode res).
  assert (∀ body ct res1,
            placeholder res1 = false →
            (match setHeaders code body ct res1 with
             | Throw e => (res1, Some e)
             | Ok res2 =>
                 match
                   if negb (bodyless code) then endWith body res2
                   else endResponse None res2
                 with
                 | Ok res3 => (res3, None)
                 | Throw e => (res2, Some e)
                 end
             end).2 = None →
            finished (match setHeaders code body ct res1 with
                      | Throw e => (res1, Some e)
                      | Ok res2 =>
                          match
                            if negb (bodyless code) then endWith body res2
                            else endResponse None res2
                          with
                          | Ok res3 => (res3, None)
                          | Throw e => (res2, Some e)
                          end
                      end).1 = true) as Hsteps.
  { intros body ct res1 Hp1.
    destruct (setHeaders code body ct res1) as [res2|e] eqn:Hset; [|done].
    destruct (setHeaders_same_kind _ _ _ _ _ Hset) as [Hp2 _].
    rewrite Hp1 in Hp2.
    assert (∀ chunk res3, endResponse chunk res2 = Ok res3 →
                          finished res3 = true) as Hend.
    { intros chunk res3 H.
      by destruct (endResponse_finished chunk res2 res3 Hp2 H). }
    destruct (negb (bodyless code)).
    - destruct body as [s|]; simpl.
      + destruct (endResponse _ res2) eqn:He; [|done]. intros _.
        by eapply Hend.
      + by rewrite Hp2.
    - destruct (endResponse None res2) eqn:He; [|done]. intros _.
      by eapply Hend. }
  destruct response as [[json|]|s|n|b|]; by apply Hsteps.
Qed.

(** On a finished response [done] returns at once. *)
Lemma doneOnResponse_noop (err : Value) (response : Payload)
    (res : Response) :
  finished res = true → doneOnResponse err response res = (res, None).
Proof. intros H. unfold doneOnResponse. by rewrite H. Qed.

(** A call of [done] that throws has not ended the response and has
    written nothing. *)
Lemma doneOnResponse_thrown (err : Value) (response : Payload)
    (res : Response) (e : Value) :
  (doneOnResponse err response res).2 = Some e →
  finished (doneOnResponse err response res).1 = false
  ∧ written (doneOnResponse err response res).1 = written res.
Proof.
  unfold doneOnResponse. destruct (finished res) eqn:E; [done|].
  destruct (truthy err); [done|].
  set (code := if statusCode res =? 0 then 200 else statusCode res).
  assert (∀ hs res1, finished (foldl setHeaderIfFree res1 hs) = finished res1
                     ∧ written (foldl setHeaderIfFree res1 hs) = written res1)
    as Hfold.
  { induction hs as [|[h v] hs IH]; intros res1; [done|]. cbn [foldl].
    destruct (IH (setHeaderIfFree res1 (h, v))) as [-> ->].
    unfold setHeaderIfFree, setHeader.
    destruct (negb (headersSent res1) && _); [|done].
    by destruct (placeholder res1). }
  assert (∀ body ct res1,
            finished res1 = false → written res1 = written res →
            let out :=
              match setHeaders code body ct res1 with
              | Throw e => (res1, Some e)
              | Ok res2 =>
                  match
                    if negb (bodyless code) then endWith body res2
                    else endResponse None res2
                  with
                  | Ok res3 => (res3, None)
                  | Throw e => (res2, Some e)
                  end
              end in
            out.2 = Some e →
            finished out.1 = false ∧ written out.1 = written res) as Hsteps.
  { intros body ct res1 Hf1 Hw1. cbv zeta.
    destruct (setHeaders code body ct res1) as [res2|e'] eqn:Hset; [|done].
    assert (finished res2 = false ∧ written res2 = written res) as [Hf2 Hw2].
    { destruct (setHeaders_foldl _ _ _ _ _ Hset) as [hs ->].
      by destruct (Hfold hs res1) as [-> ->]. }
    by destruct (if negb (bodyless code) then endWith body res2
                 else endResponse None res2). }
  destruct response as [[json|]|s|n|b|]; by apply Hsteps.
Qed.

(** C8 (as amended).  On a context that was constructed with a response of
    the server, once a call of [done] has returned, a further call of
    [done] is a no-op: it returns as well and leaves the response
    (status, headers, what was written, the finished flag) exactly as the
    first call left it, whatever the two errors and payloads are.  A call
    of [done] that throws instead has neither ended the response nor
    written to it. *)
Theorem done_twice (ctx : Context) (err1 err2 : Value)
    (payload1 payload2 : Payload) :
  placeholder (res ctx) = false →
  ((done err1 payload1 ctx).2 = None →
   done err2 payload2 (done err1 payload1 ctx).1
   = ((done err1 payload1 ctx).1, None))
  ∧ (∀ e, (done err1 payload1 ctx).2 = Some e →
          finished (res (done err1 payload1 ctx).1) = false
          ∧ written (res (done err1 payload1 ctx).1) = written (res ctx)).
Proof.
  intros Hlive. unfold done.
  pose proof (doneOnResponse_finished err1 payload1 (res ctx) Hlive) as Hfin.
  pose proof (λ e, doneOnResponse_thrown err1 payload1 (res ctx) e)
    as Hthrown.
  destruct (doneOnResponse err1 payload1 (res ctx)) as [res1 thrown].
  simpl in *. split.
  - intros Hret. by rewrite (doneOnResponse_noop _ _ _ (Hfin Hret)).
  - intros e ->. by apply (Hthrown e).
Qed.

Lemma done_twice_witness :
  done forbiddenError PAbsent (done VUndefined (PText "ok") liveContext).1
  = ((done VUndefined (PText "ok") liveContext).1, None).
Proof.
  apply (proj1 (done_twice liveContext VUndefined forbiddenError (PText "ok")
                  PAbsent eq_refl)).
  reflexivity.
Defined.

(** The claim as stated fails in two ways.  On the context that
    [handleSessions] builds without a response, the guard of [done] reads
    [finished] on the placeholder, which its [end] never sets, so a
    second call runs like the first and here replaces the status 404 by
    403.  And on a response of the server whose status code a handler
    set to 0, the first call sets the headers and throws out of [end]
    while the head is written, the response stays open, and a second
    call, here with an error, runs in full and writes. *)
Lemma done_twice_runs_again :
  ((done notFoundError PAbsent sessionContext).2 = None
   ∧ statusCode (res (done notFoundError PAbsent sessionContext).1) = 404
   ∧ statusCode (res (done forbiddenError PAbsent
                        (done notFoundError PAbsent sessionContext).1).1)
     = 403)
  ∧ (let ctx := newContext "/a" "/a/1"
                  (Some (setStatusCode 0 newResponse)) in
     let first := done VUndefined (PText "hi") ctx in
     let second := done forbiddenError PAbsent first.1 in
     first.2 = Some (invalidStatusCode 0)
     ∧ finished (res first.1) = false ∧ written (res first.1) = []
     ∧ second.2 = None
     ∧ finished (res second.1) = true
     ∧ statusCode (res second.1) = 403
     ∧ written (res second.1) = [ChunkJson forbiddenError]).
Proof. vm_compute. done. Qed.

(** The same through the wrapper that [Router.route] installs as
    [ctx.done]: after a call whose [done] returned, a second call writes
    nothing to the response. *)
Lemma ctxDone_twice (a : Route.Attempt) (err1 err2 : Value)
    (payload1 payload2 : Payload) :
  placeholder (Route.res a) = false →
  (doneOnResponse err1 payload1 (Route.res a)).2 = None →
  Route.res (Route.ctxDoneCall err2 payload2
               (Route.ctxDoneCall err1 payload1 a))
  = Route.res (Route.ctxDoneCall err1 payload1 a).
Proof.
  intros Hlive Hret. unfold Route.ctxDoneCall.
  destruct (Route.settled a) eqn:E; simpl; [by rewrite ?E|].
  pose proof (doneOnResponse_finished err1 payload1 _ Hlive Hret) as Hfin.
  destruct (doneOnResponse err1 payload1 (Route.res a)) as [res1 thrown].
  simpl in *. rewrite ?E. simpl.
  by rewrite (doneOnResponse_noop _ _ _ Hfin).
Qed.

End ContextFacts.

(** ** Router: a failing candidate ends the dispatch *)

Module RouteFacts.
Import Js Http Router Route.

(** A synchronous throw or a rejection of the handler's promise rejects
    the promise of a candidate that has not settled yet. *)
Lemma handlerFailed_rejects (e : Value) (a : Attempt) :
  settled a = false → promise a = Unsettled →
  promise (handlerFailed e a) = Rejected e.
Proof.
  intros Hs Hp. unfold handlerFailed, reject. rewrite Hs. simpl.
  by rewrite Hp.
Qed.

Lemma runEvents_settled (evs : list Event) (a : Attempt) :
  promise a ≠ Unsettled → runEvents evs a = a.
Proof. destruct evs, (promise a) eqn:E; simpl; rewrite ?E; done. Qed.

Lemma runEvents_throws (e : Value) (evs : list Event) (h : bool)
    (res : Response) :
  promise (runEvents (HandlerThrows e :: evs) (newAttempt h res))
  = Rejected e.
Proof. simpl. by rewrite runEvents_settled. Qed.

Lemma runEvents_rejects (e : Value) (evs : list Event) (h : bool)
    (res : Response) :
  promise (runEvents (HandlerRejects e :: evs) (newAttempt h res))
  = Rejected e.
Proof. simpl. by rewrite runEvents_settled. Qed.

(** In the loop a rejected candidate is the last one tried, and the loop
    ends by throwing what it was rejected with. *)
Lemma routeLoop_rejected (handle : Resource → list Event)
    (candidates : list Resource) :
  ∀ (handled : bool) (res : Response) r e,
    (r, Rejected e) ∈ (routeLoop handle candidates handled res).1 →
    (∃ pre, (routeLoop handle candidates handled res).1
            = (pre ++ [(r, Rejected e)])%list)
    ∧ ∃ res', (routeLoop handle candidates handled res).2
              = LoopThrew e res'.
Proof.
  induction candidates as [|c cs IH]; intros handled res r e; simpl.
  - intros H. by apply elem_of_nil in H.
  - destruct (handled || writableEnded res).
    { intros H. by apply elem_of_nil in H. }
    set (a := runEvents (handle c) (newAttempt handled res)).
    destruct (promise a) as [| |e'] eqn:Hp; simpl.
    + intros H. apply list_elem_of_singleton in H. congruence.
    + assert (∀ h' res', (r, Rejected e)
                ∈ ((c, Resolved) :: (routeLoop handle cs h' res').1) →
              (∃ pre, (c, Resolved) :: (routeLoop handle cs h' res').1
                      = (pre ++ [(r, Rejected e)])%list)
              ∧ ∃ res'', (routeLoop handle cs h' res').2
                         = LoopThrew e res'') as Hrec.
      { intros h' res' H. apply elem_of_cons in H as [H|H]; [congruence|].
        destruct (IH h' res' r e H) as [[pre Hpre] Hend].
        split; [|done]. exists ((c, Resolved) :: pre). by rewrite Hpre. }
      destruct (nextRequested a).
      * destruct (routeLoop handle cs (Route.handled a) (Route.res a))
          as [t en] eqn:Hl. simpl.
        specialize (Hrec (Route.handled a) (Route.res a)).
        rewrite Hl in Hrec. exact Hrec.
      * destruct (Route.handled a || writableEnded (Route.res a)
                  || headersSent (Route.res a)); simpl.
        -- intros H. apply list_elem_of_singleton in H. congruence.
        -- destruct (routeLoop handle cs (Route.handled a) (Route.res a))
             as [t en] eqn:Hl. simpl.
           specialize (Hrec (Route.handled a) (Route.res a)).
           rewrite Hl in Hrec. exact Hrec.
    + intros H. apply list_elem_of_singleton in H.
      injection H as -> ->. split; [by exists []|by eexists].
Qed.

Lemma routeCatch_call (e : Value) (res : Response) :
  (routeCatch e res).1 = (wrapThrown e, handOffStatus e).
Proof.
  unfold routeCatch, handOffStatus, wrapThrown. simpl.
  by destruct (instanceofError e).
Qed.

(** C4 (as amended).  When the promise of a candidate is rejected with
    [e], because its handler threw [e] synchronously or its asynchronous
    work rejected with [e] before the candidate settled otherwise, no
    further candidate is tried and the error responder is called exactly
    once, with the response status set to [e.statusCode] when [e] is an
    [Error] instance that carries one and to 500 otherwise; a thrown
    value that is not an [Error] instance is replaced by a plain object
    with [statusCode] 500, whatever [statusCode] it carried. *)
Theorem route_rejection_ends_dispatch
    (handle : Resource → list Event) (sessionError : Value)
    (req : Request) (res : Response) (st : State)
    (r : Resource) (e : Value) :
  (r, Rejected e) ∈ tried (log (route handle sessionError req res st)) →
  (∃ pre, tried (log (route handle sessionError req res st))
          = (pre ++ [(r, Rejected e)])%list)
  ∧ responded (log (route handle sessionError req res st))
    = [(wrapThrown e, handOffStatus e)].
Proof.
  unfold route. destruct (routed req); simpl.
  { intros H. by apply elem_of_nil in H. }
  destruct (truthy sessionError).
  { destruct (routeCatch sessionError res). simpl.
    intros H. by apply elem_of_nil in H. }
  destruct (matchResources (reqUrl req) st) as [[cands|e'] st1].
  2:{ destruct (routeCatch e' res). simpl.
      intros H. by apply elem_of_nil in H. }
  pose proof (routeLoop_rejected handle cands false res r e) as Hloop.
  destruct (routeLoop handle cands false res) as [t en]. simpl in Hloop.
  destruct en as [h res1|e1 res1|res1].
  - destruct (negb h && negb (writableEnded res1)
              && negb (headersSent res1));
      [destruct (handle404 res1)|]; simpl;
      intros H; destruct (Hloop H) as [_ [? ?]]; done.
  - simpl. intros H. destruct (Hloop H) as [Hpre [res' Heq]].
    injection Heq as Heq _. subst e1. split; [done|].
    by rewrite <- (routeCatch_call e res1).
  - simpl. intros H. destruct (Hloop H) as [_ [? ?]]. done.
Qed.

Lemma route_rejection_ends_dispatch_witness :
  (∃ pre,
      tried (log (route handlers VUndefined (mkRequest "/a/b/c" false)
                    newResponse (newRouter [resourceA; resourceAB])))
      = (pre ++ [(resourceA, Rejected forbidden)])%list)
  ∧ responded (log (route handlers VUndefined (mkRequest "/a/b/c" false)
                      newResponse (newRouter [resourceA; resourceAB])))
    = [(forbidden, 403)].
Proof.
  apply (route_rejection_ends_dispatch handlers VUndefined
           (mkRequest "/a/b/c" false) newResponse
           (newRouter [resourceA; resourceAB]) resourceA forbidden).
  vm_compute. apply elem_of_cons. right. apply elem_of_cons. by left.
Defined.

(** The claim as stated fails on a thrown plain object: the response
    status handed to the responder is 500, not the 403 the thrown value
    carries. *)
Lemma route_plain_object_loses_status :
  responded (log (route (λ _, [HandlerThrows plain403]) VUndefined
                    (mkRequest "/a" false) newResponse
                    (newRouter [resourceA])))
  = [(VObject (Some "[object Object]") None (Some 500), 500)]
  ∧ statusCodeOf plain403 = Some 403
  ∧ statusCode (response (route (λ _, [HandlerThrows plain403]) VUndefined
                            (mkRequest "/a" false) newResponse
                            (newRouter [resourceA]))) = 500.
Proof. vm_compute. done. Qed.

End RouteFacts.

(** ** Session registry: saving and sweeping *)

Module ObjFacts.

Section Facts.
Context {V : Type}.
Implicit Types (o : Obj.t V) (k : string) (v : V).

Lemma get_set_eq o k v : Obj.get k (Obj.set k v o) = Some v.
Proof.
  induction o as [|[k' v'] o IH]; simpl.
  - by rewrite String.eqb_refl.
  - destruct (String.eqb k' k) eqn:E; simpl.
    + by rewrite String.eqb_refl.
    + by rewrite E.
Qed.

Lemma get_set_ne o k k' v :
  k ≠ k' → Obj.get k' (Obj.set k v o) = Obj.get k' o.
Proof.
  intros Hne. induction o as [|[k0 v0] o IH]; simpl.
  - by apply String.eqb_neq in Hne as ->.
  - destruct (String.eqb k0 k) eqn:E; simpl.
    + apply String.eqb_eq in E as ->.
      by apply String.eqb_neq in Hne as ->.
    + by rewrite IH.
Qed.

Lemma get_set_is_Some o k k' v :
  is_Some (Obj.get k' o) → is_Some (Obj.get k' (Obj.set k v o)).
Proof.
  destruct (decide (k = k')) as [->|Hne].
  - by rewrite get_set_eq.
  - by rewrite get_set_ne.
Qed.

Lemma get_None_not_key o k :
  Obj.get k o = None ↔ k ∉ Obj.keys o.
Proof.
  induction o as [|[k' v'] o IH]; simpl.
  - split; [|done]. intros _ H. by apply elem_of_nil in H.
  - destruct (String.eqb_spec k' k) as [->|Hne].
    + split; [done|]. intros H. exfalso. apply H, elem_of_cons. by left.
    + rewrite IH, elem_of_cons. split.
      * intros H [?|?]; [congruence|done].
      * intros H ?. apply H. by right.
Qed.

Lemma keys_delete o k : Obj.keys (Obj.delete k o) ⊆ Obj.keys o.
Proof.
  induction o as [|[k' v'] o IH]; simpl; [done|].
  destruct (String.eqb k' k); simpl.
  - intros x Hx. apply elem_of_cons. by right.
  - intros x Hx. apply elem_of_cons in Hx as [->|Hx];
      apply elem_of_cons; [by left|right; by apply IH].
Qed.

Lemma get_delete_eq o k :
  NoDup (Obj.keys o) → Obj.get k (Obj.delete k o) = None.
Proof.
  induction o as [|[k' v'] o IH]; simpl; [done|].
  intros Hnd. apply NoDup_cons in Hnd as [Hk' Hnd].
  destruct (String.eqb_spec k' k) as [->|Hne]; simpl.
  - by apply get_None_not_key.
  - apply String.eqb_neq in Hne as ->. by apply IH.
Qed.

Lemma NoDup_delete o k :
  NoDup (Obj.keys o) → NoDup (Obj.keys (Obj.delete k o)).
Proof.
  induction o as [|[k' v'] o IH]; simpl; [done|].
  intros Hnd. apply NoDup_cons in Hnd as [Hk' Hnd].
  destruct (String.eqb k' k); simpl; [done|].
  apply NoDup_cons. split; [|by apply IH].
  intros H. by apply keys_delete in H.
Qed.

Lemma get_Some_elem o k v : Obj.get k o = Some v → (k, v) ∈ o.
Proof.
  induction o as [|[k' v'] o IH]; simpl; [done|].
  destruct (String.eqb_spec k' k) as [->|Hne].
  - intros [= ->]. apply elem_of_cons. by left.
  - intros H. apply elem_of_cons. right. by apply IH.
Qed.

Lemma delete_absent o k : Obj.get k o = None → Obj.delete k o = o.
Proof.
  induction o as [|[k' v'] o IH]; simpl; [done|].
  destruct (String.eqb k' k); [done|]. intros H. by rewrite IH.
Qed.

(** Deleting every key of a list leaves none of them. *)
Lemma get_foldl_delete (l : list string) o k :
  NoDup (Obj.keys o) → k ∈ l →
  Obj.get k (foldl (λ o' k', Obj.delete k' o') o l) = None.
Proof.
  assert (∀ l o, Obj.get k o = None →
            Obj.get k (foldl (λ o' k', Obj.delete k' o') o l) = None)
    as Hstay.
  { clear. intros l. induction l as [|k0 l IH]; intros o H; simpl;
      [done|]. apply IH. revert H. rewrite !get_None_not_key.
    intros H Hin. by apply keys_delete in Hin. }
  revert o. induction l as [|k0 l IH]; intros o Hnd Hin; simpl.
  - by apply elem_of_nil in Hin.
  - apply elem_of_cons in Hin as [->|Hin].
    + by apply Hstay, get_delete_eq.
    + by apply IH; [apply NoDup_delete|].
Qed.

Lemma get_delete_None o k k' :
  Obj.get k o = None → Obj.get k (Obj.delete k' o) = None.
Proof.
  rewrite !get_None_not_key. intros H Hin. by apply keys_delete in Hin.
Qed.
End Facts.

End ObjFacts.

Module SessionFacts.
Import Js Session ObjFacts.

(** *** Saving a session whose id is not a string *)

(** C9.  On a session whose data is not anonymous and whose [id] is not a
    string, [save(fn)] calls [fn] with the error ['Invalid session ID']
    and changes nothing: no insert or update reaches the store and the
    in-memory indices (and every session object) are as before. *)
Theorem save_invalid_id (addr : nat) (freshId : string)
    (answer : WriteAnswer) (st : Store) (this : Session) :
  heap st !! addr = Some this →
  anonymous (data this) = false →
  typeofString (id (data this)) = false →
  save addr freshId answer st = (Some (VString "Invalid session ID"), st).
Proof.
  intros Hthis Hanon Hid. unfold save. rewrite Hthis, Hanon. simpl.
  by rewrite Hid.
Qed.

Lemma save_invalid_id_witness :
  save 0 "fresh" (WriteOk noId) storeWithNoId
  = (Some (VString "Invalid session ID"), storeWithNoId).
Proof.
  apply (save_invalid_id 0 "fresh" (WriteOk noId) storeWithNoId
           (mkSession noId IdUndefined)); reflexivity.
Defined.

(** *** What a save leaves behind *)

Lemma writesBetween_refl (st : Store) : writesBetween st st = [].
Proof. unfold writesBetween. by rewrite drop_all. Qed.

Lemma stored_dbLog addr sid d st : dbLog (stored addr sid d st) = dbLog st.
Proof.
  unfold stored. destruct (uid d) as [u|]; [|done].
  by destruct (String.eqb u "").
Qed.

Lemma stored_options addr sid d st :
  options (stored addr sid d st) = options st.
Proof.
  unfold stored. destruct (uid d) as [u|]; [|done].
  by destruct (String.eqb u "").
Qed.

Lemma stored_cached addr sid d la st :
  anonymous d = false → id d = IdString sid → lastActive d = Some la →
  Cached sid addr la (stored addr sid d st).
Proof.
  intros Ha Hi Hl. unfold Cached, stored.
  destruct (uid d) as [u|]; [destruct (String.eqb u "")|]; simpl;
    rewrite get_set_eq, lookup_insert_eq; (split; [done|]);
    eexists; split; done.
Qed.

(** *** The sweep *)

Lemma Kept_refl st : Kept st st.
Proof. by repeat split. Qed.

Lemma Kept_trans st1 st2 st3 : Kept st1 st2 → Kept st2 st3 → Kept st1 st3.
Proof.
  intros (Ha & Hb & Hc) (Ha' & Hb' & Hc'). repeat split; try congruence.
  intros sid H. by apply Hc', Hc.
Qed.

Lemma Kept_same_index st st' :
  lastRun st' = lastRun st → sweeps st' = sweeps st →
  sessionIndex st' = sessionIndex st → Kept st st'.
Proof. intros Ha Hb Hc. repeat split; try done. by rewrite Hc. Qed.

Lemma stored_kept addr sid d st : Kept st (stored addr sid d st).
Proof.
  unfold stored.
  assert (Kept st (setSessionIndex
                     (Obj.set sid addr (sessionIndex st))
                     (setHeap (<[addr:=mkSession d (id d)]> (heap st)) st)))
    as Hk.
  { repeat split; try done. simpl. intros k. apply get_set_is_Some. }
  destruct (uid d) as [u|]; [|done].
  destruct (String.eqb u ""); [done|].
  eapply Kept_trans; [exact Hk|]. by apply Kept_same_index.
Qed.

Lemma storedNothing_kept addr sid st : Kept st (storedNothing addr sid st).
Proof.
  unfold storedNothing. repeat split; try done. simpl.
  intros k. apply get_set_is_Some.
Qed.

Lemma save_kept addr freshId answer st :
  Kept st (save addr freshId answer st).2.
Proof.
  unfold save. destruct (heap st !! addr) as [this|]; [|apply Kept_refl].
  assert (∀ op k d, Kept st (stored addr k d (logDb op st))) as Hstored.
  { intros op k d. eapply Kept_trans; [|apply stored_kept].
    by apply Kept_same_index. }
  destruct (anonymous (data this)); simpl.
  - destruct answer as [e|res]; simpl; [|apply Hstored].
    destruct (truthy e); simpl; [by apply Kept_same_index|].
    eapply Kept_trans; [|apply storedNothing_kept]. by apply Kept_same_index.
  - destruct (negb (typeofString (id (data this)))); [apply Kept_refl|].
    destruct (idTruthy (id (data this))); [|apply Kept_refl].
    destruct answer as [e|res]; simpl; [|apply Hstored].
    destruct (truthy e); simpl; [by apply Kept_same_index|apply Hstored].
Qed.

Lemma touchData_kept now addr st : Kept st (touchData now addr st).
Proof.
  unfold touchData. destruct (heap st !! addr); [|apply Kept_refl].
  by apply Kept_same_index.
Qed.

Lemma newSession_kept now d st : Kept st (newSession now d st).2.
Proof. by apply Kept_same_index. Qed.

Lemma fastPath_kept c sid st r :
  fastPath c sid st = Some r → Kept st r.2.
Proof.
  unfold fastPath.
  destruct (Obj.get sid (sessionIndex st)) as [addr|]; [|done].
  destruct (heap st !! addr) as [cached|]; [|done].
  destruct (lastActive (data cached)) as [la|]; [|done].
  destruct (clock c - maxAge (options st) <=? la); [|done].
  destruct (needsTouch (clock c) (data cached)).
  - pose proof (save_kept addr (freshId c) (written c)
                  (touchData (clock c) addr st)) as Hs.
    destruct (save addr (freshId c) (written c)
                (touchData (clock c) addr st)) as [called st2].
    intros [= <-]. simpl in *.
    eapply Kept_trans; [apply touchData_kept|exact Hs].
  - intros [= <-]. apply Kept_refl.
Qed.

Lemma sessionFor_kept now s sid st : Kept st (sessionFor now s sid st).2.
Proof.
  unfold sessionFor. destruct (Obj.get _ _); [apply Kept_refl|].
  apply newSession_kept.
Qed.

Lemma indexFound_kept sid addr st : Kept st (indexFound sid addr st).
Proof.
  unfold indexFound. destruct sid as [k|]; [|apply Kept_refl].
  destruct (Obj.get _ _); [apply Kept_refl|].
  repeat split; try done. simpl. intros ?. apply get_set_is_Some.
Qed.

Lemma indexFoundUser_kept s addr st : Kept st (indexFoundUser s addr st).
Proof.
  unfold indexFoundUser. destruct (uid s) as [u|]; [|apply Kept_refl].
  destruct (heap st !! addr); [|apply Kept_refl].
  destruct (String.eqb u ""); [apply Kept_refl|].
  by apply Kept_same_index.
Qed.

Lemma touchFound_kept now c addr st : Kept st (touchFound now c addr st).2.
Proof.
  unfold touchFound. destruct (heap st !! addr) as [sess|];
    [|apply Kept_refl].
  destruct (needsTouch now (data sess)); [|apply Kept_refl].
  pose proof (save_kept addr (freshId c) (written c)
                (touchData now addr st)) as Hs.
  destruct (save addr (freshId c) (written c) (touchData now addr st))
    as [called st2]. simpl in *.
  eapply Kept_trans; [apply touchData_kept|exact Hs].
Qed.

Lemma foundSteps_kept c answer sid st :
  Kept st (foundSteps c answer sid st).2.
Proof.
  unfold foundSteps.
  destruct (chooseFound (foundAt c) answer sid st) as [s sid'].
  pose proof (sessionFor_kept (foundAt c) s sid' st) as H1.
  destruct (sessionFor (foundAt c) s sid' st) as [addr st1]. simpl in H1.
  eapply Kept_trans; [exact H1|].
  eapply Kept_trans; [apply indexFound_kept|].
  eapply Kept_trans; [apply indexFoundUser_kept|].
  apply touchFound_kept.
Qed.

Lemma onFound_kept c sid st : Kept st (onFound c sid st).2.
Proof.
  unfold onFound. destruct (found c) as [e| |s0|docs];
    try apply foundSteps_kept.
  destruct (truthy e); [apply Kept_refl|apply foundSteps_kept].
Qed.

(** While [cleanupInactiveSessions.lastRun] is [undefined] the guard of
    the sweep is false. *)
Lemma sweepDue_undefined now st :
  lastRun st = NUndefined → sweepDue now st = false.
Proof. unfold sweepDue. by intros ->. Qed.

Lemma createSession_kept (c : Call) (st : Store) :
  lastRun st = NUndefined → Kept st (createSession c st).2.
Proof.
  intros Hrun. unfold createSession.
  assert (Kept st (let '(addr, st1) :=
                     newSession (clock c) anonymousData st in
                   (Some (mkCallback VNull (Some addr)),
                    nextTick (sweepDue (clock c) st1) (clock c) st1)).2)
    as Hanon.
  { simpl. rewrite sweepDue_undefined by done. by apply Kept_same_index. }
  destruct (sidArg c) as [sid|]; [|exact Hanon].
  destruct (String.eqb sid ""); [exact Hanon|].
  destruct (fastPath c sid st) as [r|] eqn:Hfast.
  - by eapply fastPath_kept.
  - rewrite sweepDue_undefined by done. simpl.
    eapply Kept_trans; [|apply onFound_kept]. by apply Kept_same_index.
Qed.

(** C2.  In a process where the sweep has not run yet
    ([cleanupInactiveSessions.lastRun] is still [undefined]), no sequence
    of [createSession] calls ever schedules it: the guard compares
    [undefined] with a number.  So no sweep runs and every session of the
    in-memory index stays there, however long it has been idle and
    whether or not a socket is bound to it. *)
Theorem sweep_never_scheduled (cs : list Call) (st : Store) :
  lastRun st = NUndefined →
  sweeps (createSessions cs st) = sweeps st
  ∧ lastRun (createSessions cs st) = NUndefined
  ∧ ∀ sid, is_Some (Obj.get sid (sessionIndex st))
           → is_Some (Obj.get sid (sessionIndex (createSessions cs st))).
Proof.
  revert st. induction cs as [|c cs IH]; intros st Hrun; simpl; [done|].
  destruct (createSession_kept c st Hrun) as (Ha & Hb & Hc).
  destruct (IH (createSession c st).2) as (Ha' & Hb' & Hc');
    [congruence|].
  repeat split; try congruence. intros sid H. by apply Hc', Hc.
Qed.

Lemma sweep_never_scheduled_witness :
  sweeps (createSessions laterCalls failingStore) = 0%nat
  ∧ lastRun (createSessions laterCalls failingStore) = NUndefined
  ∧ ∀ sid, is_Some (Obj.get sid (sessionIndex failingStore))
           → is_Some (Obj.get sid (sessionIndex
                                     (createSessions laterCalls
                                        failingStore))).
Proof.
  apply (sweep_never_scheduled laterCalls failingStore). reflexivity.
Defined.

(** The sweep itself does what the specification says.  First, its
    idle-timeout loop only selects sessions without a live socket. *)
Lemma idleSessions_no_socket (now : Z) (st : Store) (sid : string) :
  sid ∈ idleSessions now st → noLiveSocket sid st = true.
Proof.
  unfold idleSessions. intros H. apply list_elem_of_In, in_map_iff in H.
  destruct H as ([k addr] & <- & Hin). apply list_elem_of_In in Hin.
  apply list_elem_of_filter in Hin as [HP _]. simpl in *.
  by apply andb_prop in HP as [_ ?].
Qed.

(** ... and only sessions idle for longer than [sessionTimeout]. *)
Lemma idleSessions_timed_out (now : Z) (st : Store) (sid : string) :
  sid ∈ idleSessions now st →
  ∃ addr la, (sid, addr) ∈ sessionIndex st
             ∧ lastActiveAt addr st = Some la
             ∧ sessionTimeout (options st) < now - la.
Proof.
  unfold idleSessions. intros H. apply list_elem_of_In, in_map_iff in H.
  destruct H as ([k addr] & <- & Hin). apply list_elem_of_In in Hin.
  apply list_elem_of_filter in Hin as [HP Hin]. simpl in *.
  apply andb_prop in HP as [Hlt _]. unfold ltTime in Hlt.
  destruct (lastActiveAt addr st) as [la|] eqn:Hla; [|done].
  exists addr, la. repeat split; try done.
  apply Z.ltb_lt in Hlt. lia.
Qed.

Lemma removeSessionFromMemory_index sid st :
  sessionIndex (removeSessionFromMemory sid st)
  = Obj.delete sid (sessionIndex st).
Proof.
  unfold removeSessionFromMemory.
  destruct (Obj.get sid (sessionIndex st)) eqn:E; simpl; [done|].
  by rewrite delete_absent.
Qed.

Lemma removeAll_index (l : list string) st :
  sessionIndex (foldl (λ s sid, removeSessionFromMemory sid s) st l)
  = foldl (λ o k, Obj.delete k o) (sessionIndex st) l.
Proof.
  revert st. induction l as [|k l IH]; intros st; simpl; [done|].
  by rewrite IH, removeSessionFromMemory_index.
Qed.

(** Second, a run of the sweep removes from the in-memory index every
    session that is idle for longer than [sessionTimeout] and has no live
    socket. *)
Lemma cleanup_removes_idle (now : Z) (st : Store) (sid : string)
    (addr : nat) :
  NoDup (Obj.keys (sessionIndex st)) →
  Obj.get sid (sessionIndex st) = Some addr →
  ltTime (lastActiveAt addr st) (now - sessionTimeout (options st)) = true →
  noLiveSocket sid st = true →
  Obj.get sid (sessionIndex (cleanupInactiveSessions now st)) = None.
Proof.
  intros Hnd Hget Hidle Hsock. unfold cleanupInactiveSessions. simpl.
  rewrite removeAll_index. apply get_foldl_delete; [done|].
  apply elem_of_app. left. unfold idleSessions.
  apply list_elem_of_In, in_map_iff. exists (sid, addr). split; [done|].
  apply list_elem_of_In, list_elem_of_filter. split.
  - simpl. by rewrite Hidle, Hsock.
  - by apply get_Some_elem.
Qed.

(** Once [lastRun] holds a number the guard works: the same calls on the
    same store, but with a sweep recorded at time 0, do run the sweep and
    it removes the idle session. *)
Example sweep_runs_when_lastRun_is_set :
  let st := mkStore (heap failingStore) 1 [("s1", 0%nat)] [] ∅ 1 (NInt 0)
                    (options failingStore) [] 0 in
  sweeps (createSessions laterCalls st) = 3%nat
  ∧ Obj.get "s1" (sessionIndex (createSessions laterCalls st)) = None.
Proof. vm_compute. done. Qed.

End SessionFacts.

(** ** Script sandbox: compilation cache, cancellation and completion *)

Module ScriptFacts.
Import Js Script.

(** *** The compilation cache *)

(** A run never finds its array in the cache: it compiles. *)
Lemma compileFor_compiles (keys : list string) (s : Script) :
  CacheBelow s →
  let '(f, s') := compileFor keys s in
  fnId f = compiled s
  ∧ compiled s' = S (compiled s)
  ∧ size (cache s') = S (size (cache s))
  ∧ scriptSourceCode s' = scriptSourceCode s
  ∧ CacheBelow s'.
Proof.
  intros Hbelow. unfold compileFor, getFunction. simpl.
  destruct (cache s !! nextRef s) as [f|] eqn:Hhit.
  { apply Hbelow in Hhit. lia. }
  simpl. repeat split; try done.
  - by rewrite map_size_insert_None.
  - intros ref f. simpl. destruct (decide (nextRef s = ref)) as [<-|Hne].
    + intros _. lia.
    + rewrite lookup_insert_ne by done. intros H. apply Hbelow in H. lia.
Qed.

Lemma compileAll_compiles (contexts : list (list string)) (s : Script) :
  CacheBelow s →
  compiled (compileAll contexts s).2
  = (compiled s + length contexts)%nat
  ∧ size (cache (compileAll contexts s).2)
    = (size (cache s) + length contexts)%nat
  ∧ map fnId (compileAll contexts s).1
    = seq (compiled s) (length contexts).
Proof.
  revert s. induction contexts as [|keys rest IH]; intros s Hbelow; simpl.
  - repeat split; lia.
  - pose proof (compileFor_compiles keys s Hbelow) as H1.
    destruct (compileFor keys s) as [f s1].
    destruct H1 as (Hid & Hc & Hsz & _ & Hb1).
    destruct (IH s1 Hb1) as (Hc' & Hsz' & Hids).
    destruct (compileAll rest s1) as [fs s2]. simpl in *.
    rewrite Hc', Hsz', Hids, Hc, Hsz, Hid. repeat split; lia.
Qed.

(** C5.  The cache of compiled callables is keyed by the identity of the
    array of variable names, and every run builds a new array: [n] runs
    of one script compile [n] times and leave [n] entries in the cache,
    whatever names their contexts expose, and no two runs get the same
    function object, even when their contexts expose the same names in
    the same order. *)
Theorem compilation_never_reused
    (src : list Stmt) (contexts : list (list string)) :
  compiled (compileAll contexts (newScript src)).2 = length contexts
  ∧ size (cache (compileAll contexts (newScript src)).2) = length contexts
  ∧ NoDup (map fnId (compileAll contexts (newScript src)).1).
Proof.
  destruct (compileAll_compiles contexts (newScript src))
    as (Hc & Hsz & Hids).
  { intros ref f H. simpl in H. by rewrite lookup_empty in H. }
  simpl in *. rewrite map_size_empty in Hsz.
  repeat split; try done. rewrite Hids. apply NoDup_seq.
Qed.

(** Two runs with the same ordered variable names. *)
Example same_names_compile_twice :
  let names := ["cancel"; "me"; "query"] in
  let '(fs, s) := compileAll [names; names] (newScript [Mark "x"]) in
  compiled s = 2%nat ∧ map fnId fs = [0%nat; 1%nat]
  ∧ map params fs = [names; names].
Proof. vm_compute. done. Qed.

(** The first run of a new script compiles its source. *)
Lemma compileFor_new (keys : list string) (src : list Stmt) :
  body (compileFor keys (newScript src)).1 = src.
Proof. unfold compileFor, getFunction. simpl. by rewrite lookup_empty. Qed.

Lemma run_without_domain (g : Globals) (src : list Stmt) :
  let r := (exec src newRun).2 in
  let thrown := (exec src newRun).1 in
  state (run g (newScript src) None)
  = match thrown with Some e => setCtxError e r | None => r end
  ∧ scheduled (run g (newScript src) None)
    = Some (ctxError match thrown with
                     | Some e => setCtxError e r
                     | None => r
                     end).
Proof.
  unfold run. cbn -[compileFor exec scriptContext].
  pose proof (compileFor_new (Obj.keys (scriptContext None)) src) as Hbody.
  destruct (compileFor (Obj.keys (scriptContext None)) (newScript src))
    as [f s1]. simpl in Hbody. rewrite Hbody.
  by destruct (exec src newRun) as [[e|] r2].
Qed.

(** *** Cancellation *)

Lemma settle_nothing_outstanding (ids : list nat) (r : Run) :
  outstanding r = [] → foldl (λ r id, settle id r) r ids = r.
Proof.
  intros Hnone. induction ids as [|id ids IH]; simpl; [done|].
  unfold settle at 2. rewrite Hnone. simpl. exact IH.
Qed.

(** C3.  A hook that starts with [cancelIf(true, "nope", 403)], run
    without a domain: no later statement of the hook executes, and the
    completion callback is called once, but with the TypeError that the
    call [this.done(err)] inside [_cancel] raises, which carries no
    status code, instead of the error with status 403. *)
Theorem cancelIf_reports_missing_done
    (rest : list Stmt) (settlements : list nat) :
  let ran :=
    runToEnd nodeGlobals
      (newScript (CancelIf true (VString "nope") (Some 403) :: rest))
      None settlements in
  onDone (state ran) = [missingDone]
  ∧ statusCodeOf missingDone = None
  ∧ trace (state ran) = []
  ∧ cancelError (VString "nope") (Some 403)
    = VObject (Some "nope") None (Some 403).
Proof.
  unfold runToEnd.
  destruct (run_without_domain nodeGlobals
              (CancelIf true (VString "nope") (Some 403) :: rest))
    as [Hstate Hsched].
  rewrite Hsched, Hstate. cbn -[foldl].
  rewrite settle_nothing_outstanding by done. done.
Qed.

(** *** Completion *)

(** C1.  In Node's global scope, where no [fn] is defined, a call of
    [run] with a domain throws a ReferenceError out of
    [_setupDomainHandlers] before the hook is compiled or run: the
    promise of [run] is rejected, no domain function is dispatched and
    the completion callback is never called, whatever the hook and the
    domain are and however long one waits. *)
Theorem run_with_domain_never_completes
    (src : list Stmt) (domain : Domain) (settlements : list nat) :
  let ran := runToEnd nodeGlobals (newScript src) (Some domain)
                      settlements in
  rejected ran = Some (VError "ReferenceError" "fn is not defined" None)
  ∧ onDone (state ran) = []
  ∧ trace (state ran) = []
  ∧ outstanding (state ran) = [].
Proof. done. Qed.

Lemma Steady_refl r : Steady r r.
Proof. by intros H. Qed.

Lemma Steady_trans r1 r2 r3 : Steady r1 r2 → Steady r2 r3 → Steady r1 r3.
Proof.
  intros H12 H23 Hg. destruct (H12 Hg) as [Hg2 Hd2].
  destruct (H23 Hg2) as [Hg3 Hd3]. split; [done|].
  intros Hd. destruct (Hd2 Hd) as [Hd2' Ho2].
  destruct (Hd3 Hd2') as [Hd3' Ho3]. split; congruence.
Qed.

Lemma doneCallback_steady err r : Steady r (doneCallback err r).
Proof.
  intros Hg. pose proof Hg as (Hw & Hc & Hl). unfold doneCallback.
  destruct (isDone r) eqn:Hd; [done|].
  split; [|done]. repeat split; try done. simpl.
  rewrite length_app. simpl. lia.
Qed.

Lemma same_observables_steady r r' :
  waitingForCallback r' = waitingForCallback r →
  callbackCount r' = callbackCount r →
  isDone r' = isDone r → onDone r' = onDone r → Steady r r'.
Proof.
  intros Hw Hc Hd Ho (Hw' & Hc' & Hl). unfold Good.
  rewrite Hw, Hc, Hd, Ho. repeat split; done.
Qed.

Lemma emitAddCallback_steady r : Steady r (emitAddCallback r).
Proof.
  unfold emitAddCallback. destruct (addListener r); [|apply Steady_refl].
  by apply same_observables_steady.
Qed.

Lemma emitFinishCallback_steady r : Steady r (emitFinishCallback r).
Proof.
  unfold emitFinishCallback.
  destruct (finishListener r); [|apply Steady_refl].
  destruct (le0 _).
  - eapply Steady_trans; [|apply doneCallback_steady].
    by apply same_observables_steady.
  - by apply same_observables_steady.
Qed.

Lemma callWrapped_steady f callback r : Steady r (callWrapped f callback r).
Proof.
  unfold callWrapped. destruct (truthy (ctxError r)); [apply Steady_refl|].
  eapply Steady_trans; [apply emitAddCallback_steady|].
  destruct f as [|e].
  - by apply same_observables_steady.
  - eapply Steady_trans; [|apply doneCallback_steady].
    by apply same_observables_steady.
Qed.

Lemma exec_steady stmts r : Steady r (exec stmts r).2.
Proof.
  revert r. induction stmts as [|stmt rest IH]; intros r; simpl;
    [apply Steady_refl|].
  destruct stmt as [label|msg status|c msg status|c msg status|e
                    |fname callback]; simpl.
  - eapply Steady_trans; [|apply IH]. by apply same_observables_steady.
  - apply Steady_refl.
  - destruct c; [apply Steady_refl|apply IH].
  - destruct c; [apply IH|apply Steady_refl].
  - apply Steady_refl.
  - destruct (lookupExposed fname r) as [[[] f]|]; simpl.
    + eapply Steady_trans; [apply callWrapped_steady|apply IH].
    + destruct f as [|e]; simpl; [|apply Steady_refl].
      eapply Steady_trans; [|apply IH].
      by apply same_observables_steady.
    + apply Steady_refl.
Qed.

Lemma wrappedCallback_steady callback r :
  Steady r (wrappedCallback callback r).
Proof.
  unfold wrappedCallback.
  destruct (truthy (ctxError r)); [apply Steady_refl|].
  pose proof (exec_steady callback r) as He.
  destruct (exec callback r) as [[err|] r1]; simpl in He.
  - eapply Steady_trans; [exact He|].
    eapply Steady_trans; [|apply doneCallback_steady].
    by apply same_observables_steady.
  - eapply Steady_trans; [exact He|apply emitFinishCallback_steady].
Qed.

Lemma settle_steady id r : Steady r (settle id r).
Proof.
  unfold settle. destruct (find _ (outstanding r)) as [op|];
    [|apply Steady_refl].
  eapply Steady_trans;
    [|destruct (opWrapped op);
      [apply wrappedCallback_steady|apply exec_steady]].
  by apply same_observables_steady.
Qed.

Lemma settle_all_steady ids r :
  Steady r (foldl (λ r id, settle id r) r ids).
Proof.
  revert r. induction ids as [|id ids IH]; intros r; simpl;
    [apply Steady_refl|].
  eapply Steady_trans; [apply settle_steady|apply IH].
Qed.

Lemma nextTick_done finalError r :
  Good r → isDone (nextTick finalError r) = true
           ∧ Good (nextTick finalError r).
Proof.
  intros Hg. pose proof Hg as (Hw & Hc & Hl). unfold nextTick.
  rewrite Hw, Hc. simpl.
  destruct (doneCallback_steady finalError r Hg) as [Hg' _].
  split; [|done]. unfold doneCallback. by destruct (isDone r) eqn:Hd.
Qed.

Lemma run_good g s domain :
  Good (state (run g s domain)) .
Proof.
  unfold run. destruct (truthy (error s)); simpl; [done|].
  assert (Good newRun) as Hnew by done.
  assert (∀ r1, Good r1 →
            Good (state (let '(f, s1) :=
                           compileFor (Obj.keys (scriptContext domain)) s in
                         let '(thrown, r2) := exec (body f) r1 in
                         mkRan None
                           match thrown with
                           | Some e => setCtxError e r2
                           | None => r2
                           end
                           (Some (ctxError match thrown with
                                           | Some e => setCtxError e r2
                                           | None => r2
                                           end)) s1))) as Hbody.
  { intros r1 Hg1.
    destruct (compileFor (Obj.keys (scriptContext domain)) s) as [f s1].
    pose proof (exec_steady (body f) r1 Hg1) as [He _].
    destruct (exec (body f) r1) as [[e|] r2]; simpl in *; done. }
  destruct domain as [d|]; [|by apply Hbody].
  unfold setupDomainHandlers. destruct (globalFn g); [|done].
  by apply Hbody.
Qed.

(** Even where a global [fn] is defined, so that the wrappers are
    installed: the completion callback has been called exactly once when
    the next tick is over, and the operations that call back afterwards
    change nothing about it.  The counter that the wrappers keep is a
    property of [scriptContext], while the test on the next tick reads
    the two locals of [run], which nothing assigns. *)
Lemma completion_ignores_outstanding
    (g : Globals) (s : Script) (domain : option Domain)
    (settlements : list nat) (finalError : Value) :
  scheduled (run g s domain) = Some finalError →
  length (onDone (nextTick finalError (state (run g s domain)))) = 1%nat
  ∧ onDone (state (runToEnd g s domain settlements))
    = onDone (nextTick finalError (state (run g s domain))).
Proof.
  intros Hsched. unfold runToEnd. rewrite Hsched. simpl.
  destruct (nextTick_done finalError _ (run_good g s domain))
    as [Hdone Hgood].
  destruct (settle_all_steady settlements _ Hgood) as [_ Hfrozen].
  destruct (Hfrozen Hdone) as [_ Hsame].
  split; [|done]. destruct Hgood as (_ & _ & Hl). by rewrite Hdone in Hl.
Qed.

(** With a global [fn]: on the next tick the completion callback is
    called without an error while both operations are outstanding; when
    they call back later, in either order, the error of the second one is
    not reported. *)
Example completes_before_operations_settle :
  let ran := run withGlobalFn (newScript twoCalls) (Some twoAsync) in
  let ticked := nextTick VUndefined (state ran) in
  scheduled ran = Some VUndefined
  ∧ onDone ticked = [VUndefined]
  ∧ length (outstanding ticked) = 2%nat
  ∧ ctxCallbackCount ticked = NNaN
  ∧ onDone (state (runToEnd withGlobalFn (newScript twoCalls)
                     (Some twoAsync) [0%nat; 1%nat])) = [VUndefined]
  ∧ onDone (state (runToEnd withGlobalFn (newScript twoCalls)
                     (Some twoAsync) [1%nat; 0%nat])) = [VUndefined].
Proof. vm_compute. done. Qed.

End ScriptFacts.

(** ** Router: further properties of matching *)

Module RouterMoreFacts.
Import Js Router RouterMore RouterFacts.

Lemma splitSlash_length (cur s : string) :
  length (splitSlash cur s) = S (countSlash s).
Proof.
  revert cur. induction s as [|c s IH]; intros cur; simpl; [done|].
  destruct (Ascii.eqb c "/"); simpl; by rewrite IH.
Qed.

Lemma countSlash_app (a b : string) :
  countSlash (a +:+ b) = (countSlash a + countSlash b)%nat.
Proof.
  induction a as [|c a IH]; simpl; [done|].
  destruct (Ascii.eqb c "/"); simpl; by rewrite IH.
Qed.

(** [specificness] is 0 for the root paths and otherwise one more than the
    number of [/] in the path: empty pieces count, so [/a] scores 2, [/a/]
    scores 3 and a path without a slash scores 1.  A path continued by
    [/] and more text therefore always scores higher than the path
    itself. *)
Lemma specificness_counts_slashes (n p rest : string) :
  specificness (mkResource n p)
  = (if String.eqb p "" || String.eqb p "/" then 0
     else Z.of_nat (S (countSlash p)))
  ∧ (p ≠ "" → p ≠ "/" →
     specificness (mkResource n p)
     < specificness (mkResource n (p +:+ String "/" rest))).
Proof.
  assert (∀ q, specificness (mkResource n q)
               = if String.eqb q "" || String.eqb q "/" then 0
                 else Z.of_nat (S (countSlash q))) as Hclosed.
  { intros q. unfold specificness. simpl. destruct (_ || _); [done|].
    by rewrite splitSlash_length. }
  split; [apply Hclosed|]. intros H1 H2. rewrite !Hclosed.
  rewrite (proj2 (String.eqb_neq _ _) H1), (proj2 (String.eqb_neq _ _) H2).
  simpl.
  assert (String.eqb (p +:+ String "/" rest) "" = false) as ->.
  { destruct p; [done|]. reflexivity. }
  assert (String.eqb (p +:+ String "/" rest) "/" = false) as ->.
  { destruct p as [|c p]; [done|]. simpl.
    destruct (Ascii.eqb c "/"); [|done]. by destruct p. }
  simpl. rewrite countSlash_app. simpl. lia.
Qed.

Lemma specificness_counts_slashes_witness :
  specificness (mkResource "a" "/a")
  < specificness (mkResource "a" ("/a" +:+ String "/" "b")).
Proof.
  apply (proj2 (specificness_counts_slashes "a" "/a" "b")); discriminate.
Defined.

(** *** Paths that do not compile *)

Lemma parseTerms_leading_star (rest : string) :
  parseTerms None (String "*" rest) = None.
Proof. done. Qed.

Lemma compileKey_leading_star (rest : string) :
  isThrow (compileKey (String "*" rest)).
Proof.
  unfold compileKey, newRegExp.
  change (escapePath (String "*" rest)) with (String "*" (escapePath rest)).
  by rewrite parseTerms_leading_star.
Qed.

Lemma freshFilter_throws (url : string) (rs : list Resource) (r : Resource) :
  r ∈ rs → isThrow (compileKey (pathKey (path r))) →
  isThrow (freshFilter url rs).
Proof.
  induction rs as [|r0 rs IH]; intros Hin Hthrow.
  - by apply elem_of_nil in Hin.
  - simpl. apply elem_of_cons in Hin as [<-|Hin].
    + by destruct (compileKey (pathKey (path r))).
    + destruct (compileKey (pathKey (path r0))); [|done].
      specialize (IH Hin Hthrow). by destruct (freshFilter url rs).
Qed.

(** One resource whose path starts with [*] breaks the router for every
    URL: the pattern built from it has nothing to repeat, [new RegExp]
    throws, and [matchResources] throws with it whatever the other
    resources are (nothing is cached, so every call throws again). *)
Lemma matchResources_leading_star_throws
    (rs : list Resource) (r : Resource) (rest : string)
    (urls : list string) :
  r ∈ rs → path r = String "*" rest →
  Forall isThrow (matchAll urls (newRouter rs)).1.
Proof.
  intros Hin Hpath.
  destruct (matchAll_inv rs urls _ (newRouter_inv rs)) as [-> _].
  apply Forall_forall. intros res Hres.
  apply list_elem_of_In, in_map_iff in Hres as (url & <- & _).
  unfold freshMatch. destruct rs as [|r0 rs]; [by apply elem_of_nil in Hin|].
  simpl length. change (S (length rs) =? 0)%nat with false. cbv iota.
  assert (isThrow (freshFilter url (r0 :: rs))) as Ht.
  { apply (freshFilter_throws url _ r Hin). rewrite Hpath.
    change (pathKey (String "*" rest)) with (String "*" rest).
    apply compileKey_leading_star. }
  by destruct (freshFilter url (r0 :: rs)).
Qed.

Lemma matchResources_leading_star_throws_witness :
  Forall isThrow
    (matchAll ["/a"; "/x"]
       (newRouter [mkResource "a" "/a"; mkResource "s" "*x"])).1.
Proof.
  apply (matchResources_leading_star_throws
           [mkResource "a" "/a"; mkResource "s" "*x"]
           (mkResource "s" "*x") "x" ["/a"; "/x"]).
  - apply elem_of_cons. right. apply elem_of_cons. by left.
  - reflexivity.
Defined.

(** *** The cache of compiled patterns *)

Lemma generateRegex_size (p : string) (cache : gmap string RegExp) :
  (size cache ≤ 2000)%nat → (size (generateRegex p cache).2 ≤ 2000)%nat.
Proof.
  intros Hsz. unfold generateRegex.
  destruct (cache !! pathKey p) eqn:Hk; [done|].
  destruct (newRegExp _); [|done].
  destruct (Nat.ltb_spec (size cache) 2000); [|done].
  simpl. rewrite map_size_insert_None by done. lia.
Qed.

Lemma filterMatching_size (url : string) (rs : list Resource)
    (cache : gmap string RegExp) :
  (size cache ≤ 2000)%nat → (size (filterMatching url rs cache).2 ≤ 2000)%nat.
Proof.
  revert cache. induction rs as [|r rs IH]; intros cache Hsz; simpl; [done|].
  pose proof (generateRegex_size (path r) cache Hsz) as H1.
  destruct (generateRegex (path r) cache) as [[re|e] c1]; simpl in *; [|done].
  specialize (IH c1 H1).
  by destruct (filterMatching url rs c1) as [[m|e] c2].
Qed.

Lemma matchResources_regex_size (url : string) (st : State) :
  (size (pathRegexCache st) ≤ 2000)%nat →
  (size (pathRegexCache (matchResources url st).2) ≤ 2000)%nat.
Proof.
  intros Hsz. unfold matchResources.
  destruct (length (resources st) =? 0)%nat; [done|].
  set (st1 := if (lastResourceUpdate st =? length (resources st))%nat
              then st else _).
  assert (size (pathRegexCache st1) ≤ 2000)%nat as H1.
  { subst st1. by destruct (_ =? _)%nat. }
  destruct (routeCache st1 !! url); [done|].
  pose proof (filterMatching_size url (resources st1) _ H1) as H2.
  by destruct (filterMatching url (resources st1) (pathRegexCache st1))
    as [[m|e] rc].
Qed.

(** Over any sequence of lookups the cache of compiled patterns holds at
    most 2000 entries, and every pattern in it is the one that compiling
    its key gives: a cached pattern never answers for another path. *)
Lemma regex_cache_sound_and_bounded (rs : list Resource)
    (urls : list string) :
  (size (pathRegexCache (matchAll urls (newRouter rs)).2) ≤ 2000)%nat
  ∧ regexCacheOk (pathRegexCache (matchAll urls (newRouter rs)).2).
Proof.
  split; [|by destruct (matchAll_inv rs urls _ (newRouter_inv rs))
                as [_ []]].
  assert (∀ st, (size (pathRegexCache st) ≤ 2000)%nat →
                (size (pathRegexCache (matchAll urls st).2) ≤ 2000)%nat)
    as Hall.
  { induction urls as [|url urls IH]; intros st Hsz; simpl; [done|].
    pose proof (matchResources_regex_size url st Hsz) as H1.
    destruct (matchResources url st) as [r st1]. simpl in H1.
    specialize (IH st1 H1). by destruct (matchAll urls st1). }
  apply Hall. simpl. rewrite map_size_empty. lia.
Qed.

Lemma matchResources_star_free_witness :
  let rs := [mkResource "a" "/a"; mkResource "ab" "/a/b"] in
  let matched :=
    filter (λ r, specMatchb (pathKey (path r)) "/a/b/c" = true) rs in
  ∃ l, (matchResources "/a/b/c" (newRouter rs)).1 = Ok l
       ∧ (∀ r, r ∈ matched
               ↔ r ∈ rs ∧ SpecMatches (pathKey (path r)) "/a/b/c")
       ∧ l ≡ₚ matched
       ∧ StronglySorted (descending specificness) l
       ∧ ∀ k, filter (λ r, specificness r = k) l
              = filter (λ r, specificness r = k) matched.
Proof.
  apply (matchResources_star_free
           [mkResource "a" "/a"; mkResource "ab" "/a/b"] "/a/b/c").
  repeat constructor.
Defined.

End RouterMoreFacts.

(** ** Request context and error responder: further properties *)

Module ContextMoreFacts.
Import Js Http Context ContextMore Doh ContextFacts.

Lemma slice_app (base rest : string) :
  slice (String.length base) (base +:+ rest) = rest.
Proof. induction base as [|c base IH]; simpl; done. Qed.

Lemma extractUrl_slash (base full : string) :
  ∃ t, extractUrl base full = String "/" t.
Proof.
  unfold extractUrl.
  destruct (slice (String.length base) full)
    as [|[[] [] [] [] [] [] [] []] t]; simpl; eauto.
Qed.

(** [_extractUrl] removes the base path of the resource from a URL that
    starts with it and puts one [/] in front unless the rest already
    starts with one; whatever the two strings are, its result starts with
    [/], and extracting again with an empty base changes nothing. *)
Lemma extractUrl_strips_base (base rest full : string) :
  extractUrl base (base +:+ String "/" rest) = String "/" rest
  ∧ ((∀ t, rest ≠ String "/" t) →
       extractUrl base (base +:+ rest) = String "/" rest)
  ∧ (∃ t, extractUrl base full = String "/" t)
  ∧ extractUrl "" (extractUrl base full) = extractUrl base full.
Proof.
  split; [|split; [|split]].
  - unfold extractUrl. by rewrite slice_app.
  - intros Hne. unfold extractUrl. rewrite slice_app.
    destruct rest as [|[[] [] [] [] [] [] [] []] t]; simpl; try done.
    by destruct (Hne t).
  - apply extractUrl_slash.
  - destruct (extractUrl_slash base full) as [t ->]. done.
Qed.

(** *** What the header loop leaves alone *)

Lemma setHeaderIfFree_sameBody (res : Response)
    (entry : string * HeaderValue) :
  sameBody res (setHeaderIfFree res entry).
Proof.
  destruct entry as [h v]. unfold setHeaderIfFree, setHeader.
  destruct (negb (headersSent res) && _); [|done].
  by destruct (placeholder res) eqn:E.
Qed.

Lemma foldl_setHeaderIfFree_sameBody (l : list (string * HeaderValue))
    (res : Response) :
  sameBody res (foldl setHeaderIfFree res l).
Proof.
  revert res. induction l as [|e l IH]; intros res; [done|]. cbn [foldl].
  destruct (setHeaderIfFree_sameBody res e) as (H1 & H2 & H3 & H4 & H5).
  destruct (IH (setHeaderIfFree res e)) as (I1 & I2 & I3 & I4 & I5).
  repeat split; congruence.
Qed.

Lemma setHeaders_sameBody (code : Z) (body : Body) (ct : string)
    (res res' : Response) :
  setHeaders code body ct res = Ok res' → sameBody res res'.
Proof.
  intros H. destruct (setHeaders_foldl _ _ _ _ _ H) as [hs ->].
  apply foldl_setHeaderIfFree_sameBody.
Qed.

(** [_setHeaders] throws exactly when it has to take the length of a
    body that is not a string. *)
Lemma setHeaders_returns (code : Z) (body : Body) (ct : string)
    (res : Response) :
  (∃ res', setHeaders code body ct res = Ok res')
  ↔ bodyless code = true ∨ isText body = true.
Proof.
  unfold setHeaders. destruct (bodyless code); simpl.
  - split; [by left|]. intros _. by eexists.
  - destruct body as [s|]; simpl.
    + split; [by right|]. intros _. destruct (negb (String.eqb s ""));
        by eexists.
    + split; [by intros [? ?]|]. by intros [?|?].
Qed.

Lemma setHeaderIfFree_keeps (res : Response)
    (entry : string * HeaderValue) (h : string) (v : HeaderValue) :
  headers res !! h = Some v → headerTruthy (Some v) = true →
  headers (setHeaderIfFree res entry) !! h = Some v.
Proof.
  intros Hh Hv. destruct entry as [name value].
  unfold setHeaderIfFree, getHeader, setHeader.
  destruct (placeholder res) eqn:Hp.
  - by destruct (negb (headersSent res) && _).
  - destruct (decide (toLowerCase name = h)) as [->|Hne].
    + rewrite Hh, Hv. simpl. by rewrite andb_false_r.
    + destruct (negb (headersSent res) && _); [|done].
      simpl. by rewrite lookup_insert_ne.
Qed.

Lemma foldl_setHeaderIfFree_keeps (l : list (string * HeaderValue))
    (res : Response) (h : string) (v : HeaderValue) :
  headers res !! h = Some v → headerTruthy (Some v) = true →
  headers (foldl setHeaderIfFree res l) !! h = Some v.
Proof.
  revert res. induction l as [|e l IH]; intros res Hh Hv; [done|].
  cbn [foldl]. apply IH; [|done]. by apply setHeaderIfFree_keeps.
Qed.

Lemma setHeaderIfFree_sent (res : Response)
    (entry : string * HeaderValue) :
  headersSent res = true → setHeaderIfFree res entry = res.
Proof.
  intros Hs. destruct entry as [name value]. unfold setHeaderIfFree.
  by rewrite Hs.
Qed.

Lemma foldl_setHeaderIfFree_sent (l : list (string * HeaderValue))
    (res : Response) :
  headersSent res = true → foldl setHeaderIfFree res l = res.
Proof.
  intros Hs. induction l as [|e l IH]; [done|]. cbn [foldl].
  by rewrite setHeaderIfFree_sent.
Qed.

Lemma endResponse_headers (chunk : option Chunk) (res res' : Response) :
  endResponse chunk res = Ok res' → headers res' = headers res.
Proof.
  unfold endResponse. destruct (placeholder res); [by intros [= <-]|].
  destruct (finished res); [by intros [= <-]|].
  destruct (negb (headersSent res) && _); [done|]. by intros [= <-].
Qed.

(** [end] on an open response of the server returns exactly when the
    head is out or the status code is valid. *)
Lemma endResponse_returns (chunk : option Chunk) (res : Response) :
  placeholder res = false → finished res = false →
  (∃ res', endResponse chunk res = Ok res')
  ↔ headersSent res = true ∨ validStatus (statusCode res) = true.
Proof.
  intros Hp Hf. split.
  - intros [res' H]. revert H. unfold endResponse. rewrite Hp, Hf.
    destruct (headersSent res); [by left|].
    destruct (validStatus (statusCode res)); [by right|done].
  - intros Hv. eexists. by apply endResponse_ok.
Qed.

(** The steps of a successful [done] after the payload has been looked
    at. *)
Lemma done_steps (code : Z) (body : Body) (ct : string) (res1 : Response) :
  placeholder res1 = false → finished res1 = false →
  let out :=
    match setHeaders code body ct res1 with
    | Throw e => (res1, Some e)
    | Ok res2 =>
        match
          if negb (bodyless code) then endWith body res2
          else endResponse None res2
        with
        | Ok res3 => (res3, None)
        | Throw e => (res2, Some e)
        end
    end in
  (out.2 = None
   ↔ (bodyless code = true ∨ isText body = true)
     ∧ (headersSent res1 = true ∨ validStatus (statusCode res1) = true))
  ∧ (out.2 = None →
     finished out.1 = true
     ∧ written out.1
       = (written res1 ++ if bodyless code then [] else chunkOf body)%list
     ∧ statusCode out.1 = statusCode res1).
Proof.
  intros Hp Hf. cbv zeta.
  destruct (setHeaders code body ct res1) as [res2|e] eqn:Hset.
  2:{ split; [|done]. split; [done|]. intros [Hbody _].
      apply (setHeaders_returns code body ct res1) in Hbody as [? ?].
      congruence. }
  assert (bodyless code = true ∨ isText body = true) as Hbody.
  { apply (setHeaders_returns code body ct res1). by eexists. }
  destruct (setHeaders_sameBody _ _ _ _ _ Hset) as (S1 & S2 & S3 & S4 & S5).
  rewrite Hp in S1. rewrite Hf in S2.
  assert (∀ chunk,
            let out := match endResponse chunk res2 with
                       | Ok res3 => (res3, None)
                       | Throw e => (res2, Some e)
                       end in
            (out.2 = None
             ↔ (bodyless code = true ∨ isText body = true)
               ∧ (headersSent res1 = true
                  ∨ validStatus (statusCode res1) = true))
            ∧ (out.2 = None →
               finished out.1 = true
               ∧ written out.1
                 = (written res1 ++ match chunk with
                                    | Some c => [c]
                                    | None => []
                                    end)%list
               ∧ statusCode out.1 = statusCode res1)) as Hend.
  { intros chunk. cbv zeta.
    pose proof (endResponse_returns chunk res2 S1 S2) as Hiff.
    rewrite S3, S4 in Hiff.
    destruct (endResponse chunk res2) as [res3|e] eqn:He.
    - split; [split; [intros _; split; [done|]; apply Hiff; by eexists
                     |done]|].
      intros _. assert (headersSent res2 = true
                        ∨ validStatus (statusCode res2) = true) as Hv.
      { rewrite S3, S4. apply Hiff. by eexists. }
      rewrite (endResponse_ok _ _ S1 S2 Hv) in He. injection He as <-.
      simpl. by rewrite S4, S5.
    - split; [|done]. split; [done|]. intros [_ Hv].
      apply Hiff in Hv as [? ?]. congruence. }
  destruct (bodyless code) eqn:Hb; simpl negb; cbv iota.
  - apply (Hend None).
  - destruct body as [s|]; [apply (Hend (Some (ChunkText s)))|].
    destruct Hbody as [?|?]; done.
Qed.

(** A successful [done] on an open response of the server returns
    exactly when the body is a string (or none is sent, the status read
    at the start being 204 or 304) and the head is out or the status
    code is one Node accepts.  It has then ended the response and
    written exactly one chunk, the text of the payload, or no chunk at
    all for 204 and 304; the status code is left as it is, except that a
    payload that cannot be serialised sets it to 500, while the test for
    a body still uses the status read before.  When it throws, the
    response is still open and nothing was written. *)
Lemma done_success_body (err : Value) (response : Payload)
    (res : Response) :
  placeholder res = false → finished res = false → truthy err = false →
  let r := doneOnResponse err response res in
  (r.2 = None
   ↔ (bodyless (statusBefore res) = true ∨ isText (bodyOf response) = true)
     ∧ (headersSent res = true
        ∨ validStatus (statusAfter response res) = true))
  ∧ (r.2 = None →
     finished r.1 = true
     ∧ written r.1
       = (written res
          ++ if bodyless (statusBefore res) then []
             else chunkOf (bodyOf response))%list
     ∧ statusCode r.1 = statusAfter response res)
  ∧ (r.2 ≠ None → finished r.1 = false ∧ written r.1 = written res).
Proof.
  intros Hp Hf Ht. cbv zeta. split; [|split].
  3:{ intros Hthrown.
      destruct (doneOnResponse err response res).2 as [e|] eqn:E; [|done].
      by apply (doneOnResponse_thrown err response res e). }
  all: unfold doneOnResponse, statusBefore, statusAfter; rewrite Hf, Ht;
    destruct response as [[json|]|s|n|b|]; cbv beta iota zeta;
    simpl bodyOf;
    match goal with
    | |- context [setHeaders ?code ?body ?ct ?res1] =>
        destruct (done_steps code body ct res1 Hp Hf) as [Hiff Hret]
    end; done.
Qed.

Lemma done_success_body_witness :
  let r := doneOnResponse VUndefined (PObject None)
             (setStatusCode 204 newResponse) in
  finished r.1 = true
  ∧ written r.1
    = (written (setStatusCode 204 newResponse)
       ++ if bodyless (statusBefore (setStatusCode 204 newResponse)) then []
          else chunkOf (bodyOf (PObject None)))%list
  ∧ statusCode r.1 = 500.
Proof.
  apply (proj1 (proj2 (done_success_body VUndefined (PObject None)
                         (setStatusCode 204 newResponse)
                         eq_refl eq_refl eq_refl))).
  reflexivity.
Defined.

Lemma setHeaders_first (code : Z) (body : Body) (ct : string)
    (res res' : Response) :
  setHeaders code body ct res = Ok res' →
  ∃ hs, res' = foldl setHeaderIfFree res
                 (("Cache-Control",
                   HString "no-cache, no-store, must-revalidate") :: hs).
Proof.
  unfold setHeaders. destruct (negb (bodyless code) && bodyTruthy body).
  - destruct (byteLength body) as [n|]; [|done]. intros H.
    exists ([("Pragma", HString "no-cache"); ("Expires", HString "0");
             ("Content-Type", HString ct)]
            ++ [("Content-Length", HNumber n)])%list.
    by injection H as <-.
  - intros H.
    exists [("Pragma", HString "no-cache"); ("Expires", HString "0");
            ("Content-Type", HString ct)].
    by injection H as <-.
Qed.

(** A successful [done] never replaces a header that is already set to
    a truthy value, a non-empty string or a number other than 0, and
    once the head has gone out no call of [done], with an error or
    without, changes any header.  A header that is set to the empty
    string or to 0 counts as not set: [done] replaces it. *)
Lemma done_keeps_headers (err : Value) (response : Payload)
    (res : Response) :
  (truthy err = false →
   ∀ h v, headers res !! h = Some v → headerTruthy (Some v) = true →
          headers (doneOnResponse err response res).1 !! h = Some v)
  ∧ (headersSent res = true →
     headers (doneOnResponse err response res).1 = headers res)
  ∧ (placeholder res = false → finished res = false →
     headersSent res = false → truthy err = false →
     (doneOnResponse err response res).2 = None →
     headerTruthy (headers res !! "cache-control") = false →
     headers (doneOnResponse err response res).1 !! "cache-control"
     = Some (HString "no-cache, no-store, must-revalidate")).
Proof.
  assert (∀ code body ct res1 (P : gmap string HeaderValue → Prop),
            (∀ res2, setHeaders code body ct res1 = Ok res2 →
                     P (headers res2)) →
            P (headers res1) →
            P (headers
                 (match setHeaders code body ct res1 with
                  | Throw e => (res1, Some e)
                  | Ok res2 =>
                      match
                        if negb (bodyless code) then endWith body res2
                        else endResponse None res2
                      with
                      | Ok res3 => (res3, None)
                      | Throw e => (res2, Some e)
                      end
                  end).1)) as Hsteps.
  { intros code body ct res1 P Hset Hthrown.
    destruct (setHeaders code body ct res1) as [res2|e]; [|done].
    specialize (Hset res2 eq_refl).
    destruct (negb (bodyless code)).
    - destruct body as [s|]; simpl.
      + destruct (endResponse _ res2) as [res3|e] eqn:He; [|done].
        simpl. by rewrite (endResponse_headers _ _ _ He).
      + by destruct (placeholder res2).
    - destruct (endResponse None res2) as [res3|e] eqn:He; [|done].
      simpl. by rewrite (endResponse_headers _ _ _ He). }
  split; [|split].
  - intros Ht h v Hh Hv. unfold doneOnResponse.
    destruct (finished res); [done|]. rewrite Ht.
    destruct response as [[json|]|s|n|b|]; cbv beta iota zeta;
      apply (Hsteps _ _ _ _ (λ hs, hs !! h = Some v)); try done;
      intros res2 Hset;
      destruct (setHeaders_foldl _ _ _ _ _ Hset) as [hs ->];
      by apply foldl_setHeaderIfFree_keeps.
  - intros Hs. unfold doneOnResponse.
    destruct (finished res) eqn:Hf; [done|].
    destruct (truthy err) eqn:Ht.
    + unfold respond, writableEnded. rewrite Ht. simpl.
      change (finished (setStatusCode _ res)) with (finished res).
      change (headersSent (setStatusCode _ res)) with (headersSent res).
      rewrite Hf, Hs. simpl.
      set (res0 := setStatusCode _ res).
      assert (headers (safeEnd res0) = headers res) as Hsafe.
      { unfold safeEnd, writableEnded.
        change (finished res0) with (finished res). rewrite Hf.
        destruct (endResponse None res0) eqn:He; [|done].
        by rewrite (endResponse_headers _ _ _ He). }
      destruct (serialisable (normalizePayload err)); [|done].
      destruct (endResponse _ res0) eqn:He; [|done].
      by rewrite (endResponse_headers _ _ _ He).
    + destruct response as [[json|]|s|n|b|]; cbv beta iota zeta;
        apply (Hsteps _ _ _ _ (λ hs, hs = headers res)); try done;
        intros res2 Hset;
        destruct (setHeaders_foldl _ _ _ _ _ Hset) as [hs ->];
        by rewrite foldl_setHeaderIfFree_sent.
  - intros Hp Hf Hs Ht. unfold doneOnResponse. rewrite Hf, Ht.
    assert (∀ code body ct res1,
              placeholder res1 = false → headersSent res1 = false →
              headers res1 = headers res →
              (match setHeaders code body ct res1 with
               | Throw e => (res1, Some e)
               | Ok res2 =>
                   match
                     if negb (bodyless code) then endWith body res2
                     else endResponse None res2
                   with
                   | Ok res3 => (res3, None)
                   | Throw e => (res2, Some e)
                   end
               end).2 = None →
              headerTruthy (headers res !! "cache-control") = false →
              headers (match setHeaders code body ct res1 with
                       | Throw e => (res1, Some e)
                       | Ok res2 =>
                           match
                             if negb (bodyless code) then endWith body res2
                             else endResponse None res2
                           with
                           | Ok res3 => (res3, None)
                           | Throw e => (res2, Some e)
                           end
                       end).1 !! "cache-control"
              = Some (HString "no-cache, no-store, must-revalidate"))
      as Hset.
    { intros code body ct res1 Hp1 Hs1 Hh1 Hret Hfalsy.
      destruct (setHeaders code body ct res1) as [res2|e] eqn:H2; [|done].
      assert (headers res2 !! "cache-control"
              = Some (HString "no-cache, no-store, must-revalidate"))
        as Hcc.
      { destruct (setHeaders_first _ _ _ _ _ H2) as [hs ->].
        cbn [foldl]. apply foldl_setHeaderIfFree_keeps; [|done].
        unfold setHeaderIfFree, getHeader, setHeader.
        rewrite Hp1, Hs1, Hh1.
        change (toLowerCase "Cache-Control") with "cache-control".
        rewrite Hfalsy. simpl. by rewrite lookup_insert_eq. }
      destruct (negb (bodyless code)).
      - destruct body as [s|]; simpl in *.
        + destruct (endResponse _ res2) as [res3|e] eqn:He; [|done].
          simpl. by rewrite (endResponse_headers _ _ _ He).
        + by destruct (placeholder res2).
      - destruct (endResponse None res2) as [res3|e] eqn:He; [|done].
        simpl. by rewrite (endResponse_headers _ _ _ He). }
    destruct response as [[json|]|s|n|b|]; cbv beta iota zeta;
      by apply Hset.
Qed.

Lemma done_keeps_headers_witness :
  let res := setHeader "Content-Type" (HString "text/csv") newResponse in
  headers (doneOnResponse VUndefined (PText "a,b") res).1 !! "content-type"
  = Some (HString "text/csv").
Proof.
  apply (proj1 (done_keeps_headers VUndefined (PText "a,b")
                  (setHeader "Content-Type" (HString "text/csv")
                             newResponse)));
    reflexivity.
Defined.

(** A header a handler set to the number 0 is replaced. *)
Example done_replaces_falsy_header :
  let res := setHeader "Cache-Control" (HNumber 0) newResponse in
  headers (doneOnResponse VUndefined (PText "x") res).1 !! "cache-control"
  = Some (HString "no-cache, no-store, must-revalidate").
Proof. by vm_compute. Qed.

(** [done(err)] on an open response of the server whose head has not
    gone out always returns and ends the response with a status from 400
    to 599: [err.statusCode] when that lies in the range and 500 when it
    is another non-zero number; without a [statusCode] it is [err.status]
    when that lies in the range and is not 500, and 400 otherwise (an
    error that only carries [status: 500] is answered with 400).  The
    body is one JSON chunk that carries a message; when the error cannot
    be serialised, the response is ended through [safeEnd] with no body
    at all. *)
Lemma done_error_status (err : Value) (response : Payload)
    (res : Response) :
  placeholder res = false → finished res = false →
  headersSent res = false → truthy err = true →
  let r := doneOnResponse err response res in
  r.2 = None
  ∧ inErrorRange (statusCode r.1) = true
  ∧ finished r.1 = true
  ∧ written r.1
    = (written res
       ++ if serialisable err then [ChunkJson (normalizePayload err)]
          else [])%list
  ∧ (serialisable err = true →
     ∃ m st sc, normalizePayload err = VObject (Some m) st sc)
  ∧ headers r.1 !! "content-type"
    = Some (HString "application/json; charset=utf-8")
  ∧ statusCode r.1
    = match statusCodeOf err with
      | Some sc =>
          if sc =? 0 then
            match statusOf err with
            | Some s => if inErrorRange s && negb (s =? 500) then s else 400
            | None => 400
            end
          else if inErrorRange sc then sc else 500
      | None =>
          match statusOf err with
          | Some s => if inErrorRange s && negb (s =? 500) then s else 400
          | None => 400
          end
      end.
Proof.
  intros Hp Hf Hs Ht. unfold doneOnResponse. rewrite Hf, Ht. cbv zeta.
  cbn [fst snd]. split; [done|].
  unfold respond, writableEnded. rewrite Ht.
  change (finished (setStatusCode _ res)) with (finished res).
  change (headersSent (setStatusCode _ res)) with (headersSent res).
  rewrite Hf, Hs. cbn [negb orb].
  set (status := if _ && _ then _ else _).
  assert (inErrorRange status = true) as Hrange.
  { subst status. destruct (_ && _) eqn:E.
    - by apply andb_prop in E as [_ ?].
    - apply normalizeStatus_range. }
  set (res1 := setHeader _ _ _).
  assert (placeholder res1 = false ∧ finished res1 = false
          ∧ statusCode res1 = status ∧ written res1 = written res
          ∧ headers res1 !! "content-type"
            = Some (HString "application/json; charset=utf-8"))
    as (Hp1 & Hf1 & Hc1 & Hw1 & Hh1).
  { subst res1. unfold setHeader. simpl. rewrite Hp. simpl.
    repeat split; try done. by rewrite lookup_insert_eq. }
  assert (∀ chunk,
            endResponse chunk res1
            = Ok (mkResponse false true true status (headers res1)
                    (written res ++ match chunk with
                                    | Some c => [c]
                                    | None => []
                                    end)%list)) as Hend.
  { intros chunk. rewrite (endResponse_ok chunk res1 Hp1 Hf1).
    - by rewrite Hc1, Hw1.
    - right. rewrite Hc1. by apply inErrorRange_valid. }
  assert (serialisable (normalizePayload err) = serialisable err) as Hser.
  { by destruct err as [| |s|n|n m sc|[m|] st sc|n m sc|[m|] st sc]. }
  assert (statusCode res1 = status →
          status
          = match statusCodeOf err with
            | Some sc =>
                if sc =? 0 then
                  match statusOf err with
                  | Some s =>
                      if inErrorRange s && negb (s =? 500) then s else 400
                  | None => 400
                  end
                else if inErrorRange sc then sc else 500
            | None =>
                match statusOf err with
                | Some s =>
                    if inErrorRange s && negb (s =? 500) then s else 400
                | None => 400
                end
            end) as Hformula.
  { intros _. subst status. unfold normalizeStatus.
    change (statusCode (setStatusCode ?c res)) with c.
    destruct (statusCodeOf err) as [sc|]; simpl.
    - destruct (Z.eqb_spec sc 0) as [->|Hne]; simpl.
      + destruct (statusOf err) as [s|]; [|done].
        destruct (inErrorRange s) eqn:E; [|done].
        by destruct (s =? 500) eqn:E5.
      + destruct (inErrorRange sc) eqn:E.
        * by destruct (sc =? 500).
        * done.
    - destruct (statusOf err) as [s|]; [|done].
      destruct (inErrorRange s) eqn:E; [|done].
      by destruct (s =? 500) eqn:E5. }
  rewrite Hser. destruct (serialisable err) eqn:Eser.
  - rewrite Hend. simpl. repeat split; try done.
    + intros _. destruct err as [| |s|n|n m sc|[m|] st sc|n m sc|[m|] st sc];
        simpl; try done; eauto.
    + by apply Hformula.
  - unfold safeEnd, writableEnded. rewrite Hf1, Hend. simpl.
    rewrite app_nil_r. repeat split; try done. by apply Hformula.
Qed.

Lemma done_error_status_witness :
  let err := VObject (Some "moved") None (Some 302) in
  let r := doneOnResponse err PAbsent newResponse in
  r.2 = None
  ∧ inErrorRange (statusCode r.1) = true
  ∧ finished r.1 = true
  ∧ written r.1 = (written newResponse ++ [ChunkJson (normalizePayload err)])%list
  ∧ (serialisable err = true →
     ∃ m st sc, normalizePayload err = VObject (Some m) st sc)
  ∧ headers r.1 !! "content-type"
    = Some (HString "application/json; charset=utf-8")
  ∧ statusCode r.1 = 500.
Proof.
  apply (done_error_status (VObject (Some "moved") None (Some 302)) PAbsent
           newResponse); reflexivity.
Defined.

(** An error that holds a cycle is answered with its status and no
    body. *)
Example done_error_unserialisable :
  let err := VObjectCyclic (Some "loop") None (Some 409) in
  let r := doneOnResponse err PAbsent newResponse in
  finished r.1 = true ∧ statusCode r.1 = 409 ∧ written r.1 = [].
Proof. vm_compute. done. Qed.

Lemma extractUrl_strips_base_witness :
  extractUrl "/todos" ("/todos" +:+ "?done=1") = String "/" "?done=1".
Proof.
  apply (proj1 (proj2 (extractUrl_strips_base "/todos" "?done=1" ""))).
  discriminate.
Defined.

(** *** The error handler of [doh.createHandler] *)

Lemma handleError_reported emitter res err h :
  Reported emitter res h → Reported emitter res (handleError err h).
Proof.
  intros [He Hr]. unfold handleError.
  destruct (truthy err) eqn:Ht; simpl; [|by split].
  destruct (hFinished h) eqn:Hf; simpl; [split; [done|by rewrite Hf]|].
  destruct Hr as [Hem Hres]. split; [done|]. simpl.
  exists err. rewrite He, Hem, Hres. by destruct emitter.
Qed.

Lemma handlerStep_reported emitter res h ev :
  Reported emitter res h → Reported emitter res (handlerStep h ev).
Proof.
  intros Hr. destruct ev as [isFunction result|rejection]; simpl.
  - unfold run. destruct (hFinished h || negb isFunction) eqn:E; [done|].
    apply orb_false_elim in E as [Hf _].
    assert (Reported emitter res
              (mkHandler (hFinished h) (hasEmitter h) (emitted h)
                         (S (invoked h)) (pending h) (hRes h))) as Hr1.
    { destruct Hr as [He Hr]. split; [done|]. simpl. by rewrite Hf in *. }
    destruct result as [|e|]; [done| |].
    + by apply handleError_reported.
    + destruct Hr1 as [He Hr1]. by split.
  - unfold promiseSettles. destruct (pending h) as [|n]; [done|].
    assert (Reported emitter res
              (mkHandler (hFinished h) (hasEmitter h) (emitted h)
                         (invoked h) n (hRes h))) as Hr1.
    { destruct Hr as [He Hr]. by split. }
    destruct rejection as [e|]; [|done]. by apply handleError_reported.
Qed.

Lemma handlerStep_inert h ev :
  hFinished h = true → sameOutcome h (handlerStep h ev).
Proof.
  intros Hf. destruct ev as [isFunction result|rejection]; simpl.
  - unfold run. by rewrite Hf.
  - unfold promiseSettles. destruct (pending h) as [|n]; [done|].
    destruct rejection as [e|]; [|done]. unfold handleError. simpl.
    rewrite Hf. by rewrite orb_true_r.
Qed.

Lemma handlerSteps_inert h evs :
  hFinished h = true → sameOutcome h (foldl handlerStep h evs).
Proof.
  revert h. induction evs as [|ev evs IH]; intros h Hf; simpl; [done|].
  destruct (handlerStep_inert h ev Hf) as (H1 & H2 & H3 & H4).
  destruct (IH (handlerStep h ev)) as (I1 & I2 & I3 & I4); [congruence|].
  repeat split; congruence.
Qed.

(** A handler from [createHandler] reports the first truthy error it
    meets and nothing else: over any sequence of [run] calls and promise
    settlements at most one [request:error] event is emitted, the
    responder is called for that error only, and once it has happened
    the handler invokes no further function and touches neither the
    events nor the response again. *)
Lemma handler_reports_first_error_only (emitter : bool) (res : Response)
    (evs more : list HandlerEvent) :
  let h := foldl handlerStep (createHandler emitter res) evs in
  (length (emitted h) ≤ 1)%nat
  ∧ (if hFinished h
     then ∃ err, truthy err = true ∧ hRes h = respond err res
                 ∧ emitted h = if emitter then [err] else []
     else emitted h = [] ∧ hRes h = res)
  ∧ (hFinished h = true → sameOutcome h (foldl handlerStep h more)).
Proof.
  assert (∀ h, Reported emitter res h →
               Reported emitter res (foldl handlerStep h evs)) as Hall.
  { induction evs as [|ev evs IH]; intros h Hr; simpl; [done|].
    by apply IH, handlerStep_reported. }
  destruct (Hall (createHandler emitter res)) as [He Hr]; [done|].
  cbv zeta. split; [|split; [done|apply handlerSteps_inert]].
  destruct (hFinished _).
  - destruct Hr as (err & _ & _ & ->). destruct emitter; simpl; lia.
  - destruct Hr as [-> _]. simpl. lia.
Qed.

Lemma handler_reports_first_error_only_witness :
  let evs := [Run true FnPromise; Run true (FnThrows (VString "boom"))] in
  let more := [PromiseSettles (Some (VString "late")); Run true FnReturns] in
  let h := foldl handlerStep (createHandler true newResponse) evs in
  sameOutcome h (foldl handlerStep h more).
Proof.
  apply (proj2 (proj2 (handler_reports_first_error_only true newResponse
           [Run true FnPromise; Run true (FnThrows (VString "boom"))]
           [PromiseSettles (Some (VString "late")); Run true FnReturns]))).
  reflexivity.
Defined.

End ContextMoreFacts.

(** ** Router: further properties of the dispatch *)

Module RouteMoreFacts.
Import Js Http Router Route RouteFacts.

Lemma route_marks_routed (handle : Resource → list Event)
    (sessionError : Value) (req : Request) (res : Response) (st : State) :
  routed (request (route handle sessionError req res st)) = true.
Proof.
  unfold route. destruct (routed req) eqn:Hr; [done|].
  destruct (truthy sessionError); [by destruct (routeCatch _ _)|].
  destruct (matchResources _ st) as [[cands|e] st1];
    [|by destruct (routeCatch _ _)].
  destruct (routeLoop handle cands false res) as [t [h r1|e r1|r1]];
    [|by destruct (routeCatch _ _)|done].
  destruct (negb h && _ && _); [by destruct (handle404 _)|done].
Qed.

(** A request is dispatched at most once: [route] marks the request in
    every outcome, and a call on a request that was routed before tries
    no candidate, calls no responder and leaves the response and the
    caches of the router as they are. *)
Lemma route_at_most_once (handle handle' : Resource → list Event)
    (sessionError sessionError' : Value) (req : Request) (res : Response)
    (st : State) :
  let first := route handle sessionError req res st in
  route handle' sessionError' (request first) (response first)
        (router first)
  = mkRouted (request first) (response first) (router first)
             (mkLog [] []) false.
Proof.
  cbv zeta. unfold route at 1.
  by rewrite route_marks_routed.
Qed.

(** *** Candidates that defer *)





(** *** A candidate that completes *)

(** When the most specific candidate calls [ctx.done] and that call
    returns, the dispatch is over: the response is what [done] made of
    it, no other candidate is tried and the router calls no responder of
    its own, also when [done] was given an error.  When [done] throws
    instead, the promise of the candidate is rejected with what was
    thrown, and the [catch] of the router answers. *)
Lemma route_done_wins (handle : Resource → list Event)
    (sessionError : Value) (req : Request) (res : Response) (st : State)
    (r : Resource) (rest : list Resource) (err : Value)
    (payload : Context.Payload) (evs : list Event) :
  routed req = false → truthy sessionError = false →
  finished res = false →
  (matchResources (reqUrl req) st).1 = Ok (r :: rest) →
  handle r = CallDone err payload :: DoneResumes :: evs →
  let out := route handle sessionError req res st in
  let done := Context.doneOnResponse err payload res in
  match done.2 with
  | None =>
      tried (log out) = [(r, Resolved)]
      ∧ responded (log out) = []
      ∧ response out = done.1
      ∧ suspended out = false
  | Some e =>
      tried (log out) = [(r, Rejected e)]
      ∧ responded (log out) = [(wrapThrown e, handOffStatus e)]
      ∧ response out = (routeCatch e done.1).2
      ∧ suspended out = false
  end.
Proof.
  intros Hr Hs Hf Hm Hh. cbv zeta. unfold route.
  rewrite Hr, Hs. simpl reqUrl.
  destruct (matchResources (reqUrl req) st) as [m st1]. simpl in Hm.
  subst m. simpl. unfold writableEnded. rewrite Hf, Hh. simpl.
  unfold ctxDoneCall. simpl.
  destruct (Context.doneOnResponse err payload res) as [res1 [e|]]; simpl;
    unfold ctxDoneResume, reject, resolve, setSettled, setHandled; simpl;
    rewrite runEvents_settled by done; simpl.
  - split; [done|]. split; [|done].
    pose proof (routeCatch_call e res1) as Hcall. simpl in Hcall.
    by rewrite Hcall.
  - done.
Qed.

Lemma route_done_wins_witness :
  let out := route (λ _, [CallDone forbidden Context.PAbsent; DoneResumes])
               VUndefined (mkRequest "/a/b/c" false) newResponse
               (newRouter [resourceA; resourceAB]) in
  tried (log out) = [(resourceAB, Resolved)]
  ∧ responded (log out) = []
  ∧ response out
    = (Context.doneOnResponse forbidden Context.PAbsent newResponse).1
  ∧ suspended out = false.
Proof.
  apply (route_done_wins
           (λ _, [CallDone forbidden Context.PAbsent; DoneResumes])
           VUndefined (mkRequest "/a/b/c" false) newResponse
           (newRouter [resourceA; resourceAB]) resourceAB [resourceA]
           forbidden Context.PAbsent []); reflexivity.
Defined.

(** With the status code 0 on the response, [done] throws while it
    writes the head: the candidate is rejected and the router answers
    with status 500. *)
Example route_done_throws :
  let out := route (λ _, [CallDone VUndefined (Context.PText "hi");
                          DoneResumes])
               VUndefined (mkRequest "/a" false)
               (setStatusCode 0 newResponse) (newRouter [resourceA]) in
  tried (log out) = [(resourceA, Rejected (invalidStatusCode 0))]
  ∧ responded (log out) = [(invalidStatusCode 0, 500)]
  ∧ statusCode (response out) = 500
  ∧ finished (response out) = true.
Proof. vm_compute. done. Qed.

(** *** The order of the attempts *)

Lemma routeLoop_in_order (handle : Resource → list Event)
    (cands : list Resource) :
  ∀ (handled : bool) (res : Response),
    let t := (routeLoop handle cands handled res).1 in
    map fst t `prefix_of` cands
    ∧ ∀ i r s, t !! i = Some (r, s) → (S i < length t)%nat → s = Resolved.
Proof.
  induction cands as [|c cs IH]; intros handled res; cbv zeta; simpl.
  - split; [done|]. by intros [|i] r s H.
  - assert (∀ s0, map fst [(c, s0)] `prefix_of` c :: cs
              ∧ ∀ i r s, [(c, s0)] !! i = Some (r, s) →
                         (S i < length [(c, s0)])%nat → s = Resolved)
      as Hone.
    { intros s0. split; [apply prefix_cons, prefix_nil|].
      intros i r s _ Hlt. simpl in Hlt. lia. }
    assert (∀ h' res',
              let t := (c, Resolved) :: (routeLoop handle cs h' res').1 in
              map fst t `prefix_of` c :: cs
              ∧ ∀ i r s, t !! i = Some (r, s) →
                         (S i < length t)%nat → s = Resolved) as Hrec.
    { intros h' res'. destruct (IH h' res') as [Hpre Hres]. cbv zeta.
      split; [simpl; by apply prefix_cons|].
      intros [|i] r s; simpl; [by intros [= _ <-]|].
      intros Hi Hlt. apply (Hres i r s Hi). lia. }
    destruct (handled || writableEnded res).
    { split; [apply prefix_nil|]. by intros [|i] r s H. }
    set (a := runEvents (handle c) (newAttempt handled res)).
    destruct (promise a) as [| |e]; [apply Hone| |apply Hone].
    destruct (nextRequested a).
    + specialize (Hrec (Route.handled a) (Route.res a)).
      by destruct (routeLoop handle cs (Route.handled a) (Route.res a)).
    + destruct (Route.handled a || writableEnded (Route.res a)
                || headersSent (Route.res a)); [apply Hone|].
      specialize (Hrec (Route.handled a) (Route.res a)).
      by destruct (routeLoop handle cs (Route.handled a) (Route.res a)).
Qed.

(** The handlers run one at a time, in the order [matchResources] gave:
    the candidates tried are a prefix of the matching resources, and a
    candidate is only tried after the promise of every candidate before
    it was fulfilled (the last one alone may be rejected or pending). *)
Lemma route_tries_in_order (handle : Resource → list Event)
    (sessionError : Value) (req : Request) (res : Response) (st : State) :
  let t := tried (log (route handle sessionError req res st)) in
  (∀ cands, (matchResources (reqUrl req) st).1 = Ok cands →
            map fst t `prefix_of` cands)
  ∧ ∀ i r s, t !! i = Some (r, s) → (S i < length t)%nat → s = Resolved.
Proof.
  cbv zeta. unfold route.
  assert (∀ l : list Resource, map fst (@nil (Resource * Settlement))
                               `prefix_of` l) as Hnil
    by (intros l; apply prefix_nil).
  assert (∀ i r s, (@nil (Resource * Settlement)) !! i = Some (r, s) →
                   (S i < 0)%nat → s = Resolved) as Hnone.
  { by intros [|i] r s H. }
  destruct (routed req); [by split|].
  destruct (truthy sessionError); [by destruct (routeCatch _ _)|].
  simpl reqUrl.
  destruct (matchResources (reqUrl req) st) as [[cands|e] st1];
    [|by destruct (routeCatch _ _)].
  destruct (routeLoop_in_order handle cands false res) as [Hpre Hres].
  assert (∀ cands', @Ok Value _ cands = Ok cands' →
            map fst (routeLoop handle cands false res).1
            `prefix_of` cands') as Hpre'.
  { by intros cands' [= <-]. }
  destruct (routeLoop handle cands false res) as [t [h r1|e r1|r1]];
    simpl in *.
  - destruct (negb h && _ && _); [destruct (handle404 r1)|]; by split.
  - destruct (routeCatch e r1). by split.
  - by split.
Qed.

Lemma route_tries_in_order_witness :
  map fst (tried (log (route handlers VUndefined (mkRequest "/a/b/c" false)
                         newResponse (newRouter [resourceA; resourceAB]))))
  `prefix_of` [resourceAB; resourceA].
Proof.
  apply (proj1 (route_tries_in_order handlers VUndefined
                  (mkRequest "/a/b/c" false) newResponse
                  (newRouter [resourceA; resourceAB]))).
  reflexivity.
Defined.

End RouteMoreFacts.

(** ** Session registry: further properties *)

Module SessionMoreFacts.
Import Js Session SessionMore ObjFacts SessionFacts.

Lemma get_delete_ne {V : Type} (o : Obj.t V) (k k' : string) :
  k ≠ k' → Obj.get k' (Obj.delete k o) = Obj.get k' o.
Proof.
  intros Hne. induction o as [|[k0 v0] o IH]; simpl; [done|].
  destruct (String.eqb_spec k0 k) as [->|Hk].
  - by apply String.eqb_neq in Hne as ->.
  - simpl. by rewrite IH.
Qed.




(** *** [save] *)

(** When the store answers a save with an error (a truthy one, as a
    caught exception is), [save] hands that error to its callback and
    nothing in memory changes: the session keeps its data (an anonymous
    session stays anonymous and without an id) and no index gains an
    entry.  At most the one failed write was issued. *)
Lemma save_write_error (addr : nat) (freshId : string) (e : Value)
    (st : Store) :
  truthy e = true →
  let r := save addr freshId (WriteError e) st in
  heap r.2 = heap st
  ∧ sessionIndex r.2 = sessionIndex st
  ∧ userSessionIndex r.2 = userSessionIndex st
  ∧ sessionCount r.2 = sessionCount st
  ∧ ((r.1 = Some e ∧ ∃ op, isWrite op = true ∧ r.2 = logDb op st)
     ∨ r.2 = st).
Proof.
  intros Ht. cbv zeta. unfold save.
  destruct (heap st !! addr) as [this|]; [|tauto].
  destruct (anonymous (data this)); simpl; rewrite ?Ht.
  - do 4 (split; [done|]). left. split; [done|].
    eexists. split; [|reflexivity]. done.
  - destruct (negb (typeofString (id (data this)))); [tauto|].
    destruct (idTruthy (id (data this))); [|tauto]. simpl. rewrite ?Ht.
    do 4 (split; [done|]). left. split; [done|].
    eexists. split; [|reflexivity]. done.
Qed.

Lemma save_write_error_witness :
  let e := VError "MongoNetworkError" "connection lost" None in
  let r := save 0 "fresh" (WriteError e) twoSessions in
  heap r.2 = heap twoSessions
  ∧ sessionIndex r.2 = sessionIndex twoSessions
  ∧ userSessionIndex r.2 = userSessionIndex twoSessions
  ∧ sessionCount r.2 = sessionCount twoSessions
  ∧ ((r.1 = Some e ∧ ∃ op, isWrite op = true ∧ r.2 = logDb op twoSessions)
     ∨ r.2 = twoSessions).
Proof.
  apply (save_write_error 0 "fresh"
           (VError "MongoNetworkError" "connection lost" None) twoSessions).
  reflexivity.
Defined.

(** A successful [save] of an anonymous session inserts its data under
    the new identifier, without the [anonymous] mark, and then indexes
    the session object itself under the new identifier.  The data of the
    session is replaced by the document the store answers with, whatever
    that holds: [insert] of [lib/db.js] answers with the id alone, and
    the session then has no [lastActive] and names no user.  Only when
    the answer names a user is the session put into the index of that
    user, where [getSession] finds it. *)
Lemma save_anonymous_indexes (addr : nat) (freshId : string)
    (res : Data) (st : Store) (this : Session) :
  heap st !! addr = Some this → anonymous (data this) = true →
  let r := save addr freshId (WriteOk res) st in
  r.1 = Some VNull
  ∧ dbLog r.2
    = (dbLog st
       ++ [DbInsert (withId (IdString freshId)
                       (withoutAnonymous (data this)))])%list
  ∧ Obj.get freshId (sessionIndex r.2) = Some addr
  ∧ heap r.2 !! addr = Some (mkSession res (id res))
  ∧ (∀ u, uid res = Some u → u ≠ "" →
          getSession u (keyOf (id res)) r.2 = Some addr)
  ∧ (uid res = None → userSessionIndex r.2 = userSessionIndex st).
Proof.
  intros Hthis Hanon. cbv zeta. unfold save.
  rewrite Hthis, Hanon. simpl. unfold stored.
  destruct (uid res) as [u|] eqn:Hu.
  - destruct (String.eqb_spec u "") as [->|Hne]; simpl.
    + rewrite get_set_eq, lookup_insert_eq. repeat split; try done.
      by intros u' [= <-].
    + unfold getSession, indexUser. simpl.
      rewrite !get_set_eq, lookup_insert_eq. repeat split; try done.
      intros u' [= <-] _. by rewrite !get_set_eq.
  - simpl. rewrite get_set_eq, lookup_insert_eq. done.
Qed.

Lemma save_anonymous_indexes_witness :
  let res := mkData (IdString "fresh") false None None None [] in
  let st := (newSession 7 anonymousData (newStore
               (defaultOptions None None None None))).2 in
  let r := save 0 "fresh" (WriteOk res) st in
  r.1 = Some VNull
  ∧ dbLog r.2
    = (dbLog st
       ++ [DbInsert (withId (IdString "fresh")
                       (withoutAnonymous
                          (mkData IdUndefined true (Some 7) (Some 7)
                                  None [])))])%list
  ∧ Obj.get "fresh" (sessionIndex r.2) = Some 0%nat
  ∧ heap r.2 !! 0%nat = Some (mkSession res (IdString "fresh"))
  ∧ (∀ u, uid res = Some u → u ≠ "" →
          getSession u (keyOf (id res)) r.2 = Some 0%nat)
  ∧ (uid res = None → userSessionIndex r.2 = userSessionIndex st).
Proof.
  apply (save_anonymous_indexes 0 "fresh"
           (mkData (IdString "fresh") false None None None [])
           (newSession 7 anonymousData (newStore
              (defaultOptions None None None None))).2
           (mkSession (mkData IdUndefined true (Some 7) (Some 7) None [])
                      IdUndefined));
    reflexivity.
Defined.

(** *** What a call writes *)

Lemma Logged_same n st st' : dbLog st' = dbLog st → Logged n st st'.
Proof.
  intros H. exists []. rewrite H, app_nil_r. split; [done|]. simpl. lia.
Qed.

Lemma Logged_trans n m st1 st2 st3 :
  Logged n st1 st2 → Logged m st2 st3 → Logged (n + m) st1 st3.
Proof.
  intros (o1 & H1 & L1) (o2 & H2 & L2). exists (o1 ++ o2)%list.
  rewrite H2, H1, <- app_assoc. split; [done|].
  rewrite filter_app, length_app. lia.
Qed.

Lemma Logged_mono n m st st' :
  (n ≤ m)%nat → Logged n st st' → Logged m st st'.
Proof. intros Hle (o & H & L). exists o. split; [done|lia]. Qed.

Lemma Logged_writes n st st' :
  Logged n st st' → (length (writesBetween st st') ≤ n)%nat.
Proof.
  intros (o & H & L). unfold writesBetween.
  by rewrite H, drop_app_length.
Qed.

Lemma logDb_logged op st :
  Logged (if isWrite op then 1 else 0) st (logDb op st).
Proof.
  exists [op]. split; [done|].
  rewrite filter_cons, filter_nil.
  destruct (decide (isWrite op = true)) as [->|Hn]; simpl; [lia|].
  destruct (isWrite op); simpl; lia.
Qed.

Lemma storedNothing_dbLog addr sid st :
  dbLog (storedNothing addr sid st) = dbLog st.
Proof. done. Qed.

Lemma save_logged addr freshId answer st :
  Logged 1 st (save addr freshId answer st).2.
Proof.
  unfold save. destruct (heap st !! addr) as [this|];
    [|by apply Logged_same].
  assert (∀ op d k, isWrite op = true →
            Logged 1 st (stored addr k d (logDb op st))) as Hst.
  { intros op d k Hw. apply (Logged_trans 1 0 st (logDb op st)).
    - pose proof (logDb_logged op st) as H. by rewrite Hw in H.
    - apply Logged_same, stored_dbLog. }
  assert (∀ op, isWrite op = true → Logged 1 st (logDb op st)) as Hlog.
  { intros op Hw. pose proof (logDb_logged op st) as H.
    by rewrite Hw in H. }
  destruct (anonymous (data this)); simpl.
  - destruct answer as [e|res]; simpl; [|by apply Hst].
    destruct (truthy e); simpl; [by apply Hlog|].
    eapply (Logged_trans 1 0); [|by apply Logged_same, storedNothing_dbLog].
    by apply Hlog.
  - destruct (negb (typeofString (id (data this))));
      [by apply Logged_same|].
    destruct (idTruthy (id (data this))); [|by apply Logged_same].
    destruct answer as [e|res]; simpl; [|by apply Hst].
    destruct (truthy e); simpl; [by apply Hlog|by apply Hst].
Qed.

Lemma touchData_dbLog now addr st : dbLog (touchData now addr st) = dbLog st.
Proof. unfold touchData. by destruct (heap st !! addr). Qed.

Lemma touchFound_logged now c addr st :
  Logged 1 st (touchFound now c addr st).2.
Proof.
  unfold touchFound. destruct (heap st !! addr) as [sess|];
    [|by apply Logged_same].
  destruct (needsTouch now (data sess)); [|by apply Logged_same].
  pose proof (save_logged addr (freshId c) (written c)
                (touchData now addr st)) as Hs.
  destruct (save addr (freshId c) (written c) (touchData now addr st))
    as [called st2]. simpl in *.
  apply (Logged_trans 0 1 st (touchData now addr st)); [|done].
  apply Logged_same, touchData_dbLog.
Qed.

Lemma fastPath_logged c sid st r :
  fastPath c sid st = Some r → Logged 1 st r.2.
Proof.
  unfold fastPath.
  destruct (Obj.get sid (sessionIndex st)) as [addr|]; [|done].
  destruct (heap st !! addr) as [cached|]; [|done].
  destruct (lastActive (data cached)) as [la|]; [|done].
  destruct (clock c - maxAge (options st) <=? la); [|done].
  destruct (needsTouch (clock c) (data cached)).
  - pose proof (save_logged addr (freshId c) (written c)
                  (touchData (clock c) addr st)) as Hs.
    destruct (save addr (freshId c) (written c)
                (touchData (clock c) addr st)) as [called st2].
    intros [= <-]. simpl in *.
    apply (Logged_trans 0 1 st (touchData (clock c) addr st)); [|done].
    apply Logged_same, touchData_dbLog.
  - intros [= <-]. by apply Logged_same.
Qed.

Lemma indexFoundUser_dbLog s addr st :
  dbLog (indexFoundUser s addr st) = dbLog st.
Proof.
  unfold indexFoundUser. destruct (uid s) as [u|]; [|done].
  destruct (heap st !! addr); [|done]. by destruct (String.eqb u "").
Qed.

Lemma indexFound_dbLog sid addr st : dbLog (indexFound sid addr st) = dbLog st.
Proof.
  unfold indexFound. destruct sid as [k|]; [|done].
  by destruct (Obj.get _ _).
Qed.

Lemma sessionFor_dbLog now s sid st :
  dbLog (sessionFor now s sid st).2 = dbLog st.
Proof. unfold sessionFor. by destruct (Obj.get _ _). Qed.

Lemma foundSteps_logged c answer sid st :
  Logged 1 st (foundSteps c answer sid st).2.
Proof.
  unfold foundSteps.
  destruct (chooseFound (foundAt c) answer sid st) as [s sid'].
  pose proof (sessionFor_dbLog (foundAt c) s sid' st) as H1.
  destruct (sessionFor (foundAt c) s sid' st) as [addr st1].
  simpl in H1.
  apply (Logged_trans 0 1 st
           (indexFoundUser s addr (indexFound sid' addr st1)));
    [|apply touchFound_logged].
  apply Logged_same.
  by rewrite indexFoundUser_dbLog, indexFound_dbLog.
Qed.

Lemma onFound_logged c sid st : Logged 1 st (onFound c sid st).2.
Proof.
  unfold onFound. destruct (found c) as [e| |d|docs];
    try apply foundSteps_logged.
  destruct (truthy e); [by apply Logged_same|apply foundSteps_logged].
Qed.

(** *** What the sweep leaves alone *)

Lemma removeSessionFromMemory_same sid st :
  sameObjects st (removeSessionFromMemory sid st)
  ∧ dbLog (removeSessionFromMemory sid st) = dbLog st.
Proof.
  unfold removeSessionFromMemory, sameObjects.
  by destruct (Obj.get sid (sessionIndex st)).
Qed.

Lemma removeAll_same (l : list string) st :
  sameObjects st (foldl (λ s sid, removeSessionFromMemory sid s) st l)
  ∧ dbLog (foldl (λ s sid, removeSessionFromMemory sid s) st l) = dbLog st.
Proof.
  revert st. induction l as [|k l IH]; intros st; simpl; [done|].
  destruct (removeSessionFromMemory_same k st) as [(H1 & H2 & H3) H4].
  destruct (IH (removeSessionFromMemory k st)) as [(I1 & I2 & I3) I4].
  unfold sameObjects. repeat split; congruence.
Qed.

Lemma cleanup_same now st :
  sameObjects st (cleanupInactiveSessions now st)
  ∧ dbLog (cleanupInactiveSessions now st)
    = (dbLog st ++ [DbRemoveStale (now - maxAge (options st))])%list.
Proof.
  unfold cleanupInactiveSessions. simpl.
  destruct (removeAll_same (idleSessions now st ++ oldestSessions st) st)
    as [(H1 & H2 & H3) H4].
  unfold sameObjects. rewrite H1, H2, H3, H4. done.
Qed.

Lemma get_foldl_delete_None {V : Type} (l : list string) (o : Obj.t V) k :
  Obj.get k o = None →
  Obj.get k (foldl (λ o' k', Obj.delete k' o') o l) = None.
Proof.
  revert o. induction l as [|k0 l IH]; intros o H; simpl; [done|].
  by apply IH, get_delete_None.
Qed.

Lemma get_foldl_delete_other {V : Type} (l : list string) (o : Obj.t V) k :
  k ∉ l →
  Obj.get k (foldl (λ o' k', Obj.delete k' o') o l) = Obj.get k o.
Proof.
  revert o. induction l as [|k0 l IH]; intros o H; simpl; [done|].
  apply not_elem_of_cons in H as [Hne Hl].
  rewrite IH by done. by apply get_delete_ne.
Qed.

Lemma cleanup_absent now st k :
  Obj.get k (sessionIndex st) = None →
  Obj.get k (sessionIndex (cleanupInactiveSessions now st)) = None.
Proof.
  intros H. unfold cleanupInactiveSessions. simpl.
  rewrite removeAll_index. by apply get_foldl_delete_None.
Qed.

Lemma nextTick_logged due now st : Logged 0 st (nextTick due now st).
Proof.
  unfold nextTick. destruct due; [|by apply Logged_same].
  destruct (cleanup_same now st) as [_ H].
  exists [DbRemoveStale (now - maxAge (options st))]. split; [done|].
  rewrite filter_cons, filter_nil.
  destruct (decide _) as [Hw|Hn]; [done|]. simpl. lia.
Qed.

Lemma nextTick_same due now st : sameObjects st (nextTick due now st).
Proof.
  unfold nextTick. destruct due; [|done]. apply cleanup_same.
Qed.

Lemma nextTick_absent due now st k :
  Obj.get k (sessionIndex st) = None →
  Obj.get k (sessionIndex (nextTick due now st)) = None.
Proof.
  unfold nextTick. destruct due; [|done]. apply cleanup_absent.
Qed.

Lemma createSession_logged (c : Call) (st : Store) :
  Logged 1 st (createSession c st).2.
Proof.
  assert (Logged 1 st
            (let '(addr, st1) := newSession (clock c) anonymousData st in
             (Some (mkCallback VNull (Some addr)),
              nextTick (sweepDue (clock c) st1) (clock c) st1)).2) as Hanon.
  { simpl. apply (Logged_mono 0); [lia|].
    apply (Logged_trans 0 0 st (newSession (clock c) anonymousData st).2);
      [by apply Logged_same|apply nextTick_logged]. }
  unfold createSession. destruct (sidArg c) as [sid|]; [|exact Hanon].
  destruct (String.eqb sid ""); [exact Hanon|].
  destruct (fastPath c sid st) as [r|] eqn:Hfast;
    [by apply (fastPath_logged c sid)|].
  apply (Logged_trans 0 1 st
           (nextTick (sweepDue (clock c) (logDb (DbFind sid) st)) (clock c)
                     (logDb (DbFind sid) st))); [|apply onFound_logged].
  apply (Logged_trans 0 0 st (logDb (DbFind sid) st));
    [apply (logDb_logged (DbFind sid))|apply nextTick_logged].
Qed.

(** Resolving a session costs the store at most one write: whatever
    the argument, the cache, the clock and the answers of the store are,
    a call of [createSession] issues at most one insert or update (the
    sweep it may trigger issues none), so [n] calls issue at most [n]. *)
Lemma createSession_writes_at_most_once (cs : list Call) (c : Call)
    (st : Store) :
  (length (writesBetween st (createSession c st).2) ≤ 1)%nat
  ∧ (length (writesBetween st (createSessions cs st)) ≤ length cs)%nat.
Proof.
  split; [apply Logged_writes, createSession_logged|].
  apply Logged_writes. revert st.
  induction cs as [|c0 cs IH]; intros st; simpl; [by apply Logged_same|].
  apply (Logged_trans 1 (length cs) st (createSession c0 st).2);
    [apply createSession_logged|apply IH].
Qed.

(** *** Calls that find no session *)

Lemma newSession_anonymous now st :
  let r := newSession now anonymousData st in
  r.1 = nextAddr st
  ∧ heap r.2 !! nextAddr st
    = Some (mkSession (mkData IdUndefined true (Some now) (Some now)
                              None []) IdUndefined)
  ∧ sessionIndex r.2 = sessionIndex st
  ∧ dbLog r.2 = dbLog st.
Proof. cbv zeta. simpl. by rewrite lookup_insert_eq. Qed.

(** Without a session id (none, or the empty string) [createSession]
    calls back at once with a new anonymous session whose two time
    stamps are the current time.  The store is not asked for anything
    (at most the sweep removes stale documents), and the session is not
    put into the index: it gets an id only when it is saved. *)
Lemma createSession_without_sid (c : Call) (st : Store) :
  sidArg c = None ∨ sidArg c = Some "" →
  let r := createSession c st in
  r.1 = Some (mkCallback VNull (Some (nextAddr st)))
  ∧ heap r.2 !! nextAddr st
    = Some (mkSession (mkData IdUndefined true (Some (clock c))
                              (Some (clock c)) None []) IdUndefined)
  ∧ (dbLog r.2 = dbLog st
     ∨ dbLog r.2
       = (dbLog st
          ++ [DbRemoveStale (clock c - maxAge (options st))])%list)
  ∧ ∀ sid, Obj.get sid (sessionIndex st) = None
           → Obj.get sid (sessionIndex r.2) = None.
Proof.
  intros Hsid. cbv zeta.
  assert (createSession c st
          = (Some (mkCallback VNull (Some (nextAddr st))),
             nextTick (sweepDue (clock c)
                         (newSession (clock c) anonymousData st).2)
                      (clock c)
                      (newSession (clock c) anonymousData st).2)) as ->.
  { unfold createSession. by destruct Hsid as [->| ->]. }
  destruct (newSession_anonymous (clock c) st) as (_ & Hheap & Hidx & Hlog).
  set (st1 := (newSession (clock c) anonymousData st).2) in *.
  simpl fst. simpl snd. split; [done|].
  destruct (nextTick_same (sweepDue (clock c) st1) (clock c) st1)
    as (Hh & _ & _).
  split; [by rewrite Hh|]. split.
  - unfold nextTick. destruct (sweepDue (clock c) st1); [|by left].
    right. destruct (cleanup_same (clock c) st1) as [_ ->].
    by rewrite Hlog.
  - intros sid Hnone. apply nextTick_absent. by rewrite Hidx.
Qed.

Lemma createSession_without_sid_witness :
  let c := mkCall None 70000 FindNothing 70000 (WriteError VNull) "x" in
  let r := createSession c twoSessions in
  r.1 = Some (mkCallback VNull (Some 2%nat))
  ∧ heap r.2 !! 2%nat
    = Some (mkSession (mkData IdUndefined true (Some 70000) (Some 70000)
                              None []) IdUndefined)
  ∧ (dbLog r.2 = dbLog twoSessions
     ∨ dbLog r.2
       = (dbLog twoSessions
          ++ [DbRemoveStale (70000 - maxAge (options twoSessions))])%list)
  ∧ ∀ sid, Obj.get sid (sessionIndex twoSessions) = None
           → Obj.get sid (sessionIndex r.2) = None.
Proof.
  apply (createSession_without_sid
           (mkCall None 70000 FindNothing 70000 (WriteError VNull) "x")
           twoSessions).
  left. reflexivity.
Defined.

Lemma newSession_array_eq now st :
  newSession now arrayData st
  = (nextAddr st,
     mkStore (<[nextAddr st :=
                  mkSession (mkData IdUndefined false (Some now) (Some now)
                                    None []) IdUndefined]> (heap st))
             (S (nextAddr st)) (sessionIndex st) (userSessionIndex st)
             (socketIndex st) (sessionCount st) (lastRun st) (options st)
             (dbLog st) (sweeps st)).
Proof. reflexivity. Qed.

Lemma indexFoundUser_array addr st :
  indexFoundUser arrayData addr st = st.
Proof. reflexivity. Qed.




(** *** What the sweep removes *)

Lemma get_elem_NoDup {V : Type} (o : Obj.t V) k v :
  NoDup (Obj.keys o) → (k, v) ∈ o → Obj.get k o = Some v.
Proof.
  induction o as [|[k0 v0] o IH]; simpl; intros Hnd Hin.
  - by apply elem_of_nil in Hin.
  - apply NoDup_cons in Hnd as [Hk0 Hnd].
    apply elem_of_cons in Hin as [[= <- <-]|Hin].
    + by rewrite String.eqb_refl.
    + destruct (String.eqb_spec k0 k) as [->|Hne]; [|by apply IH].
      exfalso. apply Hk0. unfold Obj.keys.
      apply list_elem_of_In, in_map_iff. exists (k, v).
      split; [done|]. by apply list_elem_of_In.
Qed.

(** While the number of sessions is within [maxSessions], a sweep
    removes from the index exactly the sessions that have been idle for
    longer than [sessionTimeout] and have no live socket: a session with a
    socket, or one that was active recently, stays under its id. *)
Lemma sweep_within_cap (now : Z) (st : Store) (sid : string)
    (addr : nat) :
  NoDup (Obj.keys (sessionIndex st)) →
  sessionCount st ≤ maxSessions (options st) →
  Obj.get sid (sessionIndex st) = Some addr →
  Obj.get sid (sessionIndex (cleanupInactiveSessions now st))
  = if ltTime (lastActiveAt addr st) (now - sessionTimeout (options st))
       && noLiveSocket sid st
    then None else Some addr.
Proof.
  intros Hnd Hcap Hget.
  destruct (ltTime _ _ && noLiveSocket sid st) eqn:E.
  - apply andb_prop in E as [E1 E2]. by apply (cleanup_removes_idle _ _ _ addr).
  - unfold cleanupInactiveSessions. simpl. rewrite removeAll_index.
    rewrite get_foldl_delete_other; [done|].
    unfold oldestSessions.
    assert ((maxSessions (options st) <? sessionCount st) = false) as ->
      by (apply Z.ltb_ge; lia).
    rewrite app_nil_r. intros Hin.
    pose proof (idleSessions_no_socket now st sid Hin) as Hs.
    destruct (idleSessions_timed_out now st sid Hin)
      as (addr' & la & Hel & Hla & Hlt).
    rewrite (get_elem_NoDup _ _ _ Hnd Hel) in Hget.
    injection Hget as ->. rewrite Hla, Hs in E. simpl in E.
    rewrite andb_true_r in E. apply Z.ltb_ge in E. lia.
Qed.

Lemma sweep_within_cap_witness :
  Obj.get "s1" (sessionIndex (cleanupInactiveSessions 9000000 twoSessions))
  = Some 0%nat
  ∧ Obj.get "s2" (sessionIndex (cleanupInactiveSessions 9000000 twoSessions))
    = None.
Proof.
  assert (NoDup (Obj.keys (sessionIndex twoSessions))) as Hnd.
  { simpl. apply NoDup_cons. split; [|apply NoDup_singleton].
    intros H. apply list_elem_of_singleton in H. discriminate. }
  split.
  - apply (sweep_within_cap 9000000 twoSessions "s1" 0 Hnd);
      [vm_compute; discriminate|reflexivity].
  - apply (sweep_within_cap 9000000 twoSessions "s2" 1 Hnd);
      [vm_compute; discriminate|reflexivity].
Defined.

(** *** Sockets *)

(** When a client disconnects it is unbound from every session, the
    bindings of all other clients stay, and nothing else in the registry
    changes: the session stays in memory, but once its last client has
    gone it counts as having no live socket, which is what lets the
    sweep remove it. *)
Lemma disconnect_unbinds (client : string) (st : Store) (sid : string) :
  let st' := disconnect client st in
  (∀ l, socketIndex st' !! sid = Some l → client ∉ l)
  ∧ (∀ other, other ≠ client →
       (∃ l, socketIndex st' !! sid = Some l ∧ other ∈ l)
       ↔ (∃ l, socketIndex st !! sid = Some l ∧ other ∈ l))
  ∧ sessionIndex st' = sessionIndex st ∧ heap st' = heap st
  ∧ sessionCount st' = sessionCount st
  ∧ (socketIndex st !! sid = Some [client] → noLiveSocket sid st' = true).
Proof.
  cbv zeta. unfold disconnect, noLiveSocket. simpl.
  rewrite lookup_fmap. split; [|split].
  - intros l. destruct (socketIndex st !! sid) as [l0|]; simpl; [|done].
    intros [= <-] Hin. apply list_elem_of_filter in Hin as [Hne _]. done.
  - intros other Hne. destruct (socketIndex st !! sid) as [l0|]; simpl.
    + split.
      * intros (l & [= <-] & Hin). exists l0. split; [done|].
        by apply list_elem_of_filter in Hin as [_ ?].
      * intros (l & [= <-] & Hin). eexists. split; [done|].
        by apply list_elem_of_filter.
    + split; intros (l & ? & _); done.
  - repeat split; try done. intros ->. simpl.
    rewrite filter_cons, decide_False by (intros H; by apply H). done.
Qed.

Lemma disconnect_unbinds_witness :
  noLiveSocket "s1" (disconnect "c1" twoSessions) = true.
Proof.
  apply (proj2 (proj2 (proj2 (proj2 (proj2
           (disconnect_unbinds "c1" twoSessions "s1")))))).
  reflexivity.
Defined.

(** *** The cap on the number of sessions *)

Lemma sortInsert_perm_any {A : Type} (cmp : A → A → Z) (x : A)
    (l : list A) :
  sortInsert cmp x l ≡ₚ x :: l.
Proof.
  induction l as [|y l IH]; simpl; [done|].
  destruct (cmp x y <=? 0); [done|].
  rewrite IH. apply perm_swap.
Qed.

Lemma arraySort_perm_any {A : Type} (cmp : A → A → Z) (l : list A) :
  arraySort cmp l ≡ₚ l.
Proof.
  induction l as [|x l IH]; simpl; [done|].
  by rewrite sortInsert_perm_any, IH.
Qed.

Lemma keys_foldl_delete {V : Type} (l : list string) (o : Obj.t V) :
  NoDup (Obj.keys o) →
  NoDup (Obj.keys (foldl (λ o' k', Obj.delete k' o') o l))
  ∧ Obj.keys (foldl (λ o' k', Obj.delete k' o') o l) ⊆ Obj.keys o.
Proof.
  revert o. induction l as [|k l IH]; intros o Hnd; simpl; [done|].
  destruct (IH (Obj.delete k o) (NoDup_delete o k Hnd)) as [H1 H2].
  split; [done|]. intros x Hx. by apply (keys_delete o k), H2.
Qed.

Lemma oldestSessions_keys (st : Store) :
  NoDup (Obj.keys (sessionIndex st)) →
  NoDup (oldestSessions st)
  ∧ oldestSessions st ⊆ Obj.keys (sessionIndex st)
  ∧ length (oldestSessions st)
    = if maxSessions (options st) <? sessionCount st
      then Nat.min (Z.to_nat (sessionCount st - maxSessions (options st)))
                   (length (sessionIndex st))
      else 0%nat.
Proof.
  intros Hnd. unfold oldestSessions.
  destruct (maxSessions (options st) <? sessionCount st);
    [|split; [apply NoDup_nil_2|split; [by intros x Hx%elem_of_nil|done]]].
  set (entries := map (λ '(sid, addr), (sid, lastActiveAt addr st))
                      (sessionIndex st)).
  assert (map fst entries = Obj.keys (sessionIndex st)) as Hkeys.
  { subst entries. unfold Obj.keys. rewrite map_map.
    apply map_ext. by intros [k a]. }
  assert (map fst (arraySort byLastActive entries)
          ≡ₚ Obj.keys (sessionIndex st)) as Hperm.
  { rewrite <- Hkeys. apply Permutation_map, arraySort_perm_any. }
  rewrite <- firstn_map.
  assert (NoDup (map fst (arraySort byLastActive entries))) as Hnd'
    by by rewrite Hperm.
  split; [|split].
  - rewrite <- (take_drop (Z.to_nat (sessionCount st
                                      - maxSessions (options st)))
                  (map fst (arraySort byLastActive entries))) in Hnd'.
    by apply NoDup_app in Hnd' as [? _].
  - intros x Hx. rewrite <- Hperm. by apply subseteq_take in Hx.
  - rewrite length_take, (Permutation_length Hperm).
    unfold Obj.keys. by rewrite length_map.
Qed.

(** When the counter agrees with the index, a sweep leaves at most
    [maxSessions] sessions in memory: it evicts as many of the sessions
    as the count exceeds the cap by, beside the idle ones, and sets the
    counter to the number of sessions that remain. *)
Lemma sweep_enforces_cap (now : Z) (st : Store) :
  NoDup (Obj.keys (sessionIndex st)) →
  sessionCount st = Z.of_nat (length (sessionIndex st)) →
  0 ≤ maxSessions (options st) →
  let st' := cleanupInactiveSessions now st in
  sessionCount st' = Z.of_nat (length (sessionIndex st'))
  ∧ sessionCount st' ≤ maxSessions (options st)
  ∧ NoDup (Obj.keys (sessionIndex st'))
  ∧ Obj.keys (sessionIndex st') ⊆ Obj.keys (sessionIndex st).
Proof.
  intros Hnd Hcount Hmax. cbv zeta.
  unfold cleanupInactiveSessions. simpl. rewrite removeAll_index.
  set (gone := (idleSessions now st ++ oldestSessions st)%list).
  destruct (keys_foldl_delete gone (sessionIndex st) Hnd) as [Hnd' Hsub].
  set (left := foldl (λ o k, Obj.delete k o) (sessionIndex st) gone) in *.
  destruct (oldestSessions_keys st Hnd) as (Hond & Hosub & Holen).
  unfold Obj.keys at 1. rewrite length_map.
  split; [done|]. split; [|done].
  assert (NoDup (Obj.keys left ++ oldestSessions st)) as Hboth.
  { apply NoDup_app. split; [done|]. split; [|done].
    intros x Hx Hold. revert Hx. apply get_None_not_key.
    apply get_foldl_delete; [done|]. apply elem_of_app. by right. }
  assert (length (Obj.keys left ++ oldestSessions st)
          ≤ length (Obj.keys (sessionIndex st)))%nat as Hlen.
  { apply submseteq_length, NoDup_submseteq; [done|].
    intros x Hx. apply elem_of_app in Hx as [Hx|Hx];
      [by apply Hsub|by apply Hosub]. }
  rewrite length_app, Holen in Hlen.
  unfold Obj.keys in Hlen. rewrite !length_map in Hlen.
  assert (length (Obj.keys left) = length left) as ->
    by (unfold Obj.keys; by rewrite length_map).
  destruct (Z.ltb_spec (maxSessions (options st)) (sessionCount st)); lia.
Qed.

Lemma sweep_enforces_cap_witness :
  let st := mkStore (heap twoSessions) 2 (sessionIndex twoSessions)
              (userSessionIndex twoSessions) (socketIndex twoSessions)
              2 (NInt 0) (defaultOptions None (Some 1) None None) [] 0 in
  let st' := cleanupInactiveSessions 3000 st in
  sessionCount st' = Z.of_nat (length (sessionIndex st'))
  ∧ sessionCount st' ≤ 1
  ∧ NoDup (Obj.keys (sessionIndex st'))
  ∧ Obj.keys (sessionIndex st') ⊆ Obj.keys (sessionIndex st).
Proof.
  apply (sweep_enforces_cap 3000
           (mkStore (heap twoSessions) 2 (sessionIndex twoSessions)
              (userSessionIndex twoSessions) (socketIndex twoSessions)
              2 (NInt 0) (defaultOptions None (Some 1) None None) [] 0));
    [|reflexivity|vm_compute; discriminate].
  simpl. apply NoDup_cons. split; [|apply NoDup_singleton].
  intros H. apply list_elem_of_singleton in H. discriminate.
Defined.

(** *** Rooms *)

Lemma joinRoom_spec (cur : list string) (room : string) :
  NoDup cur →
  NoDup (joinRoom cur room)
  ∧ (∀ r, r ∈ joinRoom cur room ↔ r ∈ cur ∨ r = room)
  ∧ cur `prefix_of` joinRoom cur room.
Proof.
  intros Hnd. unfold joinRoom. case_bool_decide as Hin.
  - split; [done|]. split; [|done]. intros r. split; [tauto|].
    by intros [?| ->].
  - split; [|split].
    + apply NoDup_app. split; [done|]. split; [|apply NoDup_singleton].
      intros x Hx Hx'. apply list_elem_of_singleton in Hx'. by subst.
    + intros r. rewrite elem_of_app, list_elem_of_singleton. tauto.
    + by apply prefix_app_r.
Qed.

Lemma joinRooms_spec (rooms cur : list string) :
  NoDup cur →
  NoDup (foldl joinRoom cur rooms)
  ∧ (∀ r, r ∈ foldl joinRoom cur rooms ↔ r ∈ cur ∨ r ∈ rooms)
  ∧ cur `prefix_of` foldl joinRoom cur rooms.
Proof.
  revert cur. induction rooms as [|room rooms IH]; intros cur Hnd; simpl.
  - split; [done|]. split; [|done]. intros r. split; [tauto|].
    intros [?|H]; [done|]. by apply elem_of_nil in H.
  - destruct (joinRoom_spec cur room Hnd) as (H1 & H2 & H3).
    destruct (IH _ H1) as (I1 & I2 & I3).
    split; [done|]. split; [|by etrans].
    intros r. rewrite I2, H2, elem_of_cons. tauto.
Qed.

Lemma joinRooms_present (rooms cur : list string) :
  (∀ r, r ∈ rooms → r ∈ cur) → foldl joinRoom cur rooms = cur.
Proof.
  revert cur. induction rooms as [|room rooms IH]; intros cur Hall; simpl;
    [done|].
  unfold joinRoom at 2. rewrite bool_decide_eq_true_2.
  - apply IH. intros r Hr. apply Hall, elem_of_cons. by right.
  - apply Hall, elem_of_cons. by left.
Qed.

Lemma leaveRooms_undo_join (rooms cur : list string) :
  NoDup rooms → (∀ r, r ∈ rooms → r ∉ cur) →
  foldl leaveRoom (foldl joinRoom cur rooms) rooms = cur.
Proof.
  intros Hnd Hfresh.
  assert (foldl joinRoom cur rooms = (cur ++ rooms)%list) as ->.
  { revert cur Hfresh.
    induction Hnd as [|room rooms Hroom Hnd IH]; intros cur Hfresh; simpl.
    - by rewrite app_nil_r.
    - unfold joinRoom at 2. rewrite bool_decide_eq_false_2.
      + rewrite IH, <- app_assoc; [done|].
        intros r Hr Hin. apply elem_of_app in Hin as [Hin|Hin].
        * apply (Hfresh r); [|done]. apply elem_of_cons. by right.
        * apply list_elem_of_singleton in Hin. by subst.
      + apply Hfresh, elem_of_cons. by left. }
  revert cur Hfresh.
  induction Hnd as [|room rooms Hroom Hnd IH]; intros cur Hfresh; simpl.
  - by rewrite app_nil_r.
  - assert (leaveRoom (cur ++ room :: rooms) room = (cur ++ rooms)%list)
      as ->.
    { assert (room ∉ cur) as Hc by (apply Hfresh, elem_of_cons; by left).
      clear -Hc. induction cur as [|r cur IH]; simpl.
      - by rewrite String.eqb_refl.
      - apply not_elem_of_cons in Hc as [Hne Hc].
        destruct (String.eqb_spec r room) as [->|_]; [done|].
        by rewrite IH. }
    apply IH. intros r Hr. apply Hfresh, elem_of_cons. by right.
Qed.

Lemma stored_heap addr k d st :
  heap (stored addr k d st) !! addr = Some (mkSession d (id d)).
Proof.
  unfold stored. destruct (uid d) as [u|]; [destruct (String.eqb u "")|];
    simpl; by rewrite lookup_insert_eq.
Qed.

Lemma save_update_ok addr freshId res st this sid0 :
  heap st !! addr = Some this → anonymous (data this) = false →
  id (data this) = IdString sid0 → sid0 ≠ "" →
  save addr freshId (WriteOk res) st
  = (Some VNull,
     stored addr sid0 (withId (IdString sid0) (withId IdUndefined (data this)))
            (logDb (DbUpdate sid0 (withId IdUndefined (data this))) st)).
Proof.
  intros Hthis Hanon Hid Hne. unfold save. rewrite Hthis, Hanon. simpl.
  rewrite Hid. simpl. by apply String.eqb_neq in Hne as ->.
Qed.

Lemma updateRooms_session each rooms addr st this :
  heap st !! addr = Some this →
  heap (updateRooms each rooms addr st) !! addr
  = Some (mkSession (withRooms (foldl each (Session.rooms (data this)) rooms)
                               (data this)) (sid this))
  ∧ dbLog (updateRooms each rooms addr st) = dbLog st.
Proof.
  intros Hthis. unfold updateRooms. rewrite Hthis. simpl.
  by rewrite lookup_insert_eq.
Qed.

(** [joinRooms] adds to the room list of the session, at its end and in
    the order given, each room that is not yet on it, so a list without
    duplicates stays without duplicates; the list is then written to the
    store with one update under the id of the session. *)
Lemma joinRooms_saves_rooms (addr : nat) (rooms : list string)
    (freshId : string) (res : Data) (st : Store) (this : Session)
    (sid0 : string) :
  heap st !! addr = Some this → anonymous (data this) = false →
  id (data this) = IdString sid0 → sid0 ≠ "" →
  NoDup (Session.rooms (data this)) →
  let joined := foldl joinRoom (Session.rooms (data this)) rooms in
  let r := joinRooms addr rooms freshId (WriteOk res) st in
  NoDup joined
  ∧ (∀ x, x ∈ joined ↔ x ∈ Session.rooms (data this) ∨ x ∈ rooms)
  ∧ Session.rooms (data this) `prefix_of` joined
  ∧ dbLog r.2
    = (dbLog st
       ++ [DbUpdate sid0 (withId IdUndefined
                            (withRooms joined (data this)))])%list
  ∧ ∃ s', heap r.2 !! addr = Some s'
          ∧ Session.rooms (data s') = joined
          ∧ id (data s') = IdString sid0.
Proof.
  intros Hthis Hanon Hid Hne Hnd. cbv zeta.
  destruct (joinRooms_spec rooms _ Hnd) as (H1 & H2 & H3).
  do 3 (split; [done|]).
  destruct (updateRooms_session joinRoom rooms addr st this Hthis)
    as [Hheap Hlog].
  unfold joinRooms.
  rewrite (save_update_ok addr freshId res _ _ sid0 Hheap Hanon Hid Hne).
  simpl. rewrite stored_dbLog, stored_heap. simpl. rewrite Hlog.
  split; [done|]. by eexists.
Qed.

Lemma joinRooms_saves_rooms_witness :
  let r := joinRooms 0 ["a"; "b"; "a"] "x" (WriteOk anonymousData)
             twoSessions in
  ∃ s', heap r.2 !! 0%nat = Some s'
        ∧ Session.rooms (data s') = foldl joinRoom [] ["a"; "b"; "a"]
        ∧ id (data s') = IdString "s1".
Proof.
  apply (joinRooms_saves_rooms 0 ["a"; "b"; "a"] "x" anonymousData
           twoSessions
           (mkSession (mkData (IdString "s1") false (Some 1000) (Some 1000)
                              (Some "u") []) (IdString "s1")) "s1");
    [reflexivity|reflexivity|reflexivity|discriminate|apply NoDup_nil_2].
Defined.

(** Leaving the rooms that were just joined gives back the room list
    the session had, when none of them was on it before (and the same
    room is not named twice): the two loops are inverse. *)
Lemma leaveRooms_after_joinRooms (addr : nat) (rooms : list string)
    (freshId freshId' : string) (res res' : Data) (st : Store)
    (this : Session) (sid0 : string) :
  heap st !! addr = Some this → anonymous (data this) = false →
  id (data this) = IdString sid0 → sid0 ≠ "" →
  NoDup rooms → (∀ r, r ∈ rooms → r ∉ Session.rooms (data this)) →
  let st1 := (joinRooms addr rooms freshId (WriteOk res) st).2 in
  let st2 := (leaveRooms addr rooms freshId' (WriteOk res') st1).2 in
  (∃ s', heap st2 !! addr = Some s'
         ∧ Session.rooms (data s') = Session.rooms (data this))
  ∧ length (writesBetween st st2) = 2%nat.
Proof.
  intros Hthis Hanon Hid Hne Hnd Hfresh. cbv zeta.
  destruct (updateRooms_session joinRoom rooms addr st this Hthis)
    as [Hheap Hlog].
  unfold joinRooms at 1 2.
  rewrite (save_update_ok addr freshId res _ _ sid0 Hheap Hanon Hid Hne).
  simpl snd.
  set (st1 := stored addr sid0 _ _).
  pose proof (stored_heap addr sid0
                (withId (IdString sid0)
                   (withId IdUndefined
                      (withRooms (foldl joinRoom (Session.rooms (data this))
                                        rooms) (data this))))
                (logDb (DbUpdate sid0
                          (withId IdUndefined
                             (withRooms
                                (foldl joinRoom (Session.rooms (data this))
                                       rooms) (data this))))
                       (updateRooms joinRoom rooms addr st))) as Hh1.
  fold st1 in Hh1.
  destruct (updateRooms_session leaveRoom rooms addr st1 _ Hh1)
    as [Hheap2 Hlog2].
  unfold leaveRooms.
  rewrite (save_update_ok addr freshId' res' _ _ sid0 Hheap2 Hanon
             eq_refl Hne).
  simpl snd. rewrite stored_heap. split.
  - eexists. split; [done|]. simpl.
    by apply leaveRooms_undo_join.
  - unfold writesBetween. rewrite stored_dbLog. simpl dbLog.
    rewrite Hlog2. subst st1. rewrite stored_dbLog. simpl dbLog.
    rewrite Hlog, <- app_assoc, drop_app_length. done.
Qed.

Lemma leaveRooms_after_joinRooms_witness :
  let st1 := (joinRooms 0 ["a"; "b"] "x" (WriteOk anonymousData)
                twoSessions).2 in
  let st2 := (leaveRooms 0 ["a"; "b"] "y" (WriteOk anonymousData) st1).2 in
  (∃ s', heap st2 !! 0%nat = Some s' ∧ Session.rooms (data s') = [])
  ∧ length (writesBetween twoSessions st2) = 2%nat.
Proof.
  apply (leaveRooms_after_joinRooms 0 ["a"; "b"] "x" "y" anonymousData
           anonymousData twoSessions
           (mkSession (mkData (IdString "s1") false (Some 1000) (Some 1000)
                              (Some "u") []) (IdString "s1")) "s1");
    [reflexivity|reflexivity|reflexivity|discriminate| |].
  - apply NoDup_cons. split; [|apply NoDup_singleton].
    intros H. apply list_elem_of_singleton in H. discriminate.
  - intros r _ H. by apply elem_of_nil in H.
Defined.

End SessionMoreFacts.

(** ** Script sandbox: further properties *)

Module ScriptMoreFacts.
Import Js Script ScriptMore ScriptFacts.

(** A call of [run] either rejects before the hook is compiled, and then
    the completion callback is never called, or it calls the completion
    callback exactly once, whatever the hook does and in whatever order
    the operations it started call back afterwards. *)
Lemma run_calls_back_once (g : Globals) (s : Script)
    (domain : option Domain) (settlements : list nat) :
  let ran := runToEnd g s domain settlements in
  length (onDone (state ran))
  = match rejected ran with Some _ => 0%nat | None => 1%nat end.
Proof.
  cbv zeta. unfold runToEnd.
  destruct (scheduled (run g s domain)) as [finalError|] eqn:Hs.
  - destruct (nextTick_done finalError _ (run_good g s domain))
      as [Hdone Hgood].
    destruct (settle_all_steady settlements _ Hgood) as [Hg' Hkeep].
    destruct (Hkeep Hdone) as [Hd' Ho']. simpl.
    destruct Hg' as (_ & _ & Hlen). rewrite Hd' in Hlen.
    assert (rejected (run g s domain) = None) as ->; [|done].
    revert Hs. unfold run. destruct (truthy (error s)); [done|].
    destruct (match domain with
              | Some d => setupDomainHandlers g d newRun
              | None => Ok newRun
              end); [|done].
    destruct (compileFor _ s). by destruct (exec _ _).
  - revert Hs. unfold run. destruct (truthy (error s)); [done|].
    destruct (match domain with
              | Some d => setupDomainHandlers g d newRun
              | None => Ok newRun
              end); [|done].
    destruct (compileFor _ s). by destruct (exec _ _).
Qed.

(** *** Hooks that throw *)

Lemma exec_marks (labels : list string) (rest : list Stmt) (r : Run) :
  exec (map Mark labels ++ rest) r = exec rest (addMarks labels r).
Proof.
  revert r. induction labels as [|l labels IH]; intros r; simpl.
  - unfold addMarks. rewrite app_nil_r. by destruct r.
  - rewrite IH. unfold addMarks, addMark. simpl.
    by rewrite <- app_assoc.
Qed.

Lemma exec_thrownBy (stmt : Stmt) (rest : list Stmt) (r : Run) (e : Value) :
  thrownBy stmt = Some e → exec (stmt :: rest) r = (Some e, r).
Proof.
  destruct stmt as [label|msg status|[] msg status|[] msg status|e'
                    |fname callback]; simpl; try done; by intros [= <-].
Qed.

(** Without a domain, a hook whose first statement to throw is a
    [throw], a [cancel] or a guard that fires ends there: the statements
    before it have run, none after it does, and the completion callback
    is called once with what was thrown.  For [cancel] and the two guards
    that is never the error they were asked to report but the TypeError
    of the missing [done] method. *)
Lemma hook_stops_at_first_throw (g : Globals) (labels : list string)
    (stmt : Stmt) (rest : list Stmt) (e : Value)
    (settlements : list nat) :
  thrownBy stmt = Some e →
  let ran := runToEnd g (newScript (map Mark labels ++ stmt :: rest)) None
                      settlements in
  onDone (state ran) = [e]
  ∧ trace (state ran) = labels
  ∧ rejected ran = None
  ∧ ((∀ e', stmt ≠ ThrowStmt e') → e = missingDone).
Proof.
  intros Hthrown. cbv zeta. unfold runToEnd.
  destruct (run_without_domain g (map Mark labels ++ stmt :: rest))
    as [Hstate Hsched].
  rewrite Hsched, Hstate. clear Hstate Hsched.
  rewrite exec_marks, (exec_thrownBy stmt rest _ e Hthrown). simpl.
  rewrite settle_nothing_outstanding by done. simpl.
  split; [done|]. split; [done|]. split.
  { unfold run. simpl. destruct (compileFor _ _).
    by destruct (exec _ _). }
  intros Hne.
  destruct stmt as [label|msg status|[] msg status|[] msg status|e''
                    |fname callback]; simpl in Hthrown; try done;
    try (by injection Hthrown as <-).
  exfalso. by eapply Hne.
Qed.

Lemma hook_stops_at_first_throw_witness :
  let ran := runToEnd nodeGlobals
               (newScript (map Mark ["a"; "b"]
                           ++ CancelUnless false (VString "no") (Some 401)
                              :: [Mark "c"])) None [] in
  onDone (state ran) = [missingDone]
  ∧ trace (state ran) = ["a"; "b"]
  ∧ rejected ran = None
  ∧ ((∀ e', CancelUnless false (VString "no") (Some 401) ≠ ThrowStmt e')
     → missingDone = missingDone).
Proof.
  apply (hook_stops_at_first_throw nodeGlobals ["a"; "b"]
           (CancelUnless false (VString "no") (Some 401)) [Mark "c"]
           missingDone []).
  reflexivity.
Defined.

Lemma completion_ignores_outstanding_witness :
  length (onDone (nextTick VUndefined
                    (state (run withGlobalFn (newScript twoCalls)
                                (Some twoAsync))))) = 1%nat
  ∧ onDone (state (runToEnd withGlobalFn (newScript twoCalls)
                     (Some twoAsync) [1%nat; 0%nat]))
    = onDone (nextTick VUndefined
                (state (run withGlobalFn (newScript twoCalls)
                            (Some twoAsync)))).
Proof.
  apply (completion_ignores_outstanding withGlobalFn (newScript twoCalls)
           (Some twoAsync) [1%nat; 0%nat] VUndefined).
  reflexivity.
Defined.

End ScriptMoreFacts.

(** ** Session registry: how often a session is touched *)

Module TouchFacts.
Import Js Session SessionMore ObjFacts SessionFacts SessionMoreFacts.

(** *** The index stays an object *)

Lemma keys_set {V : Type} (o : Obj.t V) (k : string) (v : V) (x : string) :
  x ∈ Obj.keys (Obj.set k v o) → x = k ∨ x ∈ Obj.keys o.
Proof.
  induction o as [|[k0 v0] o IH]; simpl.
  - intros H. apply elem_of_cons in H as [->|H]; [by left|].
    by apply elem_of_nil in H.
  - destruct (String.eqb_spec k0 k) as [->|Hne]; simpl; intros H.
    + apply elem_of_cons in H as [->|H]; [by left|].
      right. apply elem_of_cons. by right.
    + apply elem_of_cons in H as [->|H].
      * right. apply elem_of_cons. by left.
      * destruct (IH H) as [->|Hin]; [by left|].
        right. apply elem_of_cons. by right.
Qed.

Lemma NoDup_set {V : Type} (o : Obj.t V) (k : string) (v : V) :
  NoDup (Obj.keys o) → NoDup (Obj.keys (Obj.set k v o)).
Proof.
  induction o as [|[k0 v0] o IH]; simpl; intros Hnd.
  - apply NoDup_singleton.
  - apply NoDup_cons in Hnd as [Hk0 Hnd].
    destruct (String.eqb_spec k0 k) as [->|Hne]; simpl.
    + by apply NoDup_cons.
    + apply NoDup_cons. split; [|by apply IH].
      intros H. by apply keys_set in H as [->|H].
Qed.

Lemma NoDup_foldl_delete {V : Type} (l : list string) (o : Obj.t V) :
  NoDup (Obj.keys o) →
  NoDup (Obj.keys (foldl (λ o' k', Obj.delete k' o') o l)).
Proof.
  revert o. induction l as [|k l IH]; intros o H; simpl; [done|].
  by apply IH, NoDup_delete.
Qed.

Lemma get_foldl_delete_cases {V : Type} (l : list string) (o : Obj.t V) k :
  NoDup (Obj.keys o) →
  Obj.get k (foldl (λ o' k', Obj.delete k' o') o l) = Obj.get k o
  ∨ Obj.get k (foldl (λ o' k', Obj.delete k' o') o l) = None.
Proof.
  intros Hnd. destruct (decide (k ∈ l)) as [Hin|Hout].
  - right. by apply get_foldl_delete.
  - left. by apply get_foldl_delete_other.
Qed.

(** The sweep removes keys from the session index and touches nothing
    else of it. *)
Lemma nextTick_index due now st :
  NoDup (Obj.keys (sessionIndex st)) →
  NoDup (Obj.keys (sessionIndex (nextTick due now st)))
  ∧ ∀ k, Obj.get k (sessionIndex (nextTick due now st))
         = Obj.get k (sessionIndex st)
         ∨ Obj.get k (sessionIndex (nextTick due now st)) = None.
Proof.
  intros Hnd. unfold nextTick. destruct due; [|split; [done|by left]].
  unfold cleanupInactiveSessions. simpl. rewrite removeAll_index.
  split; [by apply NoDup_foldl_delete|].
  intros k. by apply get_foldl_delete_cases.
Qed.

Lemma stored_index addr k d st :
  sessionIndex (stored addr k d st) = Obj.set k addr (sessionIndex st).
Proof.
  unfold stored. destruct (uid d) as [u|]; [|done].
  by destruct (String.eqb u "").
Qed.

Lemma save_shape addr freshId answer st :
  options (save addr freshId answer st).2 = options st
  ∧ (NoDup (Obj.keys (sessionIndex st))
     → NoDup (Obj.keys (sessionIndex (save addr freshId answer st).2))).
Proof.
  unfold save. destruct (heap st !! addr) as [this|]; [|done].
  assert (∀ op k d,
            options (stored addr k d (logDb op st)) = options st
            ∧ (NoDup (Obj.keys (sessionIndex st))
               → NoDup (Obj.keys (sessionIndex
                                    (stored addr k d (logDb op st))))))
    as Hst.
  { intros op k d. rewrite stored_options, stored_index.
    split; [done|]. apply NoDup_set. }
  destruct (anonymous (data this)); simpl.
  - destruct answer as [e|res]; simpl; [|apply Hst].
    destruct (truthy e); simpl; [done|].
    split; [done|]. apply NoDup_set.
  - destruct (negb (typeofString (id (data this)))); [done|].
    destruct (idTruthy (id (data this))); [|done].
    destruct answer as [e|res]; simpl; [|apply Hst].
    destruct (truthy e); simpl; [done|apply Hst].
Qed.

Lemma touchData_shape now addr st :
  options (touchData now addr st) = options st
  ∧ sessionIndex (touchData now addr st) = sessionIndex st.
Proof. unfold touchData. by destruct (heap st !! addr). Qed.

Lemma touchFound_shape now c addr st :
  options (touchFound now c addr st).2 = options st
  ∧ (NoDup (Obj.keys (sessionIndex st))
     → NoDup (Obj.keys (sessionIndex (touchFound now c addr st).2))).
Proof.
  unfold touchFound. destruct (heap st !! addr) as [sess|]; [|done].
  destruct (needsTouch now (data sess)); [|done].
  destruct (save_shape addr (freshId c) (written c)
              (touchData now addr st)) as [Ho Hn].
  destruct (touchData_shape now addr st) as [Ho' Hi'].
  destruct (save addr (freshId c) (written c) (touchData now addr st))
    as [called st2]. simpl in *.
  split; [congruence|]. intros Hnd. apply Hn. by rewrite Hi'.
Qed.

Lemma fastPath_shape c sid st r :
  fastPath c sid st = Some r →
  options r.2 = options st
  ∧ (NoDup (Obj.keys (sessionIndex st))
     → NoDup (Obj.keys (sessionIndex r.2))).
Proof.
  unfold fastPath.
  destruct (Obj.get sid (sessionIndex st)) as [addr|]; [|done].
  destruct (heap st !! addr) as [cached|]; [|done].
  destruct (lastActive (data cached)) as [la|]; [|done].
  destruct (clock c - maxAge (options st) <=? la); [|done].
  destruct (needsTouch (clock c) (data cached)).
  - destruct (save_shape addr (freshId c) (written c)
                (touchData (clock c) addr st)) as [Ho Hn].
    destruct (touchData_shape (clock c) addr st) as [Ho' Hi'].
    destruct (save addr (freshId c) (written c)
                (touchData (clock c) addr st)) as [called st2].
    intros [= <-]. simpl in *.
    split; [congruence|]. intros Hnd. apply Hn. by rewrite Hi'.
  - by intros [= <-].
Qed.

Lemma indexFoundUser_shape s addr st :
  options (indexFoundUser s addr st) = options st
  ∧ sessionIndex (indexFoundUser s addr st) = sessionIndex st.
Proof.
  unfold indexFoundUser. destruct (uid s) as [u|]; [|done].
  destruct (heap st !! addr); [|done]. by destruct (String.eqb u "").
Qed.

Lemma indexFound_shape sid addr st :
  options (indexFound sid addr st) = options st
  ∧ (NoDup (Obj.keys (sessionIndex st))
     → NoDup (Obj.keys (sessionIndex (indexFound sid addr st)))).
Proof.
  unfold indexFound. destruct sid as [k|]; [|done].
  destruct (Obj.get _ _); [done|]. simpl. split; [done|]. apply NoDup_set.
Qed.

Lemma sessionFor_shape now s sid st :
  options (sessionFor now s sid st).2 = options st
  ∧ sessionIndex (sessionFor now s sid st).2 = sessionIndex st.
Proof. unfold sessionFor. by destruct (Obj.get _ _). Qed.

Lemma foundSteps_shape c answer sid st :
  options (foundSteps c answer sid st).2 = options st
  ∧ (NoDup (Obj.keys (sessionIndex st))
     → NoDup (Obj.keys (sessionIndex (foundSteps c answer sid st).2))).
Proof.
  unfold foundSteps.
  destruct (chooseFound (foundAt c) answer sid st) as [s sid'].
  destruct (sessionFor_shape (foundAt c) s sid' st) as [Ho1 Hi1].
  destruct (sessionFor (foundAt c) s sid' st) as [addr st1].
  simpl in Ho1, Hi1.
  destruct (indexFound_shape sid' addr st1) as [Ho2 Hn2].
  destruct (indexFoundUser_shape s addr (indexFound sid' addr st1))
    as [Ho3 Hi3].
  destruct (touchFound_shape (foundAt c) c addr
              (indexFoundUser s addr (indexFound sid' addr st1)))
    as [Ho4 Hn4].
  split; [congruence|]. intros Hnd. apply Hn4. rewrite Hi3.
  apply Hn2. by rewrite Hi1.
Qed.

Lemma onFound_shape c sid st :
  options (onFound c sid st).2 = options st
  ∧ (NoDup (Obj.keys (sessionIndex st))
     → NoDup (Obj.keys (sessionIndex (onFound c sid st).2))).
Proof.
  unfold onFound. destruct (found c) as [e| |d|docs];
    try apply foundSteps_shape.
  destruct (truthy e); [done|apply foundSteps_shape].
Qed.

(** Every call leaves the options as they are and the session index an
    object. *)
Lemma createSession_shape (c : Call) (st : Store) :
  options (createSession c st).2 = options st
  ∧ (NoDup (Obj.keys (sessionIndex st))
     → NoDup (Obj.keys (sessionIndex (createSession c st).2))).
Proof.
  assert (∀ due st0, options (nextTick due (clock c) st0) = options st0)
    as Hopt.
  { intros due st0. by destruct (nextTick_same due (clock c) st0)
      as (_ & _ & ->). }
  assert (options (let '(addr, st1) :=
                     newSession (clock c) anonymousData st in
                   (Some (mkCallback VNull (Some addr)),
                    nextTick (sweepDue (clock c) st1) (clock c) st1)).2
          = options st
          ∧ (NoDup (Obj.keys (sessionIndex st))
             → NoDup (Obj.keys (sessionIndex
                  (let '(addr, st1) :=
                     newSession (clock c) anonymousData st in
                   (Some (mkCallback VNull (Some addr)),
                    nextTick (sweepDue (clock c) st1) (clock c) st1)).2))))
    as Hanon.
  { simpl. rewrite Hopt. split; [done|]. intros Hnd.
    by apply nextTick_index. }
  unfold createSession. destruct (sidArg c) as [sid|]; [|exact Hanon].
  destruct (String.eqb sid ""); [exact Hanon|].
  destruct (fastPath c sid st) as [r|] eqn:Hfast;
    [by apply (fastPath_shape c sid)|].
  set (st1 := logDb (DbFind sid) st).
  destruct (onFound_shape c sid
              (nextTick (sweepDue (clock c) st1) (clock c) st1))
    as [Ho Hn].
  rewrite Ho, Hopt. split; [done|]. intros Hnd. apply Hn.
  by apply nextTick_index.
Qed.

(** *** One resolution of a cached session *)

Lemma writes_of_log st st' ops :
  dbLog st' = (dbLog st ++ ops)%list →
  writesBetween st st' = filter (λ op, isWrite op = true) ops.
Proof. intros H. unfold writesBetween. by rewrite H, drop_app_length. Qed.

Lemma writesBetween_app n m st st1 st2 :
  Logged n st st1 → Logged m st1 st2 →
  writesBetween st st2
  = (writesBetween st st1 ++ writesBetween st1 st2)%list.
Proof.
  intros (o1 & H1 & _) (o2 & H2 & _).
  rewrite (writes_of_log st st1 o1), (writes_of_log st1 st2 o2) by done.
  rewrite (writes_of_log st st2 (o1 ++ o2)), filter_app; [done|].
  by rewrite H2, H1, <- app_assoc.
Qed.

(** Saving a session that has its id: one update, whatever the store
    answers, and the session stays cached as it is. *)
Lemma save_cached addr sid t freshId answer st sess :
  heap st !! addr = Some sess → anonymous (data sess) = false →
  id (data sess) = IdString sid → sid ≠ "" →
  lastActive (data sess) = Some t →
  Obj.get sid (sessionIndex st) = Some addr →
  (∃ d, dbLog (save addr freshId answer st).2
        = (dbLog st ++ [DbUpdate sid d])%list)
  ∧ Cached sid addr t (save addr freshId answer st).2.
Proof.
  intros Hheap Hanon Hid Hsid Hla Hidx. unfold save.
  rewrite Hheap, Hanon. cbv iota beta. rewrite Hid.
  apply String.eqb_neq in Hsid as Hsidb. simpl. rewrite Hsidb. simpl.
  assert (Cached sid addr t
            (stored addr sid
               (withId (IdString sid) (withId IdUndefined (data sess)))
               (logDb (DbUpdate sid (withId IdUndefined (data sess))) st)))
    as Hstored by by apply stored_cached.
  destruct answer as [e|res]; [destruct (truthy e)|]; simpl;
    rewrite ?stored_dbLog; simpl; (split; [by eexists|]); try done.
  split; [done|]. by exists sess.
Qed.

Lemma touchData_session now addr st sess :
  heap st !! addr = Some sess →
  heap (touchData now addr st) !! addr
  = Some (mkSession (withLastActive (Some now) (data sess)) (sid sess)).
Proof.
  intros H. unfold touchData. rewrite H. simpl. by rewrite lookup_insert_eq.
Qed.

(** Touching and saving a cached session. *)
Lemma touch_cached now addr sid la freshId answer st :
  Cached sid addr la st → sid ≠ "" →
  (∃ d, dbLog (save addr freshId answer (touchData now addr st)).2
        = (dbLog st ++ [DbUpdate sid d])%list)
  ∧ Cached sid addr now (save addr freshId answer (touchData now addr st)).2.
Proof.
  intros (Hidx & sess & Hheap & Hanon & Hid & Hla) Hsid.
  pose proof (touchData_session now addr st sess Hheap) as Ht.
  destruct (touchData_shape now addr st) as [_ Hi].
  destruct (save_cached addr sid now freshId answer (touchData now addr st)
              _ Ht) as [[d Hd] Hc]; try done; [by rewrite Hi|].
  split; [|done]. exists d. by rewrite Hd, touchData_dbLog.
Qed.

(** A cached session that is not older than [maxAge] is answered from
    the cache: it is touched and saved when its last activity is more
    than 10 seconds old, and left alone otherwise. *)
Lemma createSession_cached (sid : string) (addr : nat) (la : Z)
    (c : Call) (st : Store) :
  Cached sid addr la st → sid ≠ "" → 0 < la →
  clock c - maxAge (options st) ≤ la →
  sidArg c = Some sid →
  if la <? clock c - 10 * 1000
  then (∃ d, dbLog (createSession c st).2
             = (dbLog st ++ [DbUpdate sid d])%list)
       ∧ Cached sid addr (clock c) (createSession c st).2
  else createSession c st = (Some (mkCallback VNull (Some addr)), st).
Proof.
  intros Hc Hsid Hpos Hfresh Harg.
  pose proof (touch_cached (clock c) addr sid la (freshId c) (written c)
                st Hc Hsid) as Htouch.
  destruct Hc as (Hidx & sess & Hheap & Hanon & Hid & Hla).
  unfold createSession. rewrite Harg.
  apply String.eqb_neq in Hsid as Hsidb. rewrite Hsidb.
  unfold fastPath. rewrite Hidx, Hheap, Hla.
  destruct (Z.leb_spec (clock c - maxAge (options st)) la); [|lia].
  unfold needsTouch. rewrite Hanon, Hla.
  assert (truthyNum (Some la) = true) as ->.
  { simpl. destruct (Z.eqb_spec la 0); [lia|done]. }
  unfold ltTime. cbn [negb orb andb].
  destruct (la <? clock c - 10 * 1000) eqn:Hold; [|done].
  by destruct (save addr (freshId c) (written c)
                 (touchData (clock c) addr st)) as [called st2].
Qed.

(** What the lookup and the sweep that may run before its answer leave
    behind: the objects as they were, one [find] in the log and no
    write, and an index that lost keys at most. *)
Lemma lookup_steps (c : Call) (sid : string) (st : Store) :
  NoDup (Obj.keys (sessionIndex st)) →
  let st1 := logDb (DbFind sid) st in
  let st2 := nextTick (sweepDue (clock c) st1) (clock c) st1 in
  heap st2 = heap st
  ∧ NoDup (Obj.keys (sessionIndex st2))
  ∧ (Obj.get sid (sessionIndex st2) = Obj.get sid (sessionIndex st)
     ∨ Obj.get sid (sessionIndex st2) = None
       ∧ sweepDue (clock c) st = true)
  ∧ ∃ ops, dbLog st2 = (dbLog st ++ ops)%list
           ∧ filter (λ op, isWrite op = true) ops = [].
Proof.
  intros Hnd st1 st2.
  destruct (nextTick_same (sweepDue (clock c) st1) (clock c) st1)
    as (Hh & _ & _). fold st2 in Hh.
  destruct (nextTick_index (sweepDue (clock c) st1) (clock c) st1 Hnd)
    as [Hnd2 Hget]. fold st2 in Hnd2, Hget.
  split; [done|]. split; [done|]. split.
  - subst st2. change (sweepDue (clock c) st1) with (sweepDue (clock c) st)
      in *.
    destruct (sweepDue (clock c) st); [|by left].
    destruct (Hget sid) as [H|H]; [by left|by right].
  - subst st2. unfold nextTick. destruct (sweepDue (clock c) st1).
    + destruct (cleanup_same (clock c) st1) as [_ ->].
      eexists. simpl. rewrite <- app_assoc. split; [reflexivity|done].
    + by exists [DbFind sid].
Qed.

(** Touching a session that has no id writes nothing. *)
Lemma touchFound_no_id now c addr st sess :
  heap st !! addr = Some sess → anonymous (data sess) = false →
  typeofString (id (data sess)) = false →
  dbLog (touchFound now c addr st).2 = dbLog st.
Proof.
  intros Hheap Hanon Hid. unfold touchFound. rewrite Hheap.
  destruct (needsTouch now (data sess)); [|done].
  unfold save. rewrite (touchData_session now addr st sess Hheap).
  cbn [data withLastActive anonymous id]. rewrite Hanon.
  cbv iota beta.
  change (id (withLastActive (Some now) (data sess))) with (id (data sess)).
  rewrite Hid. simpl. apply touchData_dbLog.
Qed.

(** A cached session older than [maxAge] is looked up in the store.  A
    failed lookup is passed on and nothing is written.  When the store
    answers with an array, the cached session is taken, and touched and
    saved when its last activity is more than 10 seconds old; when the
    sweep has dropped it from the index meanwhile, a session without id
    takes its place and nothing is written. *)
Lemma createSession_expired (sid : string) (addr : nat) (la : Z)
    (c : Call) (st : Store) :
  Cached sid addr la st → NoDup (Obj.keys (sessionIndex st)) →
  sid ≠ "" → 0 < la →
  la < clock c - maxAge (options st) →
  sidArg c = Some sid →
  let r := createSession c st in
  match found c with
  | FindError e =>
      truthy e = true →
      writesBetween st r.2 = [] ∧ r.1 = Some (mkCallback e None)
  | FindDocs _ =>
      ((∃ d, writesBetween st r.2 = [DbUpdate sid d])
       ∧ Cached sid addr (foundAt c) r.2 ∧ la < foundAt c - 10 * 1000)
      ∨ (writesBetween st r.2 = []
         ∧ (sweepDue (clock c) st = true ∨ foundAt c - 10 * 1000 ≤ la))
  | _ => True
  end.
Proof.
  intros Hc Hnd Hsid Hpos Hold Harg. cbv zeta.
  destruct (Hc) as (Hidx & sess & Hheap & Hanon & Hid & Hla).
  unfold createSession. rewrite Harg.
  apply String.eqb_neq in Hsid as Hsidb. rewrite Hsidb.
  unfold fastPath. rewrite Hidx, Hheap, Hla.
  destruct (Z.leb_spec (clock c - maxAge (options st)) la); [lia|].
  destruct (lookup_steps c sid st Hnd) as (Hh & Hnd2 & Hget & ops & Hlog & Hw).
  set (st2 := nextTick (sweepDue (clock c) (logDb (DbFind sid) st))
                       (clock c) (logDb (DbFind sid) st)) in *.
  unfold onFound.
  destruct (found c) as [e| |d|docs]; [|done|done|].
  - intros ->. simpl. split; [|done].
    by rewrite (writes_of_log st st2 ops).
  - unfold foundSteps. simpl chooseFound. cbv iota beta.
    unfold sessionFor, indexFound. simpl keyOfSid.
    destruct Hget as [Hget|[Hget Hdue]].
    + rewrite Hget, Hidx. cbv iota beta. rewrite Hget, Hidx.
      rewrite indexFoundUser_array.
      unfold touchFound. rewrite Hh, Hheap.
      unfold needsTouch. rewrite Hanon, Hla.
      assert (truthyNum (Some la) = true) as ->.
      { simpl. destruct (Z.eqb_spec la 0); [lia|done]. }
      unfold ltTime. cbn [negb orb andb].
      destruct (Z.ltb_spec la (foundAt c - 10 * 1000)) as [Hlt|Hge].
      * assert (Cached sid addr la st2) as Hc2.
        { split; [by rewrite Hget|]. exists sess. by rewrite Hh. }
        destruct (touch_cached (foundAt c) addr sid la (freshId c)
                    (written c) st2 Hc2 Hsid) as [[d Hd] Hc3].
        destruct (save addr (freshId c) (written c)
                    (touchData (foundAt c) addr st2)) as [called st3].
        simpl in *. left. split; [|done]. exists d.
        rewrite (writes_of_log st st3 (ops ++ [DbUpdate sid d])).
        -- by rewrite filter_app, Hw.
        -- by rewrite Hd, Hlog, <- app_assoc.
      * simpl. right. split; [|by right].
        by rewrite (writes_of_log st st2 ops).
    + rewrite Hget. rewrite newSession_array_eq. cbv iota beta.
      cbn [sessionIndex]. rewrite Hget. rewrite indexFoundUser_array.
      right. split; [|by left].
      set (st3 := setSessionCount _ _).
      rewrite (writes_of_log st (touchFound (foundAt c) c (nextAddr st2)
                                   st3).2 ops); [done|].
      rewrite (touchFound_no_id (foundAt c) c (nextAddr st2) st3
                 (mkSession (mkData IdUndefined false (Some (foundAt c))
                                    (Some (foundAt c)) None [])
                            IdUndefined)); try done.
      subst st3. unfold setSessionCount, setSessionIndex. cbn [heap].
      by rewrite lookup_insert_eq.
Qed.

(** A cached session that was active within the last 10 seconds is
    resolved without a write. *)
Lemma createSession_recent (sid : string) (addr : nat) (t : Z)
    (c : Call) (st : Store) :
  Cached sid addr t st → NoDup (Obj.keys (sessionIndex st)) →
  sid ≠ "" → 0 < t →
  sidArg c = Some sid → storeAnswer (found c) = true →
  clock c - 10 * 1000 ≤ t → foundAt c - 10 * 1000 ≤ t →
  writesBetween st (createSession c st).2 = []
  ∧ (clock c - maxAge (options st) ≤ t →
     createSession c st = (Some (mkCallback VNull (Some addr)), st)).
Proof.
  intros Hc Hnd Hsid Hpos Harg Hans Hclock Hfound.
  destruct (Z.le_gt_cases (clock c - maxAge (options st)) t) as [Hin|Hout].
  - pose proof (createSession_cached sid addr t c st Hc Hsid Hpos Hin Harg)
      as H.
    destruct (Z.ltb_spec t (clock c - 10 * 1000)); [lia|].
    rewrite H. split; [apply writesBetween_refl|done].
  - pose proof (createSession_expired sid addr t c st Hc Hnd Hsid Hpos
                  ltac:(lia) Harg) as H.
    cbv zeta in H. split; [|lia].
    destruct (found c) as [e| |d|docs]; try done.
    + by apply H.
    + destruct H as [(_ & _ & Hlt)|[H _]]; [lia|done].
Qed.

(** C6 (as amended).  A non-anonymous session is cached under its
    string id [sid], last active at [la], and the store answers a lookup
    as [find] of [lib/db.js] does, with an error or with an array.  Two
    resolutions, each finished before the next begins and the second
    finished at most 10 seconds after the first began, issue at most one
    write between them; when the first one wrote, the second writes
    nothing, and changes nothing at all when it comes within [maxAge] of
    the first.  When both come within [maxAge] of [la] the session is
    still cached afterwards.  A further resolution of the session, more
    than 10 seconds after its last touch [touched], issues exactly one
    write, an update of that session, when it comes within [maxAge] of
    the touch, and also when it comes later, the store answers the
    lookup with an array and no sweep is due; when the lookup fails, the
    error is passed to the callback and nothing is written. *)
Theorem touch_throttled (sid : string) (addr : nat) (la : Z)
    (c1 c2 : Call) (st : Store) :
  Cached sid addr la st → NoDup (Obj.keys (sessionIndex st)) →
  sid ≠ "" → 0 < la →
  sidArg c1 = Some sid → sidArg c2 = Some sid →
  storeAnswer (found c1) = true → storeAnswer (found c2) = true →
  clock c1 ≤ foundAt c1 → foundAt c1 ≤ clock c2 →
  clock c2 ≤ foundAt c2 → foundAt c2 ≤ clock c1 + 10 * 1000 →
  let st1 := (createSession c1 st).2 in
  let st2 := (createSession c2 st1).2 in
  (length (writesBetween st st2) ≤ 1)%nat
  ∧ (writesBetween st st1 ≠ [] →
     writesBetween st1 st2 = []
     ∧ (clock c2 - maxAge (options st) ≤ clock c1 → st2 = st1))
  ∧ (clock c2 - maxAge (options st) ≤ la →
     ∃ touched, Cached sid addr touched st2 ∧ la ≤ touched)
  ∧ ∀ touched c3,
      Cached sid addr touched st2 → 0 < touched →
      sidArg c3 = Some sid →
      touched + 10 * 1000 < clock c3 → clock c3 ≤ foundAt c3 →
      let r := createSession c3 st2 in
      (clock c3 - maxAge (options st) ≤ touched →
       ∃ d, writesBetween st2 r.2 = [DbUpdate sid d])
      ∧ (touched < clock c3 - maxAge (options st) →
         (∀ docs, found c3 = FindDocs docs →
                  sweepDue (clock c3) st2 = false →
                  ∃ d, writesBetween st2 r.2 = [DbUpdate sid d])
         ∧ (∀ e, found c3 = FindError e → truthy e = true →
                 writesBetween st2 r.2 = []
                 ∧ r.1 = Some (mkCallback e None))).
Proof.
  intros Hc Hnd Hsid Hpos Harg1 Harg2 Hans1 Hans2 Hf1 Hseq Hf2 Hwin st1 st2.
  pose proof (createSession_logged c1 st) as Hlog1.
  pose proof (createSession_logged c2 st1) as Hlog2.
  fold st1 in Hlog1. fold st2 in Hlog2.
  pose proof (writesBetween_app 1 1 st st1 st2 Hlog1 Hlog2) as Happ.
  destruct (createSession_shape c1 st) as [Ho1 Hn1].
  destruct (createSession_shape c2 st1) as [Ho2 Hn2].
  fold st1 in Ho1, Hn1. fold st2 in Ho2, Hn2.
  specialize (Hn1 Hnd). specialize (Hn2 Hn1).
  assert (writesBetween st st1 ≠ [] →
          ∃ t, Cached sid addr t st1 ∧ clock c1 ≤ t ∧ 0 < t) as Hwrote.
  { intros Hw.
    destruct (Z.le_gt_cases (clock c1 - maxAge (options st)) la)
      as [Hin|Hout].
    - pose proof (createSession_cached sid addr la c1 st Hc Hsid Hpos Hin
                    Harg1) as H.
      destruct (Z.ltb_spec la (clock c1 - 10 * 1000)).
      + exists (clock c1). destruct H as [_ H]. split; [done|lia].
      + exfalso. apply Hw. subst st1. rewrite H.
        apply writesBetween_refl.
    - pose proof (createSession_expired sid addr la c1 st Hc Hnd Hsid Hpos
                    ltac:(lia) Harg1) as H.
      cbv zeta in H. fold st1 in H.
      destruct (found c1) as [e| |d|docs]; try done.
      + exfalso. by apply Hw, H.
      + destruct H as [(_ & H & Hlt)|[H _]]; [|done].
        exists (foundAt c1). split; [done|lia]. }
  assert (∀ t, Cached sid addr t st1 → clock c1 ≤ t → 0 < t →
            writesBetween st1 st2 = []
            ∧ (clock c2 - maxAge (options st) ≤ clock c1 → st2 = st1))
    as Hquiet.
  { intros t Ht Hle Hpt.
    destruct (createSession_recent sid addr t c2 st1 Ht Hn1 Hsid Hpt Harg2
                Hans2) as [Hq Hsame]; [lia|lia|].
    split; [done|]. intros Hage. subst st2. rewrite Hsame; [done|].
    rewrite Ho1. lia. }
  split; [|split; [|split]].
  - rewrite Happ, length_app.
    destruct (writesBetween st st1) as [|w ws] eqn:Hw1.
    + simpl. by apply Logged_writes.
    + destruct Hwrote as (t & Ht & Hle & Hpt); [done|].
      destruct (Hquiet t Ht Hle Hpt) as [-> _].
      apply Logged_writes in Hlog1. rewrite Hw1 in Hlog1.
      simpl in *. lia.
  - intros Hw. destruct (Hwrote Hw) as (t & Ht & Hle & Hpt).
    by apply (Hquiet t).
  - intros Hage.
    pose proof (createSession_cached sid addr la c1 st Hc Hsid Hpos
                  ltac:(lia) Harg1) as H1.
    destruct (Z.ltb_spec la (clock c1 - 10 * 1000)).
    + destruct H1 as [_ H1]. fold st1 in H1.
      destruct (Hquiet (clock c1) H1) as [_ Hsame]; [lia|lia|].
      exists (clock c1). rewrite Hsame by lia. split; [done|lia].
    + assert (st1 = st) as Hst1 by (subst st1; by rewrite H1).
      pose proof (createSession_cached sid addr la c2 st Hc Hsid Hpos
                    Hage Harg2) as H2.
      subst st2. rewrite Hst1.
      destruct (Z.ltb_spec la (clock c2 - 10 * 1000)).
      * exists (clock c2). destruct H2 as [_ H2]. split; [done|lia].
      * exists la. rewrite H2. split; [done|lia].
  - intros touched c3 Hc3 Hpos3 Harg3 Hgap Hf3. cbv zeta.
    assert (options st2 = options st) as Ho by congruence.
    split.
    + intros Hage.
      pose proof (createSession_cached sid addr touched c3 st2 Hc3 Hsid
                    Hpos3) as H3.
      rewrite Ho in H3. specialize (H3 Hage Harg3).
      destruct (Z.ltb_spec touched (clock c3 - 10 * 1000)); [|lia].
      destruct H3 as [[d Hd] _]. exists d.
      by rewrite (writes_of_log _ _ _ Hd).
    + intros Hage.
      pose proof (createSession_expired sid addr touched c3 st2 Hc3 Hn2
                    Hsid Hpos3) as H3.
      rewrite Ho in H3. specialize (H3 Hage Harg3). cbv zeta in H3.
      split.
      * intros docs Hdocs Hdue. rewrite Hdocs in H3.
        destruct H3 as [(H3 & _)|[_ [H3|H3]]]; [done|congruence|lia].
      * intros e He Hte. rewrite He in H3. by apply H3.
Qed.

Lemma touch_throttled_witness :
  let st1 := (createSession (resolveAt 20000) touchStore).2 in
  let st2 := (createSession (resolveAt 25000) st1).2 in
  (length (writesBetween touchStore st2) ≤ 1)%nat
  ∧ (writesBetween touchStore st1 ≠ [] →
     writesBetween st1 st2 = []
     ∧ (clock (resolveAt 25000) - maxAge (options touchStore)
        ≤ clock (resolveAt 20000) → st2 = st1))
  ∧ (clock (resolveAt 25000) - maxAge (options touchStore) ≤ 1000 →
     ∃ touched, Cached "s1" 0 touched st2 ∧ 1000 ≤ touched)
  ∧ ∀ touched c3,
      Cached "s1" 0 touched st2 → 0 < touched →
      sidArg c3 = Some "s1" →
      touched + 10 * 1000 < clock c3 → clock c3 ≤ foundAt c3 →
      let r := createSession c3 st2 in
      (clock c3 - maxAge (options touchStore) ≤ touched →
       ∃ d, writesBetween st2 r.2 = [DbUpdate "s1" d])
      ∧ (touched < clock c3 - maxAge (options touchStore) →
         (∀ docs, found c3 = FindDocs docs →
                  sweepDue (clock c3) st2 = false →
                  ∃ d, writesBetween st2 r.2 = [DbUpdate "s1" d])
         ∧ (∀ e, found c3 = FindError e → truthy e = true →
                 writesBetween st2 r.2 = []
                 ∧ r.1 = Some (mkCallback e None))).
Proof.
  apply (touch_throttled "s1" 0 1000 (resolveAt 20000) (resolveAt 25000)
           touchStore).
  - split; [reflexivity|]. eexists. repeat split; reflexivity.
  - apply NoDup_singleton.
  - discriminate.
  - lia.
  - reflexivity.
  - reflexivity.
  - reflexivity.
  - reflexivity.
  - simpl. lia.
  - simpl. lia.
  - simpl. lia.
  - simpl. lia.
Defined.

(** The claim as stated fails in two ways.  The session touched at
    20000 is resolved again one millisecond after [maxAge] (30 days by
    default) has passed, far more than 10 seconds after the touch, and
    the lookup in the store fails: the error goes to the callback and no
    write is issued.  And of two resolutions 7 seconds apart, at 5000 and
    at 12000, of a session last active at 1000, the first writes nothing
    and the second one writes. *)
Lemma touch_not_always_as_claimed :
  (let st1 := (createSession (resolveAt 20000) touchStore).2 in
   let late := 20000 + maxAge (options touchStore) + 1 in
   let failed := VError "MongoNetworkError" "connection lost" None in
   let c3 := mkCall (Some "s1") late (FindError failed) late
                    (WriteOk anonymousData) "fresh" in
   length (writesBetween touchStore st1) = 1%nat
   ∧ lastActiveAt 0 st1 = Some 20000
   ∧ (20000 + 10 * 1000 <? clock c3) = true
   ∧ writesBetween st1 (createSession c3 st1).2 = []
   ∧ (createSession c3 st1).1 = Some (mkCallback failed None))
  ∧ (let st1 := (createSession (resolveAt 5000) touchStore).2 in
     let st2 := (createSession (resolveAt 12000) st1).2 in
     lastActiveAt 0 touchStore = Some 1000
     ∧ writesBetween touchStore st1 = []
     ∧ length (writesBetween st1 st2) = 1%nat).
Proof. vm_compute. done. Qed.

(** Three resolutions computed: one write for the first two, a second
    write for the third. *)
Example touch_three_times :
  let st1 := (createSession (resolveAt 20000) touchStore).2 in
  let st2 := (createSession (resolveAt 25000) st1).2 in
  let st3 := (createSession (resolveAt 31000) st2).2 in
  length (writesBetween touchStore st1) = 1%nat
  ∧ writesBetween st1 st2 = []
  ∧ length (writesBetween st2 st3) = 1%nat.
Proof. vm_compute. done. Qed.

(** The session touched at 20000 resolved after [maxAge] has passed,
    with the store answering the lookup: the array is taken for the
    document, the cached session is found under its id and updated. *)
Example touch_after_maxAge :
  let st1 := (createSession (resolveAt 20000) touchStore).2 in
  let late := 20000 + maxAge (options touchStore) + 1 in
  let st3 := (createSession (resolveAt late) st1).2 in
  length (writesBetween st1 st3) = 1%nat
  ∧ lastActiveAt 0 st3 = Some late.
Proof. vm_compute. done. Qed.

End TouchFacts.
